(** * Harkaam: a shallow embedding of the scheduler, the response parsers
    and the agent control loops

  Source files embedded here:
    - harkaam/system/workflow.py   (module [workflow])
    - harkaam/core/parser.py       (module [parser])
    - harkaam/core/tools.py        (module [tools])
    - harkaam/agents/base.py, react.py, ooda.py, bdi.py, raise_agent.py,
      lat.py, rewoo.py             (modules [base], [react], ...)
    - harkaam/core/memory.py       (module [memory])
    - harkaam/core/llm.py          (module [core_llm], the factory)

  Conventions.
    - A Python [str] is a Rocq [string]; a character is a code point
      below 256 (Latin-1), which is where [str.isspace], [str.lower],
      [\s], [\d] and [\w] are tabulated below.
    - A Python [dict] whose iteration order is observed is an insertion
      ordered association list ([odict]); a [dict] or [set] used only
      through lookup and membership is a [gmap] or a [gset].
    - A Python exception is a value of [pyexn]; a call that may raise
      returns [pyexn + A].
    - The interpreter's recursion limit is not modelled: recursion is
      unbounded, and functions defined by recursion on a fuel argument are
      proved never to exhaust the fuel their callers supply. *)

From Stdlib Require Import String Ascii List Bool Arith ZArith Lia DecimalString.
From stdpp Require Import gmap strings list fin_maps relations.

Set Default Proof Using "Type".

(** ** Python exceptions and ordered dictionaries *)

Inductive pyexn : Type :=
| ValueError (msg : string)
| KeyError (key : string)
| IndexError (msg : string)
| JSONDecodeError (msg : string)
| Exception (msg : string).

(** [str(e)] *)
Definition exn_str (e : pyexn) : string :=
  match e with
  | ValueError msg | IndexError msg | JSONDecodeError msg | Exception msg => msg
  | KeyError key => "'" +:+ key +:+ "'"
  end.

(** [odict V]: a [dict] with string keys, in insertion order.  Keys are
  distinct in every dictionary built by [odict_set] from the empty one. *)
Definition odict (V : Type) : Type := list (string * V).

Section odict.
Context {V : Type}.

Fixpoint odict_get (d : odict V) (k : string) : option V :=
  match d with
  | [] => None
  | (k', v) :: d' => if decide (k = k') then Some v else odict_get d' k
  end.

(** [d[k] = v]: overwrite in place, or append a new key at the end. *)
Fixpoint odict_set (d : odict V) (k : string) (v : V) : odict V :=
  match d with
  | [] => [(k, v)]
  | (k', v') :: d' =>
      if decide (k = k') then (k', v) :: d' else (k', v') :: odict_set d' k v
  end.

Definition odict_keys (d : odict V) : list string := d.*1.
Definition odict_values (d : odict V) : list V := d.*2.
Definition odict_mem (d : odict V) (k : string) : bool :=
  bool_decide (k ∈ odict_keys d).
End odict.

(** ** Strings: the [str] methods the sources use *)

Module py.

Definition code (c : ascii) : nat := nat_of_ascii c.

(** [str.isspace] on one character, which is also the class [\s] of [re]
    for [str] patterns: TAB..CR, FS..US, SPACE, NEL and NBSP. *)
Definition isspace (c : ascii) : bool :=
  let n := code c in
  ((9 <=? n) && (n <=? 13)) || ((28 <=? n) && (n <=? 32))
  || (n =? 133) || (n =? 160).

Fixpoint lstrip (s : string) : string :=
  match s with
  | String c s' => if isspace c then lstrip s' else s
  | EmptyString => EmptyString
  end.

Fixpoint rev_onto (s acc : string) : string :=
  match s with
  | EmptyString => acc
  | String c s' => rev_onto s' (String c acc)
  end.
Definition rev (s : string) : string := rev_onto s EmptyString.

Definition rstrip (s : string) : string := rev (lstrip (rev s)).
Definition strip (s : string) : string := rstrip (lstrip s).

(** [str.lower] on one character: A..Z and the Latin-1 capitals. *)
Definition lower_char (c : ascii) : ascii :=
  let n := code c in
  if ((65 <=? n) && (n <=? 90))
     || ((192 <=? n) && (n <=? 222) && negb (n =? 215))
  then ascii_of_nat (n + 32) else c.

Fixpoint lower (s : string) : string :=
  match s with
  | EmptyString => EmptyString
  | String c s' => String (lower_char c) (lower s')
  end.

(** [s.startswith(p)] *)
Fixpoint startswith (s p : string) {struct p} : bool :=
  match p, s with
  | EmptyString, _ => true
  | String a p', String b s' => if decide (a = b) then startswith s' p' else false
  | String _ _, EmptyString => false
  end.

(** [p in s] for strings *)
Fixpoint contains (s p : string) : bool :=
  startswith s p ||
  match s with
  | EmptyString => false
  | String _ s' => contains s' p
  end.

(** [s[:n]] *)
Fixpoint take (n : nat) (s : string) : string :=
  match n, s with
  | S n', String c s' => String c (take n' s')
  | _, _ => EmptyString
  end.

(** [s[n:]] *)
Fixpoint drop (n : nat) (s : string) : string :=
  match n, s with
  | S n', String _ s' => drop n' s'
  | _, _ => s
  end.

(** [s.endswith(p)] *)
Definition endswith (s p : string) : bool := startswith (rev s) (rev p).

(** [str.upper] on one character: a..z and the Latin-1 small letters whose
    capital is a single Latin-1 character. *)
Definition upper_char (c : ascii) : ascii :=
  let n := code c in
  if ((97 <=? n) && (n <=? 122))
     || ((224 <=? n) && (n <=? 254) && negb (n =? 247))
  then ascii_of_nat (n - 32) else c.

Fixpoint upper (s : string) : string :=
  match s with
  | EmptyString => EmptyString
  | String c s' => String (upper_char c) (upper s')
  end.

(** [c * n] for a one-character string *)
Fixpoint repeat (c : ascii) (n : nat) : string :=
  match n with
  | 0 => EmptyString
  | S n' => String c (repeat c n')
  end.

(** [s.split(sep, 1)]: the text before the first [sep] and, when [sep]
    occurs, the text after it. *)
Fixpoint split_once (s sep : string) : string * option string :=
  if startswith s sep then (EmptyString, Some (drop (String.length sep) s))
  else match s with
       | EmptyString => (EmptyString, None)
       | String c s' => let '(a, b) := split_once s' sep in (String c a, b)
       end.

(** [str(n)] for an integer *)
Definition str_of_Z (z : Z) : string := NilZero.string_of_int (Z.to_int z).

(** [l[:n]] for an integer [n] of either sign *)
Definition slice_to {A : Type} (n : Z) (l : list A) : list A :=
  if (0 <=? n)%Z then firstn (Z.to_nat n) l
  else firstn (length l - Z.to_nat (- n)) l.

(** [l[-k:]] for a positive literal [k] *)
Definition last_n {A : Type} (k : nat) (l : list A) : list A :=
  skipn (length l - k) l.

(** [sep.join(l)] *)
Fixpoint join (sep : string) (l : list string) : string :=
  match l with
  | [] => EmptyString
  | [x] => x
  | x :: l' => x +:+ sep +:+ join sep l'
  end.

End py.

(** ** harkaam/system/workflow.py *)

Module workflow.
Section workflow.

(** [Value] is Python's [Any]: what an agent's [run] returns, what
    [input_data] holds and what the transforms produce. *)
Context {Value : Type}.

Record WorkflowNode : Type := {
  id : string;
  agent_id : string;
  name : string;
  description : string;
  dependencies : list string;
  condition : option (gmap string Value → bool);
  transform_input : option (gmap string Value → gmap string Value);
  transform_output : option (Value → Value);
}.

(** An agent as the workflow sees it: an [id] and a [run] method called
    as [agent.run(task, context=node_input)], which may raise. *)
Record Agent : Type := {
  agent_ident : string;
  run : string → gmap string Value → pyexn + Value;
}.

Record Workflow : Type := {
  nodes : odict WorkflowNode;
  agents : gmap string Agent;
}.

Definition empty_workflow : Workflow := {| nodes := []; agents := ∅ |}.

Definition add_agent (w : Workflow) (agent : Agent) : Workflow * string :=
  ({| nodes := nodes w; agents := <[agent_ident agent := agent]> (agents w) |},
   agent_ident agent).

(** [add_node]; [uuid] is the identifier drawn by [uuid.uuid4()] for the
    new node, [deps] is the optional [dependencies] argument. *)
Definition add_node (w : Workflow) (uuid : string) (agent : Agent)
    (nm descr : string) (deps : option (list string))
    (cond : option (gmap string Value → bool))
    (t_in : option (gmap string Value → gmap string Value))
    (t_out : option (Value → Value)) : Workflow * string :=
  let w1 := if decide (is_Some (agents w !! agent_ident agent)) then w
            else (add_agent w agent).1 in
  let node := {| id := uuid; agent_id := agent_ident agent; name := nm;
                 description := descr; dependencies := default [] deps;
                 condition := cond; transform_input := t_in;
                 transform_output := t_out |} in
  ({| nodes := odict_set (nodes w1) (id node) node; agents := agents w1 |},
   id node).

(** *** Depth-first traversals

    Both traversals share two sets, [visited] and [temp], that the nested
    function mutates; [visit] also appends to [result]. *)

Record dfs_state : Type := {
  result : list string;
  visited : gset string;
  temp : gset string;
}.

Inductive outcome (A : Type) : Type :=
  | Done (a : A) (st : dfs_state)
  | Raise (e : pyexn) (st : dfs_state)
  | OutOfFuel.
Arguments Done {A} a st.
Arguments Raise {A} e st.
Arguments OutOfFuel {A}.

(** The [for dep_id in self.nodes[node_id].dependencies] loop of
    [has_cycle]; [rec] is the recursive call. *)
Definition has_cycle_deps (rec : string → dfs_state → outcome bool)
    : list string → dfs_state → outcome bool :=
  fix loop (ds : list string) (st : dfs_state) : outcome bool :=
    match ds with
    | [] => Done false st
    | dep_id :: ds' =>
        match rec dep_id st with
        | Done true st' => Done true st'
        | Done false st' => loop ds' st'
        | other => other
        end
    end.

(** [has_cycle] of [_validate]. *)
Fixpoint has_cycle (fuel : nat) (w : Workflow) (node_id : string)
    (st : dfs_state) : outcome bool :=
  match fuel with
  | 0 => OutOfFuel
  | S fuel' =>
      if decide (node_id ∈ temp st) then Done true st
      else if decide (node_id ∈ visited st) then Done false st
      else
        let st1 := {| result := result st; visited := visited st;
                      temp := temp st ∪ {[node_id]} |} in
        match odict_get (nodes w) node_id with
        | None => Raise (KeyError node_id) st1
        | Some node =>
            match has_cycle_deps (has_cycle fuel' w) (dependencies node) st1 with
            | Done false st2 =>
                Done false {| result := result st2;
                              visited := visited st2 ∪ {[node_id]};
                              temp := temp st2 ∖ {[node_id]} |}
            | other => other
            end
        end
  end.

(** The loop "Visit dependencies first" of [visit]. *)
Definition visit_deps (rec : string → dfs_state → outcome unit)
    : list string → dfs_state → outcome unit :=
  fix loop (ds : list string) (st : dfs_state) : outcome unit :=
    match ds with
    | [] => Done () st
    | dep_id :: ds' =>
        match rec dep_id st with
        | Done _ st' => loop ds' st'
        | other => other
        end
    end.

(** [visit] of [_get_execution_order]. *)
Fixpoint visit (fuel : nat) (w : Workflow) (node_id : string)
    (st : dfs_state) : outcome unit :=
  match fuel with
  | 0 => OutOfFuel
  | S fuel' =>
      if decide (node_id ∈ temp st) then
        Raise (ValueError "Circular dependency detected") st
      else if decide (node_id ∈ visited st) then Done () st
      else
        let st1 := {| result := result st; visited := visited st;
                      temp := temp st ∪ {[node_id]} |} in
        match odict_get (nodes w) node_id with
        | None => Raise (KeyError node_id) st1
        | Some node =>
            match visit_deps (visit fuel' w) (dependencies node) st1 with
            | Done _ st2 =>
                Done () {| result := result st2 ++ [node_id];
                           visited := visited st2 ∪ {[node_id]};
                           temp := temp st2 ∖ {[node_id]} |}
            | other => other
            end
        end
  end.

Definition init_state : dfs_state :=
  {| result := []; visited := ∅; temp := ∅ |}.

(** Recursion depth never exceeds the number of nodes (lemma
    [visit_fuel]); one more level detects a repeated node. *)
Definition depth_bound (w : Workflow) : nat := S (length (nodes w)).

(** The three checks of [_validate], in order. *)
Fixpoint check_agents (w : Workflow) (ns : list WorkflowNode) : pyexn + unit :=
  match ns with
  | [] => inr ()
  | node :: ns' =>
      if decide (is_Some (agents w !! agent_id node)) then check_agents w ns'
      else inl (ValueError ("Node " +:+ name node +:+
                            " references non-existent agent " +:+ agent_id node))
  end.

Fixpoint check_node_deps (w : Workflow) (node : WorkflowNode)
    (ds : list string) : pyexn + unit :=
  match ds with
  | [] => inr ()
  | dep_id :: ds' =>
      if odict_mem (nodes w) dep_id then check_node_deps w node ds'
      else inl (ValueError ("Node " +:+ name node +:+
                            " depends on non-existent node " +:+ dep_id))
  end.

Fixpoint check_deps (w : Workflow) (ns : list WorkflowNode) : pyexn + unit :=
  match ns with
  | [] => inr ()
  | node :: ns' =>
      match check_node_deps w node (dependencies node) with
      | inl e => inl e
      | inr _ => check_deps w ns'
      end
  end.

Fixpoint check_cycles (w : Workflow) (ids : list string) (st : dfs_state)
    : outcome unit :=
  match ids with
  | [] => Done () st
  | node_id :: ids' =>
      match has_cycle (depth_bound w) w node_id st with
      | Done true st' =>
          Raise (ValueError "Circular dependency detected in workflow") st'
      | Done false st' => check_cycles w ids' st'
      | Raise e st' => Raise e st'
      | OutOfFuel => OutOfFuel
      end
  end.

Definition _validate (w : Workflow) : option (pyexn + unit) :=
  match check_agents w (odict_values (nodes w)) with
  | inl e => Some (inl e)
  | inr _ =>
      match check_deps w (odict_values (nodes w)) with
      | inl e => Some (inl e)
      | inr _ =>
          match check_cycles w (odict_keys (nodes w)) init_state with
          | Done _ _ => Some (inr ())
          | Raise e _ => Some (inl e)
          | OutOfFuel => None
          end
      end
  end.

Fixpoint visit_all (w : Workflow) (ids : list string) (st : dfs_state)
    : outcome unit :=
  match ids with
  | [] => Done () st
  | node_id :: ids' =>
      if decide (node_id ∈ visited st) then visit_all w ids' st
      else match visit (depth_bound w) w node_id st with
           | Done _ st' => visit_all w ids' st'
           | other => other
           end
  end.

Definition _get_execution_order (w : Workflow) : option (pyexn + list string) :=
  match visit_all w (odict_keys (nodes w)) init_state with
  | Done _ st => Some (inr (result st))
  | Raise e _ => Some (inl e)
  | OutOfFuel => None
  end.

(** *** [execute] *)

(** One invocation of a bound unit of work, as recorded by the run. *)
Record Call : Type := {
  call_agent : string;
  call_task : string;
  call_context : gmap string Value;
}.

(** Lines 131-134: the initial input plus one entry per dependency that
    already has a result, under the dependency's display name. *)
Fixpoint collect_inputs (w : Workflow) (ds : list string)
    (results node_input : gmap string Value) : pyexn + gmap string Value :=
  match ds with
  | [] => inr node_input
  | dep_id :: ds' =>
      match results !! dep_id with
      | Some r =>
          match odict_get (nodes w) dep_id with
          | Some dep => collect_inputs w ds' results (<[name dep := r]> node_input)
          | None => inl (KeyError dep_id)
          end
      | None => collect_inputs w ds' results node_input
      end
  end.

Definition task_description (node : WorkflowNode) : string :=
  let t := name node +:+ ": " +:+ description node in
  if decide (py.strip t = EmptyString) then "Execute task for node " +:+ name node
  else t.

(** [node.condition and not node.condition({**input_data, **results})] *)
Definition skipped (node : WorkflowNode)
    (input_data results : gmap string Value) : bool :=
  match condition node with
  | Some c => negb (c (results ∪ input_data))
  | None => false
  end.

Fixpoint run_nodes (w : Workflow) (input_data : gmap string Value)
    (order : list string) (results : gmap string Value) (log : list Call)
    : (pyexn + gmap string Value) * list Call :=
  match order with
  | [] => (inr results, log)
  | node_id :: order' =>
      match odict_get (nodes w) node_id with
      | None => (inl (KeyError node_id), log)
      | Some node =>
          if skipped node input_data results
          then run_nodes w input_data order' results log
          else
            match collect_inputs w (dependencies node) results input_data with
            | inl e => (inl e, log)
            | inr node_input =>
                let node_input := match transform_input node with
                                  | Some f => f node_input
                                  | None => node_input
                                  end in
                match agents w !! agent_id node with
                | None => (inl (KeyError (agent_id node)), log)
                | Some agent =>
                    let task := task_description node in
                    let log' := log ++ [{| call_agent := agent_id node;
                                           call_task := task;
                                           call_context := node_input |}] in
                    match run agent task node_input with
                    | inl e => (inl e, log')
                    | inr r =>
                        let r' := match transform_output node with
                                  | Some f => f r
                                  | None => r
                                  end in
                        run_nodes w input_data order' (<[node_id := r']> results) log'
                    end
                end
            end
      end
  end.

(** [execute] returns what Python returns or raises, together with the
    calls made to bound units of work; [None] only if a traversal ran out
    of fuel, which [execute_total] excludes. *)
Definition execute (w : Workflow) (input_data : option (gmap string Value))
    : option ((pyexn + gmap string Value) * list Call) :=
  let input_data := default ∅ input_data in
  match _validate w with
  | None => None
  | Some (inl e) => Some (inl e, [])
  | Some (inr _) =>
      match _get_execution_order w with
      | None => None
      | Some (inl e) => Some (inl e, [])
      | Some (inr execution_order) =>
          Some (run_nodes w input_data execution_order ∅ [])
      end
  end.

(** *** The dependency relation, for stating properties of the graph *)

(** [depends_on w n d]: node [n] lists [d] among its dependencies. *)
Definition depends_on (w : Workflow) (n d : string) : Prop :=
  ∃ node, odict_get (nodes w) n = Some node ∧ d ∈ dependencies node.

(** Some node transitively depends on itself. *)
Definition cyclic (w : Workflow) : Prop := ∃ n, tc (depends_on w) n n.

(** Some node lists a dependency id that is not a node id. *)
Definition dangling (w : Workflow) : Prop :=
  ∃ n d, depends_on w n d ∧ odict_get (nodes w) d = None.

(** Every dependency of the node at position [i] sits at a position [j < i]. *)
Definition topological (w : Workflow) (order : list string) : Prop :=
  ∀ i n d, order !! i = Some n → depends_on w n d →
    ∃ j, j < i ∧ order !! j = Some d.

(** *** Invariants of the traversals, for the proofs *)

(** Dependencies that all exist: the negation of [dangling]. *)
Definition deps_exist (w : Workflow) : Prop :=
  ∀ n d, depends_on w n d → is_Some (odict_get (nodes w) d).

(** The node ids, as a set. *)
Definition key_set (w : Workflow) : gset string :=
  list_to_set (odict_keys (nodes w)).

(** What a successful [visit] does to the traversal state: [temp] is
    restored; [result] and [visited] grow by the same new nodes, which are
    nodes of the graph, were neither visited nor in progress, and come each
    after its dependencies. *)
Definition extends (w : Workflow) (st st' : dfs_state) : Prop :=
  temp st' = temp st ∧
  ∃ new, result st' = result st ++ new ∧
    visited st' = visited st ∪ list_to_set new ∧
    NoDup new ∧
    (∀ x, x ∈ new →
       (x ∉ temp st) ∧ (x ∉ visited st) ∧ is_Some (odict_get (nodes w) x)) ∧
    (∀ i x d, new !! i = Some x → depends_on w x d →
       d ∈ visited st ∨ ∃ j, j < i ∧ new !! j = Some d).

(** [has_cycle] and [visit] make the same moves on [visited] and [temp]:
    [has_cycle] answers [True] exactly where [visit] raises [ValueError]. *)
Definition same_sets (st1 st2 : dfs_state) : Prop :=
  visited st1 = visited st2 ∧ temp st1 = temp st2.

Definition sim_outcome (o1 : outcome bool) (o2 : outcome unit) : Prop :=
  match o2 with
  | Done _ st2 => ∃ st1, o1 = Done false st1 ∧ same_sets st1 st2
  | Raise (ValueError _) _ => ∃ st1, o1 = Done true st1
  | Raise e _ => ∃ st1, o1 = Raise e st1
  | OutOfFuel => o1 = OutOfFuel
  end.

End workflow.
Arguments Done {A} a st.
Arguments Raise {A} e st.
Arguments OutOfFuel {A}.
Arguments WorkflowNode : clear implicits.
Arguments Agent : clear implicits.
Arguments Workflow : clear implicits.
Arguments Call : clear implicits.
End workflow.

(** ** The [re] module: the fragment of Python's regular expressions that
    the sources use, matched by backtracking in the order [re] tries the
    alternatives (greedy repetitions longest first, lazy ones shortest
    first, alternatives left to right). *)

Module re.

(** Character classes. [Dot] is [.], [Space] is [\s], [Digit] is [\d],
    [Word] is [\w], [OneOf cs] is a bracket class listing [cs]. *)
Inductive cset : Type :=
| Dot
| Space
| Digit
| Word
| OneOf (chars : string).

Inductive regex : Type :=
| Lit (s : string)
| Cls (cs : cset)
| Star (cs : cset)
| Lazy (cs : cset)
| Opt (r : regex)
| Seq (r1 r2 : regex)
| Alt (r1 r2 : regex)
| Group (n : nat) (r : regex)
| Eos
| Ahead (r : regex).

(** [cs+] *)
Definition Plus (cs : cset) : regex := Seq (Cls cs) (Star cs).

Record flags : Type := { IGNORECASE : bool; DOTALL : bool }.

Definition no_flags : flags := {| IGNORECASE := false; DOTALL := false |}.
Definition dotall : flags := {| IGNORECASE := false; DOTALL := true |}.
Definition ignorecase : flags := {| IGNORECASE := true; DOTALL := false |}.
Definition ignorecase_dotall : flags := {| IGNORECASE := true; DOTALL := true |}.

Definition isdigit (c : ascii) : bool :=
  let n := py.code c in (48 <=? n) && (n <=? 57).

(** [\w]: alphanumeric characters and the underscore, for code points below
    256. *)
Definition isword (c : ascii) : bool :=
  let n := py.code c in
  ((48 <=? n) && (n <=? 57)) || ((65 <=? n) && (n <=? 90)) || (n =? 95)
  || ((97 <=? n) && (n <=? 122)) || (n =? 170) || (n =? 178) || (n =? 179)
  || (n =? 181) || (n =? 185) || (n =? 186) || ((188 <=? n) && (n <=? 190))
  || ((192 <=? n) && (n <=? 214)) || ((216 <=? n) && (n <=? 246))
  || (248 <=? n).

Fixpoint mem_char (c : ascii) (cs : string) : bool :=
  match cs with
  | EmptyString => false
  | String a cs' => bool_decide (a = c) || mem_char c cs'
  end.

Definition in_cset (f : flags) (cs : cset) (c : ascii) : bool :=
  match cs with
  | Dot => DOTALL f || negb (bool_decide (c = "010"%char))
  | Space => py.isspace c
  | Digit => isdigit c
  | Word => isword c
  | OneOf chars => mem_char c chars
  end.

Definition char_eq (f : flags) (p c : ascii) : bool :=
  if IGNORECASE f then bool_decide (py.lower_char p = py.lower_char c)
  else bool_decide (p = c).

(** The text left after the literal [l], when the text starts with it. *)
Fixpoint skip_lit (f : flags) (l s : string) : option string :=
  match l, s with
  | EmptyString, _ => Some s
  | String p l', String c s' => if char_eq f p c then skip_lit f l' s' else None
  | String _ _, EmptyString => None
  end.

(** [$] without [MULTILINE]: the end of the text, or just before a newline
    that ends the text. *)
Definition at_eos (s : string) : bool :=
  bool_decide (s = EmptyString) || bool_decide (s = String "010"%char EmptyString).

(** The captured groups, by number. *)
Abbreviation caps := (gmap nat string).

(** [cs*], greedy: the longest run first. *)
Fixpoint star {A : Type} (p : ascii → bool) (k : string → option A)
    (s : string) : option A :=
  match s with
  | String c s' =>
      if p c then match star p k s' with
                  | Some x => Some x
                  | None => k s
                  end
      else k s
  | EmptyString => k s
  end.

(** [cs*?], lazy: the shortest run first. *)
Fixpoint lazy {A : Type} (p : ascii → bool) (k : string → option A)
    (s : string) : option A :=
  match k s with
  | Some x => Some x
  | None =>
      match s with
      | String c s' => if p c then lazy p k s' else None
      | EmptyString => None
      end
  end.

(** The text that was consumed between [s] and its suffix [s']. *)
Definition consumed (s s' : string) : string :=
  py.take (String.length s - String.length s') s.

(** [mt f r s c k]: match [r] at the start of [s] with captures [c], then
    continue with [k] on the rest; [None] when every way of matching
    fails. *)
Fixpoint mt (f : flags) (r : regex) (A : Type) (s : string) (c : caps)
    (k : string → caps → option A) : option A :=
  match r with
  | Lit l => match skip_lit f l s with
             | Some s' => k s' c
             | None => None
             end
  | Cls cs => match s with
              | String a s' => if in_cset f cs a then k s' c else None
              | EmptyString => None
              end
  | Star cs => star (in_cset f cs) (λ s', k s' c) s
  | Lazy cs => lazy (in_cset f cs) (λ s', k s' c) s
  | Opt r1 => match mt f r1 A s c k with
              | Some x => Some x
              | None => k s c
              end
  | Seq r1 r2 => mt f r1 A s c (λ s' c', mt f r2 A s' c' k)
  | Alt r1 r2 => match mt f r1 A s c k with
                 | Some x => Some x
                 | None => mt f r2 A s c k
                 end
  | Group n r1 => mt f r1 A s c (λ s' c', k s' (<[n := consumed s s']> c'))
  | Eos => if at_eos s then k s c else None
  | Ahead r1 => match mt f r1 caps s c (λ _ c', Some c') with
                | Some c' => k s c'
                | None => None
                end
  end.

(** A match object: the captured groups and the text after the match. *)
Record Match : Type := { groups : caps; rest : string }.

(** [m.group(n)]; every group of the patterns in the sources takes part in
    every match of its pattern. *)
Definition group (m : Match) (n : nat) : string := default EmptyString (groups m !! n).

(** [pattern.match(s)]: a match at the start of [s]. *)
Definition match_at (f : flags) (r : regex) (s : string) : option Match :=
  mt f r Match s ∅ (λ s' c, Some {| groups := c; rest := s' |}).

(** [re.search(pattern, s, flags)]: the leftmost match. *)
Fixpoint search (f : flags) (r : regex) (s : string) : option Match :=
  match match_at f r s with
  | Some m => Some m
  | None =>
      match s with
      | String _ s' => search f r s'
      | EmptyString => None
      end
  end.

(** [re.finditer(pattern, s, flags)]: the matches from left to right, each
    search resuming where the previous match ended; [skip] counts the
    characters of [s] that the previous match still covers. *)
Fixpoint finditer_from (f : flags) (r : regex) (s : string) (skip : nat)
    : list Match :=
  match skip with
  | S skip' =>
      match s with
      | String _ s' => finditer_from f r s' skip'
      | EmptyString => []
      end
  | 0 =>
      match match_at f r s with
      | Some m =>
          m :: match s with
               | String _ s' =>
                   finditer_from f r s' (String.length s - String.length (rest m) - 1)
               | EmptyString => []
               end
      | None =>
          match s with
          | String _ s' => finditer_from f r s' 0
          | EmptyString => []
          end
      end
  end.

Definition finditer (f : flags) (r : regex) (s : string) : list Match :=
  finditer_from f r s 0.

(** [re.findall] for a pattern with one group: the group of each match. *)
Definition findall (f : flags) (r : regex) (s : string) : list string :=
  (λ m, group m 1) <$> finditer f r s.

End re.

Declare Scope re_scope.
Delimit Scope re_scope with re.
Bind Scope re_scope with re.regex.
Infix "⋅" := re.Seq (at level 60, right associativity) : re_scope.
Infix "∣" := re.Alt (at level 65, right associativity) : re_scope.

(** ** harkaam/core/parser.py *)

Module parser.
Import re.
Local Open Scope re_scope.

(** [match.group(1).strip()] *)
Definition field (m : Match) : string := py.strip (group m 1).

(** [if x:] on a string *)
Definition nonempty (s : string) : bool := negb (bool_decide (s = EmptyString)).

(** [key in d] *)
Definition has {V : Type} (d : gmap string V) (key : string) : bool :=
  bool_decide (is_Some (d !! key)).

(** [if d:] on a dictionary *)
Definition nonempty_dict {V : Type} (d : gmap string V) : bool :=
  negb (bool_decide (d = ∅)).

Module ReActParser.

Record result : Type := {
  cycles : list (gmap string string);
  final_answer : string;
  raw_response : string;
}.

Definition final_answer_re : regex :=
  Lit "Final Answer:" ⋅ Star Space ⋅ Group 1 (Lazy Dot) ⋅ (Eos ∣ Lit "Thought:").
Definition thought_re : regex :=
  Lit "Thought:" ⋅ Star Space ⋅ Group 1 (Lazy Dot)
  ⋅ (Lit "Action:" ∣ Lit "Observation:" ∣ Lit "Final Answer:" ∣ Eos).
Definition action_re : regex :=
  Lit "Action:" ⋅ Star Space ⋅ Group 1 (Lazy Dot)
  ⋅ (Lit "Observation:" ∣ Lit "Thought:" ∣ Lit "Final Answer:" ∣ Eos).
Definition observation_re : regex :=
  Lit "Observation:" ⋅ Star Space ⋅ Group 1 (Lazy Dot)
  ⋅ (Lit "Thought:" ∣ Lit "Action:" ∣ Lit "Final Answer:" ∣ Eos).

(** The bodies of the three [for match in ...] loops. *)
Definition thought_step (current_cycle : gmap string string) (m : Match)
    : gmap string string :=
  let thought := field m in
  if nonempty thought then {[ "thought" := thought ]} else current_cycle.

Definition action_step (current_cycle : gmap string string) (m : Match)
    : gmap string string :=
  let action := field m in
  if nonempty action && has current_cycle "thought"
  then <["action" := action]> current_cycle else current_cycle.

Definition observation_step
    (st : list (gmap string string) * gmap string string) (m : Match)
    : list (gmap string string) * gmap string string :=
  let '(cycles, current_cycle) := st in
  let observation := field m in
  if nonempty observation && has current_cycle "thought"
     && has current_cycle "action"
  then (cycles ++ [<["observation" := observation]> current_cycle], ∅)
  else (cycles, current_cycle).

Definition parse (text : string) : result :=
  let final_answer :=
    match search dotall final_answer_re text with
    | Some m => field m
    | None => EmptyString
    end in
  let current_cycle := foldl thought_step ∅ (finditer dotall thought_re text) in
  let current_cycle :=
    foldl action_step current_cycle (finditer dotall action_re text) in
  let done :=
    foldl observation_step ([], current_cycle)
      (finditer dotall observation_re text) in
  let cycles := done.1 in
  let current_cycle := done.2 in
  let cycles :=
    if nonempty_dict current_cycle && has current_cycle "thought"
    then cycles ++ [current_cycle] else cycles in
  {| cycles := cycles; final_answer := final_answer; raw_response := text |}.

End ReActParser.

Module OODAParser.

Record result : Type := {
  loops : list (gmap string string);
  final_answer : string;
  raw_response : string;
}.

Definition final_answer_re : regex :=
  Lit "Final Answer:" ⋅ Star Space ⋅ Group 1 (Lazy Dot)
  ⋅ (Eos ∣ Lit "Observation:").
Definition observation_re : regex :=
  Lit "Observation:" ⋅ Star Space ⋅ Group 1 (Lazy Dot)
  ⋅ (Lit "Orientation:" ∣ Lit "Decision:" ∣ Lit "Action:" ∣ Lit "Final Answer:" ∣ Eos).
Definition orientation_re : regex :=
  Lit "Orientation:" ⋅ Star Space ⋅ Group 1 (Lazy Dot)
  ⋅ (Lit "Decision:" ∣ Lit "Action:" ∣ Lit "Observation:" ∣ Lit "Final Answer:" ∣ Eos).
Definition decision_re : regex :=
  Lit "Decision:" ⋅ Star Space ⋅ Group 1 (Lazy Dot)
  ⋅ (Lit "Action:" ∣ Lit "Observation:" ∣ Lit "Orientation:" ∣ Lit "Final Answer:" ∣ Eos).
Definition action_re : regex :=
  Lit "Action:" ⋅ Star Space ⋅ Group 1 (Lazy Dot)
  ⋅ (Lit "Observation:" ∣ Lit "Orientation:" ∣ Lit "Decision:" ∣ Lit "Final Answer:" ∣ Eos).

Definition observation_step (current_loop : gmap string string) (m : Match)
    : gmap string string :=
  let observation := field m in
  if nonempty observation then {[ "observation" := observation ]}
  else current_loop.

Definition orientation_step (current_loop : gmap string string) (m : Match)
    : gmap string string :=
  let orientation := field m in
  if nonempty orientation && has current_loop "observation"
  then <["orientation" := orientation]> current_loop else current_loop.

Definition decision_step (current_loop : gmap string string) (m : Match)
    : gmap string string :=
  let decision := field m in
  if nonempty decision && has current_loop "observation"
     && has current_loop "orientation"
  then <["decision" := decision]> current_loop else current_loop.

Definition action_step
    (st : list (gmap string string) * gmap string string) (m : Match)
    : list (gmap string string) * gmap string string :=
  let '(loops, current_loop) := st in
  let action := field m in
  if nonempty action && has current_loop "observation"
     && has current_loop "orientation" && has current_loop "decision"
  then (loops ++ [<["action" := action]> current_loop], ∅)
  else (loops, current_loop).

Definition parse (text : string) : result :=
  let final_answer :=
    match search dotall final_answer_re text with
    | Some m => field m
    | None => EmptyString
    end in
  let current_loop :=
    foldl observation_step ∅ (finditer dotall observation_re text) in
  let current_loop :=
    foldl orientation_step current_loop (finditer dotall orientation_re text) in
  let current_loop :=
    foldl decision_step current_loop (finditer dotall decision_re text) in
  let loops :=
    (foldl action_step ([], current_loop) (finditer dotall action_re text)).1 in
  {| loops := loops; final_answer := final_answer; raw_response := text |}.

End OODAParser.

Module BDIParser.

Record result : Type := {
  cycles : list (gmap string string);
  final_answer : string;
  raw_response : string;
}.

Definition final_answer_re : regex :=
  Lit "Final Answer:" ⋅ Star Space ⋅ Group 1 (Lazy Dot) ⋅ (Eos ∣ Lit "Beliefs:").
Definition beliefs_re : regex :=
  Lit "Beliefs:" ⋅ Star Space ⋅ Group 1 (Lazy Dot)
  ⋅ (Lit "Desires:" ∣ Lit "Intentions:" ∣ Lit "Execution:" ∣ Lit "Final Answer:" ∣ Eos).
Definition desires_re : regex :=
  Lit "Desires:" ⋅ Star Space ⋅ Group 1 (Lazy Dot)
  ⋅ (Lit "Intentions:" ∣ Lit "Execution:" ∣ Lit "Beliefs:" ∣ Lit "Final Answer:" ∣ Eos).
Definition intentions_re : regex :=
  Lit "Intentions:" ⋅ Star Space ⋅ Group 1 (Lazy Dot)
  ⋅ (Lit "Execution:" ∣ Lit "Beliefs:" ∣ Lit "Desires:" ∣ Lit "Final Answer:" ∣ Eos).
Definition execution_re : regex :=
  Lit "Execution:" ⋅ Star Space ⋅ Group 1 (Lazy Dot)
  ⋅ (Lit "Beliefs:" ∣ Lit "Desires:" ∣ Lit "Intentions:" ∣ Lit "Final Answer:" ∣ Eos).

Definition beliefs_step (current_cycle : gmap string string) (m : Match)
    : gmap string string :=
  let beliefs := field m in
  if nonempty beliefs then {[ "beliefs" := beliefs ]} else current_cycle.

Definition desires_step (current_cycle : gmap string string) (m : Match)
    : gmap string string :=
  let desires := field m in
  if nonempty desires && has current_cycle "beliefs"
  then <["desires" := desires]> current_cycle else current_cycle.

Definition intentions_step (current_cycle : gmap string string) (m : Match)
    : gmap string string :=
  let intentions := field m in
  if nonempty intentions && has current_cycle "beliefs"
     && has current_cycle "desires"
  then <["intentions" := intentions]> current_cycle else current_cycle.

Definition execution_step
    (st : list (gmap string string) * gmap string string) (m : Match)
    : list (gmap string string) * gmap string string :=
  let '(cycles, current_cycle) := st in
  let execution := field m in
  if nonempty execution && has current_cycle "beliefs"
     && has current_cycle "desires" && has current_cycle "intentions"
  then (cycles ++ [<["execution" := execution]> current_cycle], ∅)
  else (cycles, current_cycle).

Definition parse (text : string) : result :=
  let final_answer :=
    match search dotall final_answer_re text with
    | Some m => field m
    | None => EmptyString
    end in
  let current_cycle := foldl beliefs_step ∅ (finditer dotall beliefs_re text) in
  let current_cycle :=
    foldl desires_step current_cycle (finditer dotall desires_re text) in
  let current_cycle :=
    foldl intentions_step current_cycle (finditer dotall intentions_re text) in
  let cycles :=
    (foldl execution_step ([], current_cycle)
       (finditer dotall execution_re text)).1 in
  {| cycles := cycles; final_answer := final_answer; raw_response := text |}.

End BDIParser.

Module LATParser.

(** The values of a tree node: the strings under [problem] and [selection],
    the list of option/evaluation dictionaries under [branches]. *)
Inductive value : Type :=
| Str (s : string)
| Branches (l : list (gmap string string)).

Record result : Type := {
  nodes : list (gmap string value);
  final_answer : string;
  raw_response : string;
}.

Definition final_answer_re : regex :=
  Lit "Final Answer:" ⋅ Star Space ⋅ Group 1 (Lazy Dot) ⋅ (Eos ∣ Lit "Problem:").
Definition problem_re : regex :=
  Lit "Problem:" ⋅ Star Space ⋅ Group 1 (Lazy Dot)
  ⋅ (Lit "Branches:" ∣ Lit "Selection:" ∣ Lit "Final Answer:" ∣ Eos).
Definition branches_re : regex :=
  Lit "Branches:" ⋅ Group 1 (Lazy Dot)
  ⋅ (Lit "Selection:" ∣ Lit "Problem:" ∣ Lit "Final Answer:" ∣ Eos).
Definition option_re : regex :=
  Lit "- Option " ⋅ Plus Digit ⋅ Lit ":" ⋅ Star Space ⋅ Group 1 (Lazy Dot)
  ⋅ (Lit "  Evaluation:" ∣ Eos).
Definition evaluation_re : regex :=
  Lit "  Evaluation:" ⋅ Star Space ⋅ Group 1 (Lazy Dot)
  ⋅ ((Lit "- Option " ⋅ Plus Digit ⋅ Lit ":") ∣ Eos).
Definition selection_re : regex :=
  Lit "Selection:" ⋅ Star Space ⋅ Group 1 (Lazy Dot)
  ⋅ (Lit "Problem:" ∣ Lit "Branches:" ∣ Lit "Final Answer:" ∣ Eos).

(** [for i in range(min(len(options), len(evaluations)))] *)
Fixpoint pair_up (options evaluations : list string) : list (gmap string string) :=
  match options, evaluations with
  | o :: options', e :: evaluations' =>
      {[ "option" := o; "evaluation" := e ]} :: pair_up options' evaluations'
  | _, _ => []
  end.

Definition problem_step (current_node : gmap string value) (m : Match)
    : gmap string value :=
  let problem := field m in
  if nonempty problem then {[ "problem" := Str problem ]} else current_node.

Definition branches_step (current_node : gmap string value) (m : Match)
    : gmap string value :=
  let branches_text := field m in
  let options := field <$> finditer dotall option_re branches_text in
  let evaluations := field <$> finditer dotall evaluation_re branches_text in
  let branches := pair_up options evaluations in
  if negb (bool_decide (branches = [])) && has current_node "problem"
  then <["branches" := Branches branches]> current_node else current_node.

Definition selection_step
    (st : list (gmap string value) * gmap string value) (m : Match)
    : list (gmap string value) * gmap string value :=
  let '(nodes, current_node) := st in
  let selection := field m in
  if nonempty selection && has current_node "problem"
     && has current_node "branches"
  then (nodes ++ [<["selection" := Str selection]> current_node], ∅)
  else (nodes, current_node).

Definition parse (text : string) : result :=
  let final_answer :=
    match search dotall final_answer_re text with
    | Some m => field m
    | None => EmptyString
    end in
  let current_node := foldl problem_step ∅ (finditer dotall problem_re text) in
  let current_node :=
    foldl branches_step current_node (finditer dotall branches_re text) in
  let nodes :=
    (foldl selection_step ([], current_node)
       (finditer dotall selection_re text)).1 in
  {| nodes := nodes; final_answer := final_answer; raw_response := text |}.

End LATParser.

(** [  Step \d+:\s*(.*?)(?:  Step \d+:|$)], shared by the last two parsers *)
Definition step_re : regex :=
  Lit "  Step " ⋅ Plus Digit ⋅ Lit ":" ⋅ Star Space ⋅ Group 1 (Lazy Dot)
  ⋅ ((Lit "  Step " ⋅ Plus Digit ⋅ Lit ":") ∣ Eos).

(** The nested dictionary with keys [raw] and [steps]. *)
Record raw_steps : Type := { raw : string; steps : list string }.

Definition parse_steps (text : string) : raw_steps :=
  {| raw := text;
     steps := if nonempty text then field <$> finditer dotall step_re text
              else [] |}.

Definition search_field (r : regex) (text : string) : string :=
  match search dotall r text with
  | Some m => field m
  | None => EmptyString
  end.

Module RAISEParser.

Record result : Type := {
  task_analysis : string;
  relevant_examples : string;
  scratch_pad : raw_steps;
  final_answer : string;
  raw_response : string;
}.

Definition task_analysis_re : regex :=
  Lit "Task Analysis:" ⋅ Star Space ⋅ Group 1 (Lazy Dot)
  ⋅ (Lit "Relevant Examples:" ∣ Lit "Scratch Pad:" ∣ Lit "Final Answer:" ∣ Eos).
Definition examples_re : regex :=
  Lit "Relevant Examples:" ⋅ Star Space ⋅ Group 1 (Lazy Dot)
  ⋅ (Lit "Scratch Pad:" ∣ Lit "Task Analysis:" ∣ Lit "Final Answer:" ∣ Eos).
Definition scratch_pad_re : regex :=
  Lit "Scratch Pad:" ⋅ Group 1 (Lazy Dot)
  ⋅ (Lit "Final Answer:" ∣ Lit "Task Analysis:" ∣ Lit "Relevant Examples:" ∣ Eos).
Definition final_answer_re : regex :=
  Lit "Final Answer:" ⋅ Star Space ⋅ Group 1 (Lazy Dot)
  ⋅ (Eos ∣ Lit "Task Analysis:" ∣ Lit "Relevant Examples:" ∣ Lit "Scratch Pad:").

Definition parse (text : string) : result :=
  {| task_analysis := search_field task_analysis_re text;
     relevant_examples := search_field examples_re text;
     scratch_pad := parse_steps (search_field scratch_pad_re text);
     final_answer := search_field final_answer_re text;
     raw_response := text |}.

End RAISEParser.

Module ReWOOParser.

Record result : Type := {
  problem_analysis : string;
  reasoning : raw_steps;
  conclusion : string;
  final_answer : string;
  raw_response : string;
}.

Definition analysis_re : regex :=
  Lit "Problem Analysis:" ⋅ Star Space ⋅ Group 1 (Lazy Dot)
  ⋅ (Lit "Reasoning:" ∣ Lit "Conclusion:" ∣ Lit "Final Answer:" ∣ Eos).
Definition reasoning_re : regex :=
  Lit "Reasoning:" ⋅ Group 1 (Lazy Dot)
  ⋅ (Lit "Conclusion:" ∣ Lit "Problem Analysis:" ∣ Lit "Final Answer:" ∣ Eos).
Definition conclusion_re : regex :=
  Lit "Conclusion:" ⋅ Star Space ⋅ Group 1 (Lazy Dot)
  ⋅ (Lit "Final Answer:" ∣ Lit "Problem Analysis:" ∣ Lit "Reasoning:" ∣ Eos).
Definition final_answer_re : regex :=
  Lit "Final Answer:" ⋅ Star Space ⋅ Group 1 (Lazy Dot)
  ⋅ (Eos ∣ Lit "Problem Analysis:" ∣ Lit "Reasoning:" ∣ Lit "Conclusion:").

Definition parse (text : string) : result :=
  {| problem_analysis := search_field analysis_re text;
     reasoning := parse_steps (search_field reasoning_re text);
     conclusion := search_field conclusion_re text;
     final_answer := search_field final_answer_re text;
     raw_response := text |}.

End ReWOOParser.

(** The six parser classes, and what [parse] returns for each. *)
Inductive BaseParser : Type :=
| ReAct | OODA | BDI | LAT | RAISE | ReWOO.

Inductive parsed : Type :=
| ReActResult (r : ReActParser.result)
| OODAResult (r : OODAParser.result)
| BDIResult (r : BDIParser.result)
| LATResult (r : LATParser.result)
| RAISEResult (r : RAISEParser.result)
| ReWOOResult (r : ReWOOParser.result).

Definition parse (p : BaseParser) (text : string) : parsed :=
  match p with
  | ReAct => ReActResult (ReActParser.parse text)
  | OODA => OODAResult (OODAParser.parse text)
  | BDI => BDIResult (BDIParser.parse text)
  | LAT => LATResult (LATParser.parse text)
  | RAISE => RAISEResult (RAISEParser.parse text)
  | ReWOO => ReWOOResult (ReWOOParser.parse text)
  end.

(** [parsed["raw_response"]] *)
Definition raw_response (r : parsed) : string :=
  match r with
  | ReActResult r => ReActParser.raw_response r
  | OODAResult r => OODAParser.raw_response r
  | BDIResult r => BDIParser.raw_response r
  | LATResult r => LATParser.raw_response r
  | RAISEResult r => RAISEParser.raw_response r
  | ReWOOResult r => ReWOOParser.raw_response r
  end.

(** The groups of a record, each reduced to the set of its field names;
    the last two parsers produce no groups. *)
Definition groups_of (r : parsed) : list (gset string) :=
  match r with
  | ReActResult r => dom <$> ReActParser.cycles r
  | OODAResult r => dom <$> OODAParser.loops r
  | BDIResult r => dom <$> BDIParser.cycles r
  | LATResult r => dom <$> LATParser.nodes r
  | RAISEResult _ | ReWOOResult _ => []
  end.

Definition parsers : list (string * BaseParser) :=
  [("react", ReAct); ("ooda", OODA); ("bdi", BDI); ("lat", LAT);
   ("raise", RAISE); ("rewoo", ReWOO)].

Definition create_parser (architecture : string) : pyexn + BaseParser :=
  match odict_get parsers (py.lower architecture) with
  | Some parser_class => inr parser_class
  | None => inl (ValueError ("Unknown architecture: " +:+ architecture))
  end.

(** The field a group needs before it can receive [key]: the grammar's
    order of the labels within one group. *)
Definition predecessors (p : BaseParser) (key : string) : list string :=
  match p with
  | ReAct =>
      if decide (key = "action") then ["thought"]
      else if decide (key = "observation") then ["thought"; "action"]
      else []
  | OODA =>
      if decide (key = "orientation") then ["observation"]
      else if decide (key = "decision") then ["observation"; "orientation"]
      else if decide (key = "action")
           then ["observation"; "orientation"; "decision"]
      else []
  | BDI =>
      if decide (key = "desires") then ["beliefs"]
      else if decide (key = "intentions") then ["beliefs"; "desires"]
      else if decide (key = "execution")
           then ["beliefs"; "desires"; "intentions"]
      else []
  | LAT =>
      if decide (key = "branches") then ["problem"]
      else if decide (key = "selection") then ["problem"; "branches"]
      else []
  | RAISE | ReWOO => []
  end.

(** A set of field names that has, with each field, the predecessors of
    that field. *)
Definition closed (p : BaseParser) (g : gset string) : Prop :=
  ∀ key, key ∈ g → ∀ q, q ∈ predecessors p key → q ∈ g.

End parser.

(** ** The Model Gateway and the monad of a run

    [generate] is opaque: the [n]-th call of a run answers [gateway n], a
    response text or an exception.  Prompts are built only to be sent to
    the gateway, so they are not modelled; every property below holds for
    every gateway.  A run threads the number of calls made so far. *)

Module llm.

Definition Gateway : Type := nat → pyexn + string.

Definition M (A : Type) : Type := Gateway → nat → (pyexn + A) * nat.

Definition ret {A : Type} (a : A) : M A := λ _ n, (inr a, n).

Definition bind {A B : Type} (m : M A) (f : A → M B) : M B :=
  λ g n, match m g n with
         | (inr a, n') => f a g n'
         | (inl e, n') => (inl e, n')
         end.

(** A gateway that answers every call. *)
Definition answers (g : Gateway) : Prop := ∀ n, ∃ r, g n = inr r.

(** [runs E g m P]: with gateway [g], from any number of earlier calls,
    [m] returns a value that satisfies [P], or raises an exception that
    satisfies [E]. *)
Definition runs {A : Type} (E : pyexn → Prop) (g : Gateway) (m : M A)
    (P : A → Prop) : Prop :=
  ∀ n, (∃ a n', m g n = (inr a, n') ∧ P a) ∨
       (∃ e n', m g n = (inl e, n') ∧ E e).

(** An exception raised by the code of the run itself. *)
Definition lift {A : Type} (r : pyexn + A) : M A := λ _ n, (r, n).

(** [_, response = self.llm_client.generate(...)] *)
Definition generate : M string := λ g n, (g n, S n).

End llm.

Declare Scope run_scope.
Delimit Scope run_scope with run.
Notation "x <- m ;; k" := (llm.bind m (λ x, k))
  (at level 20, m at level 99, k at level 200, only parsing) : run_scope.
Notation "' p <- m ;; k" := (llm.bind m (λ p, k))
  (at level 20, p pattern, m at level 99, k at level 200, only parsing)
  : run_scope.

(** ** harkaam/core/tools.py *)

(** What the capabilities and the JSON codec work on. [Value] is Python's
    [Any]; [VStr] makes a value of a string; [loads] is [json.loads] on a
    text, [dumps] is [json.dumps(value, indent=2)]. *)
Record World : Type := {
  Value : Type;
  VStr : string → Value;
  loads : string → pyexn + gmap string Value;
  dumps : Value → pyexn + string;
}.

Module tools.
Section tools.
Context {W : World}.

(** A capability. [execute] stands for [Tool.execute]: the validation of
    the parameters against the declared contract, then the call of the
    bound function; either may raise. *)
Record Tool : Type := {
  name : string;
  description : string;
  execute : gmap string (Value W) → pyexn + Value W;
}.

(** [ToolRegistry]: the last registration of a name wins. *)
Definition ToolRegistry : Type := gmap string Tool.

Definition register (r : ToolRegistry) (tool : Tool) : ToolRegistry :=
  <[name tool := tool]> r.

Definition get (r : ToolRegistry) (nm : string) : option Tool := r !! nm.

(** [next((t for t in tools if t.name.lower() == lowered), None)] *)
Fixpoint find_tool (ts : list Tool) (lowered : string) : option Tool :=
  match ts with
  | [] => None
  | t :: ts' =>
      if decide (py.lower (name t) = lowered) then Some t
      else find_tool ts' lowered
  end.

End tools.
Arguments Tool : clear implicits.
Arguments ToolRegistry : clear implicits.
End tools.

(** ** harkaam/agents/base.py *)

Module base.

(** The values found in step-trace entries and in metadata. *)
Inductive pyval : Type :=
| PStr (s : string)
| PInt (z : Z)
| PList (l : list string).

(** [AgentResult].  [final_state] is left out: [AgentState], its updates by
    [_update_state] and the verbose log lines are written by a run and never
    read by it. *)
Record AgentResult : Type := {
  agent_id : string;
  output : string;
  intermediate_steps : list (gmap string pyval);
  metadata : gmap string pyval;
}.

Definition is_linebreak (c : ascii) : bool :=
  let n := py.code c in
  ((10 <=? n) && (n <=? 13)) || ((28 <=? n) && (n <=? 30)) || (n =? 133).

(** [text.splitlines(True)]; [cur] is the line being read. *)
Fixpoint splitlines_from (s cur : string) : list string :=
  match s with
  | EmptyString => if decide (cur = EmptyString) then [] else [cur]
  | String c s' =>
      let cur' := cur +:+ String c EmptyString in
      if is_linebreak c then
        if bool_decide (c = "013"%char) && py.startswith s' (String "010"%char EmptyString)
        then splitlines_from s' cur'
        else cur' :: splitlines_from s' EmptyString
      else splitlines_from s' cur'
  end.

(** [textwrap.indent(text, prefix)] *)
Definition indent (text prefix : string) : string :=
  py.join EmptyString ((λ line, if decide (py.strip line = EmptyString) then line
                       else prefix +:+ line) <$> splitlines_from text EmptyString).

Definition newline : string := String "010"%char EmptyString.

(** The lines that [format_output] adds for one step when [verbose]. *)
Definition format_step (step : gmap string pyval) : pyexn + string :=
  match default (PStr EmptyString) (step !! "type") with
  | PStr t =>
      let step_type := py.upper t in
      let content := default (PStr EmptyString) (step !! "content") in
      let truthy := match content with
                    | PStr c => negb (bool_decide (c = EmptyString))
                    | PInt z => negb (bool_decide (z = 0%Z))
                    | PList l => negb (bool_decide (l = []))
                    end in
      if negb (bool_decide (step_type = EmptyString)) && truthy then
        match content with
        | PStr c => inr (step_type +:+ ":" +:+ newline +:+ indent c "  "
                         +:+ newline +:+ newline)
        | PList l => inr (step_type +:+ ":" +:+ newline
                          +:+ indent (py.join newline l) "  "
                          +:+ newline +:+ newline)
        | PInt _ => inl (Exception "'int' object has no attribute 'splitlines'")
        end
      else inr EmptyString
  | _ => inl (Exception "object has no attribute 'upper'")
  end.

Fixpoint format_steps (steps : list (gmap string pyval)) : pyexn + string :=
  match steps with
  | [] => inr EmptyString
  | step :: steps' =>
      match format_step step with
      | inl e => inl e
      | inr a => match format_steps steps' with
                 | inl e => inl e
                 | inr b => inr (a +:+ b)
                 end
      end
  end.

(** [str(x)] as an f-string renders a metadata value; a list does not occur
    under the key read here. *)
Definition render (v : pyval) : string :=
  match v with
  | PStr s => s
  | PInt z => py.str_of_Z z
  | PList l => "[" +:+ py.join ", " l +:+ "]"
  end.

Definition format_output (r : AgentResult) (verbose : bool) : pyexn + string :=
  match default (PStr "Agent") (metadata r !! "architecture") with
  | PStr architecture =>
      let formatted := "Result from " +:+ py.upper architecture +:+ " Agent:"
                       +:+ newline in
      let formatted := formatted +:+ py.repeat "="%char 80 +:+ newline +:+ newline in
      let formatted := formatted +:+ "ANSWER:" +:+ newline +:+ output r
                       +:+ newline +:+ newline in
      match (if verbose then
               match format_steps (intermediate_steps r) with
               | inl e => inl e
               | inr steps => inr (formatted +:+ "THINKING PROCESS:" +:+ newline
                                   +:+ py.repeat "-"%char 40 +:+ newline +:+ steps)
               end
             else inr formatted) with
      | inl e => inl e
      | inr formatted =>
          let formatted := formatted +:+ py.repeat "-"%char 40 +:+ newline in
          inr (formatted +:+ "Iterations: "
               +:+ render (default (PInt 0) (metadata r !! "iterations"))
               +:+ newline)
      end
  | _ => inl (Exception "object has no attribute 'upper'")
  end.

(** The keyword arguments of [run]: [format_output], and the [context] that
    the workflow passes on to [execute]. *)
Record RunKwargs {W : World} : Type := {
  kw_format_output : option bool;
  kw_context : option (gmap string (Value W));
}.
Arguments RunKwargs : clear implicits.

(** [Union[AgentResult, str]] *)
Inductive RunResult : Type :=
| Formatted (text : string)
| Unformatted (r : AgentResult).

(** [BaseAgent.run]; [execute] is the abstract method, [verbose] is
    [self.config.verbose]. *)
Definition run {W : World}
    (execute : string → option (gmap string (Value W)) → llm.M AgentResult)
    (verbose : bool) (task : string) (kwargs : RunKwargs W) : llm.M RunResult :=
  (let format_output := default true (kw_format_output kwargs) in
   result <- execute task (kw_context kwargs) ;;
   if format_output
   then text <- llm.lift (base.format_output result verbose) ;;
        llm.ret (Formatted text)
   else llm.ret (Unformatted result))%run.

(** The completion test shared by the termination-check stages: [yes] or
    [complete] occurs in [response.lower()[:100]]. *)
Definition says_complete (response : string) : bool :=
  py.contains (py.take 100 (py.lower response)) "yes"
  || py.contains (py.take 100 (py.lower response)) "complete".

(** The pattern that looks for the final-answer marker: the words
    [final answer], an optional colon, then group 1, the rest of the text. *)
Definition final_answer_re : re.regex :=
  (re.Lit "final answer" ⋅ re.Opt (re.Lit ":") ⋅ re.Group 1 (re.Star re.Dot))%re.

(** [rest], without the colon it may start with. *)
Definition drop_colon (rest : string) : string :=
  match rest with
  | String ":" rest' => rest'
  | _ => rest
  end.

(** The rest of a termination-check stage, after the gateway has answered:
    the pair [(is_complete, final_answer)]. *)
Definition completion_of (response : string) : bool * string :=
  let is_complete := says_complete response in
  let final_answer := py.strip response in
  let final_answer :=
    if is_complete then
      match re.search re.ignorecase_dotall final_answer_re final_answer with
      | Some m => py.strip (re.group m 1)
      | None => final_answer
      end
    else final_answer in
  (is_complete, final_answer).

(** The tool pattern of the OODA, BDI and RAISE agents: an optional [use],
    the tool name (group 1), an optional separator, white space, and the
    rest of the line (group 2). *)
Definition tool_pattern : re.regex :=
  (re.Opt (re.Lit "use" ⋅ re.Plus re.Space) ⋅ re.Group 1 (re.Plus re.Word)
   ⋅ re.Opt (re.Lit ":" ∣ re.Lit "," ∣ (re.Plus re.Space ⋅ re.Lit "with")
             ∣ (re.Opt (re.Lit ",") ⋅ re.Plus re.Space))
   ⋅ re.Plus re.Space ⋅ re.Group 2 (re.Star re.Dot))%re.

Definition not_completed : string :=
  "Task not completed within maximum iterations. ".

(** A step-trace entry [{"type": t, "content": c}] *)
Definition step (t c : string) : gmap string pyval :=
  {[ "type" := PStr t; "content" := PStr c ]}.

End base.

(** Sequencing of calls that may raise, outside the gateway monad. *)
Definition exn_bind {A B : Type} (r : pyexn + A) (k : A → pyexn + B) : pyexn + B :=
  match r with
  | inl e => inl e
  | inr a => k a
  end.
Notation "x <-? r ;; k" := (exn_bind r (λ x, k))
  (at level 20, r at level 99, k at level 200, only parsing) : run_scope.

(** ** harkaam/agents/react.py *)

Module react.
Import re base llm.
Section react.
Context {W : World}.
Local Open Scope run_scope.
Local Open Scope re_scope.

(** The attributes of a [ReActAgent] that its run reads. *)
Record ReActAgent : Type := {
  id : string;
  verbose : bool;
  max_iterations : Z;
  tools : list (tools.Tool W);
}.

(** The dictionary built by [_set_up_initial_context]; [extra] holds the
    caller's keys, those that do not overwrite a key of the agent. *)
Record Context : Type := {
  task : string;
  thoughts : list string;
  actions : list string;
  observations : list string;
  available_tools : list string;
  extra : gmap string (Value W);
}.

Definition own_keys : list string :=
  ["task"; "thoughts"; "actions"; "observations"; "available_tools";
   "tool_descriptions"].

Definition _set_up_initial_context (self : ReActAgent) (task : string)
    (context : option (gmap string (Value W))) : Context :=
  {| task := task; thoughts := []; actions := []; observations := [];
     available_tools := tools.name <$> tools self;
     extra := filter (λ kv, kv.1 ∉ own_keys) (default ∅ context) |}.

(** The rest of [_get_next_step], after the gateway has answered: the
    dictionary with the thought and action of the last parsed cycle and the
    final answer, or with the whole response as the thought. *)
Definition next_step_of (response : string) : gmap string string :=
  let parsed_response := parser.ReActParser.parse response in
  let result : gmap string string := ∅ in
  let result :=
    match last (parser.ReActParser.cycles parsed_response) with
    | Some last_cycle =>
        let result := match last_cycle !! "thought" with
                      | Some t => <["thought" := t]> result
                      | None => result
                      end in
        match last_cycle !! "action" with
        | Some a => <["action" := a]> result
        | None => result
        end
    | None => result
    end in
  let result :=
    if parser.nonempty (parser.ReActParser.final_answer parsed_response)
    then <["final_answer" := parser.ReActParser.final_answer parsed_response]> result
    else result in
  if parser.nonempty_dict result then result
  else <["thought" := response]> result.

Definition _get_next_step (self : ReActAgent) (context : Context)
    : M (gmap string string) :=
  response <- generate ;; ret (next_step_of response).

(** The pattern for an explicit tool use: [use], the tool name (group 1),
    an optional colon, comma or [with], white space, the input (group 2). *)
Definition tool_re : regex :=
  Lit "use " ⋅ Group 1 (Plus Word)
  ⋅ Opt (Lit ":" ∣ Lit "," ∣ (Plus Space ⋅ Lit "with"))
  ⋅ Plus Space ⋅ Group 2 (Star Dot).

(** The pattern for a search: [search], an optional colon, comma or [for],
    white space, the query (group 1). *)
Definition search_re : regex :=
  Lit "search" ⋅ Opt (Lit ":" ∣ Lit "," ∣ (Plus Space ⋅ Lit "for"))
  ⋅ Plus Space ⋅ Group 1 (Star Dot).

(** The parameters of a tool call: the decoded JSON object when the input
    looks like one and decodes, the single parameter [query] otherwise. *)
Definition tool_parameters (tool_input : string)
    : pyexn + gmap string (Value W) :=
  if py.startswith tool_input "{" && py.endswith tool_input "}" then
    match loads W tool_input with
    | inl (JSONDecodeError _) => inr {[ "query" := VStr W tool_input ]}
    | other => other
    end
  else inr {[ "query" := VStr W tool_input ]}.

(** The body of the [try] block of [_execute_action]. *)
Definition attempt_action (self : ReActAgent) (action : string) : pyexn + string :=
  match search ignorecase tool_re action with
  | Some tool_match =>
      let tool_name := py.strip (group tool_match 1) in
      let tool_input := py.strip (group tool_match 2) in
      parameters <-? tool_parameters tool_input ;;
      if bool_decide (py.lower tool_name
                      ∈ (λ t, py.lower (tools.name t)) <$> tools self)
      then
        match tools.find_tool (tools self) (py.lower tool_name) with
        | Some tool =>
            result <-? tools.execute tool parameters ;;
            text <-? dumps W result ;;
            inr ("Tool '" +:+ tool_name +:+ "' returned: " +:+ text)
        | None => inl (Exception "'NoneType' object has no attribute 'execute'")
        end
      else
        inr ("Error: Tool '" +:+ tool_name +:+ "' not found. Available tools: "
             +:+ py.join ", " (tools.name <$> tools self))
  | None =>
      match search ignorecase search_re action with
      | Some search_match =>
          let search_query := py.strip (group search_match 1) in
          match tools.find_tool (tools self) "search" with
          | Some search_tool =>
              result <-? tools.execute search_tool
                           {[ "query" := VStr W search_query ]} ;;
              text <-? dumps W result ;;
              inr ("Search results for '" +:+ search_query +:+ "': " +:+ text)
          | None => inr "Error: No search tool available."
          end
      | None =>
          inr ("Action '" +:+ action +:+ "' was taken, but no specific tool was utilized. Please use a tool if you need to retrieve information.")
      end
  end.

(** [_execute_action]: the [try] block, and its [except Exception]. *)
Definition _execute_action (self : ReActAgent) (action : string) : string :=
  match attempt_action self action with
  | inr observation => observation
  | inl e => "Error executing action: " +:+ exn_str e
  end.

Definition _generate_partial_answer (self : ReActAgent) (context : Context)
    : M string :=
  response <- generate ;; ret response.

(** The local variables of [execute] that the loop updates. *)
Record LoopState : Type := {
  context : Context;
  iterations : Z;
  is_done : bool;
  final_answer : string;
  intermediate_steps : list (gmap string pyval);
}.

(** The three [if] blocks of the loop body: record the thought; act and
    record the action with its observation; take the final answer. *)
Definition think (st : LoopState) (next_step : gmap string string)
    : Context * list (gmap string pyval) :=
  match next_step !! "thought" with
  | Some thought =>
      if parser.nonempty thought then
        ({| task := task (context st);
            thoughts := thoughts (context st) ++ [thought];
            actions := actions (context st);
            observations := observations (context st);
            available_tools := available_tools (context st);
            extra := extra (context st) |},
         intermediate_steps st ++ [step "thought" thought])
      else (context st, intermediate_steps st)
  | None => (context st, intermediate_steps st)
  end.

Definition act (self : ReActAgent)
    (sofar : Context * list (gmap string pyval))
    (next_step : gmap string string) : Context * list (gmap string pyval) :=
  match next_step !! "action" with
  | Some action =>
      if parser.nonempty action then
        let observation := _execute_action self action in
        ({| task := task sofar.1;
            thoughts := thoughts sofar.1;
            actions := actions sofar.1 ++ [action];
            observations := observations sofar.1 ++ [observation];
            available_tools := available_tools sofar.1;
            extra := extra sofar.1 |},
         sofar.2 ++ [ <["observation" := PStr observation]> (step "action" action) ])
      else sofar
  | None => sofar
  end.

Definition conclude (st : LoopState) (next_step : gmap string string)
    : bool * string :=
  match next_step !! "final_answer" with
  | Some answer =>
      if parser.nonempty answer then (true, answer)
      else (is_done st, final_answer st)
  | None => (is_done st, final_answer st)
  end.

(** One pass through the body of the main loop. *)
Definition iteration (self : ReActAgent) (st : LoopState) : M LoopState :=
  next_step <- _get_next_step self (context st) ;;
  let acted := act self (think st next_step) next_step in
  let concluded := conclude st next_step in
  ret {| context := acted.1; iterations := (iterations st + 1)%Z;
         is_done := concluded.1; final_answer := concluded.2;
         intermediate_steps := acted.2 |}.

(** [while not is_done and iterations < self.max_iterations]: [iterations]
    starts at 0 and grows by one with each pass, so [remaining] is
    [max_iterations - iterations]. *)
Fixpoint main_loop (self : ReActAgent) (remaining : nat) (st : LoopState)
    : M LoopState :=
  if is_done st then ret st
  else match remaining with
       | 0 => ret st
       | S remaining' =>
           st' <- iteration self st ;; main_loop self remaining' st'
       end.

Definition execute (self : ReActAgent) (task : string)
    (context : option (gmap string (Value W))) : M AgentResult :=
  let context := _set_up_initial_context self task context in
  st <- main_loop self (Z.to_nat (max_iterations self))
          {| context := context; iterations := 0; is_done := false;
             final_answer := EmptyString; intermediate_steps := [] |} ;;
  final_answer <-
    (if is_done st then ret (final_answer st)
     else partial <- _generate_partial_answer self (react.context st) ;;
          ret (not_completed +:+ partial)) ;;
  ret {| agent_id := id self; output := final_answer;
         base.intermediate_steps := intermediate_steps st;
         metadata := {[ "architecture" := PStr "react";
                        "iterations" := PInt (iterations st) ]} |}.

End react.
Arguments ReActAgent : clear implicits.
End react.

(** ** harkaam/agents/ooda.py *)

Module ooda.
Import re base llm.
Section ooda.
Context {W : World}.
Local Open Scope run_scope.
Local Open Scope re_scope.

Record OODAAgent : Type := {
  id : string;
  verbose : bool;
  max_iterations : Z;
  tools : list (tools.Tool W);
}.

Record Context : Type := {
  task : string;
  observations : list string;
  orientations : list string;
  decisions : list string;
  actions : list string;
  available_tools : list string;
  extra : gmap string (Value W);
}.

Definition own_keys : list string :=
  ["task"; "observations"; "orientations"; "decisions"; "actions";
   "available_tools"; "tool_descriptions"].

Definition _initialize_context (self : OODAAgent) (task : string)
    (context : option (gmap string (Value W))) : Context :=
  {| task := task; observations := []; orientations := []; decisions := [];
     actions := []; available_tools := tools.name <$> tools self;
     extra := filter (λ kv, kv.1 ∉ own_keys) (default ∅ context) |}.

(** The fallback patterns of [_extract_content], by stage. *)
Definition stage_patterns : list (string * regex) :=
  [("observation", Lit "Observation" ⋅ Opt (Lit "s") ⋅ Lit ":" ⋅ Star Space
                   ⋅ Group 1 (Lazy Dot) ⋅ (Lit "Orientation:" ∣ Eos));
   ("orientation", Lit "Orientation" ⋅ Opt (Lit "s") ⋅ Lit ":" ⋅ Star Space
                   ⋅ Group 1 (Lazy Dot) ⋅ (Lit "Decision:" ∣ Eos));
   ("decision", Lit "Decision" ⋅ Opt (Lit "s") ⋅ Lit ":" ⋅ Star Space
                ⋅ Group 1 (Lazy Dot) ⋅ (Lit "Action:" ∣ Eos));
   ("action", Lit "Action" ⋅ Opt (Lit "s") ⋅ Lit ":" ⋅ Star Space
              ⋅ Group 1 (Lazy Dot) ⋅ Eos)].

(** [for loop in parsed["loops"]: if stage in loop: content = loop[stage];
    break] *)
Fixpoint first_with (groups : list (gmap string string)) (key : string) : string :=
  match groups with
  | [] => EmptyString
  | g :: groups' =>
      match g !! key with
      | Some v => v
      | None => first_with groups' key
      end
  end.

Definition _extract_content (response stage : string) : string :=
  let parsed := parser.OODAParser.parse response in
  let content := first_with (parser.OODAParser.loops parsed) stage in
  let content :=
    if parser.nonempty content then content
    else match odict_get stage_patterns stage with
         | Some pattern =>
             match search dotall pattern (parser.OODAParser.raw_response parsed) with
             | Some m => py.strip (group m 1)
             | None => content
             end
         | None => content
         end in
  if parser.nonempty content then content else response.

Definition _process_stage (self : OODAAgent) (context : Context)
    (stage : string) : M string :=
  response <- generate ;; ret (_extract_content response stage).

Definition _execute_action (self : OODAAgent) (context : Context) : string :=
  let decision := default EmptyString (last (decisions context)) in
  match search ignorecase tool_pattern decision with
  | Some m =>
      let tool_name := py.lower (py.strip (group m 1)) in
      let parameter := py.strip (group m 2) in
      match tools.find_tool (tools self) tool_name with
      | Some tool =>
          match (result <-? tools.execute tool {[ "query" := VStr W parameter ]} ;;
                 dumps W result) with
          | inr text =>
              "Action result: Used " +:+ tools.name tool +:+ " with parameter '"
              +:+ parameter +:+ "' and got: " +:+ text
          | inl e =>
              "Error executing tool " +:+ tools.name tool +:+ ": " +:+ exn_str e
          end
      | None =>
          "Could not find tool '" +:+ tool_name +:+ "'. Available tools: "
          +:+ py.join ", " (available_tools context)
      end
  | None => "Action taken based on decision: " +:+ decision
  end.

Definition _check_completion (self : OODAAgent) (context : Context)
    : M (bool * string) :=
  response <- generate ;; ret (completion_of response).

Definition _generate_partial_answer (self : OODAAgent) (context : Context)
    : M string :=
  response <- generate ;; ret response.

Record LoopState : Type := {
  context : Context;
  iterations : Z;
  is_done : bool;
  final_answer : string;
  intermediate_steps : list (gmap string pyval);
}.

Definition iteration (self : OODAAgent) (st : LoopState) : M LoopState :=
  let iterations := (iterations st + 1)%Z in
  let context := context st in
  observation <- _process_stage self context "observation" ;;
  let context :=
    {| task := task context; observations := observations context ++ [observation];
       orientations := orientations context; decisions := decisions context;
       actions := actions context; available_tools := available_tools context;
       extra := extra context |} in
  orientation <- _process_stage self context "orientation" ;;
  let context :=
    {| task := task context; observations := observations context;
       orientations := orientations context ++ [orientation];
       decisions := decisions context;
       actions := actions context; available_tools := available_tools context;
       extra := extra context |} in
  decision <- _process_stage self context "decision" ;;
  let context :=
    {| task := task context; observations := observations context;
       orientations := orientations context;
       decisions := decisions context ++ [decision];
       actions := actions context; available_tools := available_tools context;
       extra := extra context |} in
  let action_result := _execute_action self context in
  let context :=
    {| task := task context; observations := observations context;
       orientations := orientations context; decisions := decisions context;
       actions := actions context ++ [action_result];
       available_tools := available_tools context;
       extra := extra context |} in
  completion <- _check_completion self context ;;
  ret {| context := context; iterations := iterations;
         is_done := completion.1; final_answer := completion.2;
         intermediate_steps :=
           intermediate_steps st
           ++ [step "observation" observation; step "orientation" orientation;
               step "decision" decision; step "action" action_result] |}.

Fixpoint main_loop (self : OODAAgent) (remaining : nat) (st : LoopState)
    : M LoopState :=
  if is_done st then ret st
  else match remaining with
       | 0 => ret st
       | S remaining' =>
           st' <- iteration self st ;; main_loop self remaining' st'
       end.

Definition execute (self : OODAAgent) (task : string)
    (context : option (gmap string (Value W))) : M AgentResult :=
  let context := _initialize_context self task context in
  st <- main_loop self (Z.to_nat (max_iterations self))
          {| context := context; iterations := 0; is_done := false;
             final_answer := EmptyString; intermediate_steps := [] |} ;;
  final_answer <-
    (if is_done st then ret (final_answer st)
     else partial <- _generate_partial_answer self (ooda.context st) ;;
          ret (not_completed +:+ partial)) ;;
  ret {| agent_id := id self; output := final_answer;
         base.intermediate_steps := intermediate_steps st;
         metadata := {[ "architecture" := PStr "ooda";
                        "iterations" := PInt (iterations st) ]} |}.

End ooda.
Arguments OODAAgent : clear implicits.
End ooda.

(** ** harkaam/agents/bdi.py *)

Module bdi.
Import re base llm.
Section bdi.
Context {W : World}.
Local Open Scope run_scope.
Local Open Scope re_scope.

Record BDIAgent : Type := {
  id : string;
  verbose : bool;
  max_iterations : Z;
  tools : list (tools.Tool W);
}.

Record Context : Type := {
  task : string;
  beliefs : list string;
  desires : list string;
  intentions : list string;
  selected_actions : list string;
  actions_results : list string;
  available_tools : list string;
  extra : gmap string (Value W);
}.

Definition own_keys : list string :=
  ["task"; "beliefs"; "desires"; "intentions"; "selected_actions";
   "actions_results"; "available_tools"; "tool_descriptions"].

Definition _initialize_context (self : BDIAgent) (task : string)
    (context : option (gmap string (Value W))) : Context :=
  {| task := task; beliefs := []; desires := []; intentions := [];
     selected_actions := []; actions_results := [];
     available_tools := tools.name <$> tools self;
     extra := filter (λ kv, kv.1 ∉ own_keys) (default ∅ context) |}.

(** The fallback patterns of [_extract_section], by section type. *)
Definition patterns : list (string * regex) :=
  [("beliefs", Lit "Belief" ⋅ Opt (Lit "s") ⋅ Lit ":" ⋅ Star Space
               ⋅ Group 1 (Lazy Dot)
               ⋅ (Lit "Desire" ∣ Lit "Intention" ∣ Lit "Action" ∣ Eos));
   ("desires", Lit "Desire" ⋅ Opt (Lit "s") ⋅ Lit ":" ⋅ Star Space
               ⋅ Group 1 (Lazy Dot) ⋅ (Lit "Intention" ∣ Lit "Action" ∣ Eos));
   ("intentions", Lit "Intention" ⋅ Opt (Lit "s") ⋅ Lit ":" ⋅ Star Space
                  ⋅ Group 1 (Lazy Dot) ⋅ (Lit "Act" ∣ Lit "Execution" ∣ Eos));
   ("actions", Lit "Action" ⋅ Opt (Lit "s") ⋅ Lit ":" ⋅ Star Space
               ⋅ Group 1 (Lazy Dot) ⋅ Eos)].

Definition _extract_section (response section_type : string) : string :=
  let parsed := parser.BDIParser.parse response in
  let section_content :=
    ooda.first_with (parser.BDIParser.cycles parsed) section_type in
  let section_content :=
    if parser.nonempty section_content then section_content
    else match odict_get patterns section_type with
         | Some pattern =>
             match search dotall pattern (parser.BDIParser.raw_response parsed) with
             | Some m => py.strip (group m 1)
             | None => parser.BDIParser.raw_response parsed
             end
         | None => section_content
         end in
  if parser.nonempty section_content then section_content else response.

(** [_update_beliefs], [_generate_desires], [_filter_to_intentions] and
    [_select_actions] differ in their prompts and in the section they
    extract. *)
Definition _update_beliefs (self : BDIAgent) (context : Context) : M string :=
  response <- generate ;; ret (_extract_section response "beliefs").
Definition _generate_desires (self : BDIAgent) (context : Context) : M string :=
  response <- generate ;; ret (_extract_section response "desires").
Definition _filter_to_intentions (self : BDIAgent) (context : Context) : M string :=
  response <- generate ;; ret (_extract_section response "intentions").
Definition _select_actions (self : BDIAgent) (context : Context) : M string :=
  response <- generate ;; ret (_extract_section response "actions").

Definition _execute_actions (self : BDIAgent) (context : Context) : string :=
  let actions := default EmptyString (last (selected_actions context)) in
  match search ignorecase tool_pattern actions with
  | Some m =>
      let tool_name := py.lower (py.strip (group m 1)) in
      let parameter := py.strip (group m 2) in
      match tools.find_tool (tools self) tool_name with
      | Some tool =>
          match (result <-? tools.execute tool {[ "query" := VStr W parameter ]} ;;
                 dumps W result) with
          | inr text =>
              "Action result: Used " +:+ tools.name tool +:+ " with parameter '"
              +:+ parameter +:+ "' and got: " +:+ text
          | inl e =>
              "Error executing tool " +:+ tools.name tool +:+ ": " +:+ exn_str e
          end
      | None => "Could not find tool '" +:+ tool_name +:+ "'."
      end
  | None => "Actions performed: " +:+ actions +:+ " (no specific tool used)"
  end.

Definition _check_completion (self : BDIAgent) (context : Context)
    : M (bool * string) :=
  response <- generate ;; ret (completion_of response).

Definition _generate_partial_answer (self : BDIAgent) (context : Context)
    : M string :=
  response <- generate ;; ret (not_completed +:+ response).

Record LoopState : Type := {
  context : Context;
  iterations : Z;
  is_done : bool;
  final_answer : string;
  intermediate_steps : list (gmap string pyval);
}.

Definition iteration (self : BDIAgent) (st : LoopState) : M LoopState :=
  let iterations := (iterations st + 1)%Z in
  let context := context st in
  new_beliefs <- _update_beliefs self context ;;
  let context :=
    {| task := task context; beliefs := beliefs context ++ [new_beliefs];
       desires := desires context; intentions := intentions context;
       selected_actions := selected_actions context;
       actions_results := actions_results context;
       available_tools := available_tools context; extra := extra context |} in
  new_desires <- _generate_desires self context ;;
  let context :=
    {| task := task context; beliefs := beliefs context;
       desires := desires context ++ [new_desires];
       intentions := intentions context;
       selected_actions := selected_actions context;
       actions_results := actions_results context;
       available_tools := available_tools context; extra := extra context |} in
  new_intentions <- _filter_to_intentions self context ;;
  let context :=
    {| task := task context; beliefs := beliefs context;
       desires := desires context;
       intentions := intentions context ++ [new_intentions];
       selected_actions := selected_actions context;
       actions_results := actions_results context;
       available_tools := available_tools context; extra := extra context |} in
  actions <- _select_actions self context ;;
  let context :=
    {| task := task context; beliefs := beliefs context;
       desires := desires context; intentions := intentions context;
       selected_actions := selected_actions context ++ [actions];
       actions_results := actions_results context;
       available_tools := available_tools context; extra := extra context |} in
  let action_results := _execute_actions self context in
  let context :=
    {| task := task context; beliefs := beliefs context;
       desires := desires context; intentions := intentions context;
       selected_actions := selected_actions context;
       actions_results := actions_results context ++ [action_results];
       available_tools := available_tools context; extra := extra context |} in
  completion <- _check_completion self context ;;
  ret {| context := context; iterations := iterations;
         is_done := completion.1; final_answer := completion.2;
         intermediate_steps :=
           intermediate_steps st
           ++ [step "beliefs" new_beliefs; step "desires" new_desires;
               step "intentions" new_intentions; step "actions" actions;
               step "results" action_results] |}.

Fixpoint main_loop (self : BDIAgent) (remaining : nat) (st : LoopState)
    : M LoopState :=
  if is_done st then ret st
  else match remaining with
       | 0 => ret st
       | S remaining' =>
           st' <- iteration self st ;; main_loop self remaining' st'
       end.

Definition execute (self : BDIAgent) (task : string)
    (context : option (gmap string (Value W))) : M AgentResult :=
  let context := _initialize_context self task context in
  st <- main_loop self (Z.to_nat (max_iterations self))
          {| context := context; iterations := 0; is_done := false;
             final_answer := EmptyString; intermediate_steps := [] |} ;;
  final_answer <-
    (if is_done st then ret (final_answer st)
     else _generate_partial_answer self (bdi.context st)) ;;
  ret {| agent_id := id self; output := final_answer;
         base.intermediate_steps := intermediate_steps st;
         metadata := {[ "architecture" := PStr "bdi";
                        "iterations" := PInt (iterations st) ]} |}.

End bdi.
Arguments BDIAgent : clear implicits.
End bdi.

(** ** harkaam/agents/raise_agent.py *)

Module raise_agent.
Import re base llm.
Section raise_agent.
Context {W : World}.
Local Open Scope run_scope.
Local Open Scope re_scope.

Record RAISEAgent : Type := {
  id : string;
  verbose : bool;
  max_iterations : Z;
  examples : list string;
  tools : list (tools.Tool W);
}.

(** [{tool.name: tool.description for tool in self.tools}] *)
Definition tool_descriptions (ts : list (tools.Tool W)) : odict string :=
  foldl (λ d t, odict_set d (tools.name t) (tools.description t)) [] ts.

Record Context : Type := {
  task : string;
  available_tools : list string;
  scratch_pad : option string;
  tool_results : option string;
  extra : gmap string (Value W);
}.

Definition own_keys : list string :=
  ["task"; "available_tools"; "tool_descriptions"; "examples"].

Definition _initialize_context (self : RAISEAgent) (task : string)
    (context : option (gmap string (Value W))) : Context :=
  {| task := task; available_tools := tools.name <$> tools self;
     scratch_pad := None; tool_results := None;
     extra := filter (λ kv, kv.1 ∉ own_keys) (default ∅ context) |}.

Definition _generate_llm_step (self : RAISEAgent) (context : Context)
    (step_name : string) : M string :=
  response <- generate ;; ret response.

(** [updated_pad.strip().startswith("#") or "Scratch Pad" in updated_pad] *)
Definition looks_like_pad (text : string) : bool :=
  py.startswith (py.strip text) "#" || py.contains text "Scratch Pad".

Definition basic_pad (self : RAISEAgent) (context : Context) : string :=
  let pad := "# Scratch Pad for: " +:+ task context +:+ newline +:+ newline in
  let pad := pad +:+ "## Initial Context" +:+ newline in
  let pad := pad +:+ "Task: " +:+ task context +:+ newline +:+ newline in
  if bool_decide (available_tools context = []) then pad
  else foldl (λ pad kv, pad +:+ "- " +:+ kv.1 +:+ ": " +:+ kv.2 +:+ newline)
         (pad +:+ newline +:+ "## Available Tools" +:+ newline)
         (tool_descriptions (tools self)).

Definition _initialize_scratch_pad (self : RAISEAgent) (context : Context)
    : M string :=
  response <- _generate_llm_step self context "scratch_pad_init" ;;
  if negb (py.contains response "Scratch Pad")
     && negb (py.startswith (py.strip response) "#")
  then ret (basic_pad self context)
  else ret response.

(** [_update_scratch_pad].  The callers pass section names made of
    letters and blanks, so the compiled pattern is the header as a literal.
    The header is looked for without regard to letter case, then the pad is
    split at the header as written; [parts[1]] raises when the pad has the
    header in another case only. *)
Definition _update_scratch_pad (scratch_pad section content : string)
    : pyexn + string :=
  let header := "## " +:+ section +:+ newline in
  match search ignorecase (Lit header) scratch_pad with
  | Some _ =>
      match py.split_once scratch_pad header with
      | (before, Some after) =>
          match py.split_once after (newline +:+ "##") with
          | (_, Some following) =>
              inr (before +:+ header +:+ content +:+ newline +:+ newline
                   +:+ "##" +:+ following)
          | (_, None) =>
              inr (before +:+ header +:+ content +:+ newline +:+ newline)
          end
      | (_, None) => inl (IndexError "list index out of range")
      end
  | None =>
      inr (scratch_pad +:+ newline +:+ newline +:+ header +:+ content +:+ newline)
  end.

Definition _should_use_tools (self : RAISEAgent) (context : Context) : M bool :=
  if bool_decide (tools self = []) then ret false
  else response <- generate ;;
       ret (py.contains (py.take 100 (py.lower response)) "yes").

Definition _use_tools (self : RAISEAgent) (context : Context) : M string :=
  response <- generate ;;
  match search ignorecase tool_pattern response with
  | Some m =>
      let tool_name := py.lower (py.strip (group m 1)) in
      let parameter := py.strip (group m 2) in
      match tools.find_tool (tools self) tool_name with
      | Some tool =>
          match (result <-? tools.execute tool {[ "query" := VStr W parameter ]} ;;
                 dumps W result) with
          | inr text =>
              ret ("Used " +:+ tools.name tool +:+ " with parameter '"
                   +:+ parameter +:+ "' and got: " +:+ text)
          | inl e =>
              ret ("Error executing tool " +:+ tools.name tool +:+ ": "
                   +:+ exn_str e)
          end
      | None =>
          ret ("Could not find tool '" +:+ tool_name +:+ "'. Available tools: "
               +:+ py.join ", " (available_tools context))
      end
  | None => ret ("Unclear tool usage in response: " +:+ response)
  end.

Definition _check_completion (self : RAISEAgent) (context : Context)
    : M (bool * string) :=
  response <- generate ;; ret (completion_of response).

Definition _generate_partial_answer (self : RAISEAgent) (context : Context)
    : M string :=
  response <- generate ;; ret response.

(** The gateway calls of one iteration that uses no tool: the question
    whether to use tools is asked only when the agent has tools. *)
Definition iteration_calls (self : RAISEAgent) : nat :=
  if bool_decide (tools self = []) then 4 else 5.

Record LoopState : Type := {
  context : Context;
  pad : string;
  iterations : Z;
  is_done : bool;
  final_answer : string;
  intermediate_steps : list (gmap string pyval);
}.

(** [context["scratch_pad"] = scratch_pad] *)
Definition with_pad (context : Context) (scratch_pad : string) : Context :=
  {| task := task context; available_tools := available_tools context;
     scratch_pad := Some scratch_pad; tool_results := tool_results context;
     extra := extra context |}.

Definition iteration (self : RAISEAgent) (st : LoopState) : M LoopState :=
  let iterations := (iterations st + 1)%Z in
  let context := context st in
  let scratch_pad := pad st in
  let steps := intermediate_steps st in
  new_examples <- _generate_llm_step self context "examples" ;;
  scratch_pad <- lift (_update_scratch_pad scratch_pad "Examples" new_examples) ;;
  let context := with_pad context scratch_pad in
  let steps := steps ++ [step "examples" new_examples] in
  thoughts <- _generate_llm_step self context "thoughts" ;;
  scratch_pad <- lift (_update_scratch_pad scratch_pad "Thoughts" thoughts) ;;
  let context := with_pad context scratch_pad in
  let steps := steps ++ [step "thoughts" thoughts] in
  should_use_tools <- _should_use_tools self context ;;
  '(context, scratch_pad, steps) <-
    (if should_use_tools : bool then
       results <- _use_tools self context ;;
       scratch_pad <- lift (_update_scratch_pad scratch_pad "Tool Results" results) ;;
       let context :=
         {| task := task context; available_tools := available_tools context;
            scratch_pad := Some scratch_pad; tool_results := Some results;
            extra := extra context |} in
       let steps := steps ++ [step "tool_results" results] in
       observations <- _generate_llm_step self context "observations" ;;
       scratch_pad <-
         lift (_update_scratch_pad scratch_pad "Observations" observations) ;;
       let context := with_pad context scratch_pad in
       ret (context, scratch_pad, steps ++ [step "observations" observations])
     else ret (context, scratch_pad, steps)) ;;
  updated_pad <- _generate_llm_step self context "working_memory" ;;
  scratch_pad <-
    (if looks_like_pad updated_pad then ret updated_pad
     else lift (_update_scratch_pad scratch_pad "Progress Summary" updated_pad)) ;;
  let context := with_pad context scratch_pad in
  completion <- _check_completion self context ;;
  ret {| context := context; pad := scratch_pad; iterations := iterations;
         is_done := completion.1; final_answer := completion.2;
         intermediate_steps := steps |}.

Fixpoint main_loop (self : RAISEAgent) (remaining : nat) (st : LoopState)
    : M LoopState :=
  if is_done st then ret st
  else match remaining with
       | 0 => ret st
       | S remaining' =>
           st' <- iteration self st ;; main_loop self remaining' st'
       end.

Definition execute (self : RAISEAgent) (task : string)
    (context : option (gmap string (Value W))) : M AgentResult :=
  let context := _initialize_context self task context in
  scratch_pad <- _initialize_scratch_pad self context ;;
  let context := with_pad context scratch_pad in
  st <- main_loop self (Z.to_nat (max_iterations self))
          {| context := context; pad := scratch_pad; iterations := 0;
             is_done := false; final_answer := EmptyString; intermediate_steps := [] |} ;;
  final_answer <-
    (if is_done st then ret (final_answer st)
     else partial <- _generate_partial_answer self (raise_agent.context st) ;;
          ret (not_completed +:+ partial)) ;;
  ret {| agent_id := id self; output := final_answer;
         base.intermediate_steps := intermediate_steps st;
         metadata := {[ "architecture" := PStr "raise";
                        "iterations" := PInt (iterations st);
                        "scratch_pad" := PStr (pad st) ]} |}.

End raise_agent.
Arguments RAISEAgent : clear implicits.
End raise_agent.

(** ** harkaam/agents/lat.py *)

Module lat.
Import re base llm.
Section lat.
Context {W : World}.
Local Open Scope run_scope.

Record LATAgent : Type := {
  id : string;
  verbose : bool;
  max_depth : Z;
  max_branches : Z;
  search_strategy : string;
  tools : list (tools.Tool W);
}.

Definition _generate_llm_response (self : LATAgent) (stage : string) : M string :=
  response <- generate ;; ret response.

Definition _need_simulation (self : LATAgent) (selected_node : string) : M bool :=
  response <- generate ;;
  ret (py.contains (py.take 100 (py.lower response)) "yes").

Definition _process_simulation (self : LATAgent)
    (selected_node simulation_results : string) : M string :=
  response <- generate ;; ret response.

Definition _is_terminal_state (self : LATAgent) (node : string) : M bool :=
  response <- generate ;;
  ret (py.contains (py.take 100 (py.lower response)) "yes").

Record LoopState : Type := {
  current_path : list string;
  current_depth : Z;
  intermediate_steps : list (gmap string pyval);
}.

(** A step-trace entry with a [depth]. *)
Definition step_at (t : string) (depth : Z) (c : string) : gmap string pyval :=
  <["depth" := PInt depth]> (step t c).

(** [while current_depth < self.max_depth], with its [break]; [remaining]
    is [max_depth - current_depth]. *)
Fixpoint search_loop (self : LATAgent) (remaining : nat) (st : LoopState)
    : M LoopState :=
  match remaining with
  | 0 => ret st
  | S remaining' =>
      selected_node <- _generate_llm_response self "node_selection" ;;
      let steps := intermediate_steps st
                   ++ [step_at "node_selection" (current_depth st) selected_node] in
      need_simulation <- _need_simulation self selected_node ;;
      steps <-
        (if need_simulation : bool then
           simulation_results <- _generate_llm_response self "simulation" ;;
           reflection <- _process_simulation self selected_node simulation_results ;;
           ret (steps ++ [step_at "simulation" (current_depth st) simulation_results;
                          step_at "reflection" (current_depth st) reflection])
         else ret steps) ;;
      let st' := {| current_path := current_path st ++ [selected_node];
                    current_depth := (current_depth st + 1)%Z;
                    intermediate_steps := steps |} in
      terminal <- _is_terminal_state self selected_node ;;
      if terminal : bool then ret st' else search_loop self remaining' st'
  end.

Definition execute (self : LATAgent) (task : string)
    (context : option (gmap string (Value W))) : M AgentResult :=
  decision_tree <- _generate_llm_response self "decision_tree_creation" ;;
  st <- search_loop self (Z.to_nat (max_depth self))
          {| current_path := []; current_depth := 0;
             intermediate_steps := [step "decision_tree_creation" decision_tree] |} ;;
  best_path <- _generate_llm_response self "best_path_selection" ;;
  output <- _generate_llm_response self "output_generation" ;;
  ret {| agent_id := id self; output := output;
         base.intermediate_steps :=
           intermediate_steps st ++ [step "best_path_selection" best_path;
                                     step "output_generation" output];
         metadata := {[ "architecture" := PStr "lat";
                        "max_depth" := PInt (max_depth self);
                        "search_strategy" := PStr (search_strategy self);
                        "path_length" := PInt (Z.of_nat (length (current_path st))) ]} |}.

End lat.
Arguments LATAgent : clear implicits.
End lat.

(** ** harkaam/agents/rewoo.py *)

Module rewoo.
Import re base llm.
Section rewoo.
Context {W : World}.
Local Open Scope run_scope.
Local Open Scope re_scope.

Record ReWOOAgent : Type := {
  id : string;
  verbose : bool;
  reasoning_depth : Z;
  reasoning_style : string;
  num_workers : Z;
}.

Definition _generate_llm_response (self : ReWOOAgent) (stage_name : string)
    : M string :=
  response <- generate ;; ret response.

(** The six patterns of [_assign_worker_tasks], in order.  The fifth looks
    for a bullet character, which is not a character of the texts modelled
    here (its code point is above 255): it matches nowhere. *)
Definition worker_label : regex :=
  (Lit "Worker" ∣ Lit "Task") ⋅ Plus Space ⋅ Plus Digit.

Definition task_patterns : list regex :=
  [ worker_label ⋅ Lit ":" ⋅ Star Space ⋅ Group 1 (Lazy Dot)
    ⋅ Ahead ((worker_label ⋅ Lit ":") ∣ Eos);
    worker_label ⋅ Cls (OneOf ".|)") ⋅ Star Space ⋅ Group 1 (Lazy Dot)
    ⋅ Ahead (worker_label ∣ Eos);
    Plus Digit ⋅ Lit "." ⋅ Star Space ⋅ Group 1 (Lazy Dot)
    ⋅ Ahead ((Plus Digit ⋅ Lit ".") ∣ Eos);
    Lit "- " ⋅ Group 1 (Lazy Dot) ⋅ Ahead (Lit "-" ∣ Eos);
    Cls (OneOf EmptyString) ⋅ Star Space ⋅ Group 1 (Lazy Dot)
    ⋅ Ahead (Cls (OneOf EmptyString) ∣ Eos);
    Lit "Subtask" ⋅ Plus Space ⋅ Plus Digit ⋅ Lit ":" ⋅ Star Space
    ⋅ Group 1 (Lazy Dot) ⋅ Ahead (Lit "Subtask" ∣ Eos) ].

(** [for pattern in task_patterns: ...]: the tasks of the first pattern
    that finds a task with text in it. *)
Fixpoint extract_tasks (self : ReWOOAgent) (ps : list regex) (text : string)
    : option (list string) :=
  match ps with
  | [] => None
  | pattern :: ps' =>
      let tasks := findall dotall pattern text in
      let cleaned_tasks :=
        py.strip <$> filter (λ t, py.strip t ≠ EmptyString) tasks in
      if negb (bool_decide (cleaned_tasks = []))
      then Some (py.slice_to (num_workers self) cleaned_tasks)
      else extract_tasks self ps' text
  end.

Definition default_task (task : string) (i : nat) : string :=
  match i with
  | 0 => "Analyze the core aspects of " +:+ task
  | 1 => "Consider alternative approaches to " +:+ task
  | _ => "Identify potential challenges or edge cases in " +:+ task
  end.

Definition _create_default_tasks (self : ReWOOAgent) (task : string)
    : list string :=
  default_task task <$> seq 0 (Z.to_nat (num_workers self)).

Definition _assign_worker_tasks (self : ReWOOAgent) (task plan : string)
    : M (list string) :=
  match extract_tasks self task_patterns plan with
  | Some tasks => ret tasks
  | None =>
      extraction_response <- generate ;;
      match extract_tasks self task_patterns extraction_response with
      | Some tasks => ret tasks
      | None => ret (_create_default_tasks self task)
      end
  end.

(** [for i, worker_task in enumerate(worker_tasks)] *)
Fixpoint run_workers (self : ReWOOAgent) (worker_tasks : list string)
    (worker_id : nat) (worker_results : list string)
    (steps : list (gmap string pyval))
    : M (list string * list (gmap string pyval)) :=
  match worker_tasks with
  | [] => ret (worker_results, steps)
  | worker_task :: worker_tasks' =>
      let wid := py.str_of_Z (Z.of_nat worker_id) in
      worker_result <- _generate_llm_response self ("worker_" +:+ wid) ;;
      run_workers self worker_tasks' (S worker_id)
        (worker_results ++ [worker_result])
        (steps ++ [step ("worker_" +:+ wid +:+ "_result") worker_result])
  end.

Definition execute (self : ReWOOAgent) (task : string)
    (context : option (gmap string (Value W))) : M AgentResult :=
  plan <- _generate_llm_response self "plan" ;;
  worker_tasks <- _assign_worker_tasks self task plan ;;
  let steps := [step "plan" plan;
                {[ "type" := PStr "worker_tasks"; "content" := PList worker_tasks ]}] in
  '(worker_results, steps) <- run_workers self worker_tasks 1 [] steps ;;
  solution <- _generate_llm_response self "solution" ;;
  ret {| agent_id := id self; output := solution;
         base.intermediate_steps := steps ++ [step "solution" solution];
         metadata := {[ "architecture" := PStr "rewoo";
                        "reasoning_depth" := PInt (reasoning_depth self);
                        "reasoning_style" := PStr (reasoning_style self);
                        "num_workers" := PInt (num_workers self) ]} |}.

End rewoo.
End rewoo.

(** ** [Agent = BaseAgent]: the factory and the entry point *)

Module Agent.
Import base llm.
Section Agent.
Context {W : World}.

(** The keyword arguments of [BaseAgent.create] that the constructors
    read; [None] is an argument that was not passed. *)
Record Kwargs : Type := {
  verbose : option bool;
  tools : option (list (tools.Tool W));
  max_iterations : option Z;
  examples : option (list string);
  max_depth : option Z;
  max_branches : option Z;
  search_strategy : option string;
  reasoning_depth : option Z;
  reasoning_style : option string;
  num_workers : option Z;
}.

(** An instance of one of the six agent classes. *)
Inductive agent : Type :=
| ReActAgent (a : react.ReActAgent W)
| OODAAgent (a : ooda.OODAAgent W)
| BDIAgent (a : bdi.BDIAgent W)
| LATAgent (a : lat.LATAgent W)
| RAISEAgent (a : raise_agent.RAISEAgent W)
| ReWOOAgent (a : rewoo.ReWOOAgent).

(** The constructors; [uuid] is the identifier drawn by [uuid.uuid4()]. *)
Definition architecture_map : list (string * (string → Kwargs → agent)) :=
  [("react", λ uuid kw, ReActAgent
      {| react.id := uuid; react.verbose := default false (verbose kw);
         react.max_iterations := default 10%Z (max_iterations kw);
         react.tools := default [] (tools kw) |});
   ("ooda", λ uuid kw, OODAAgent
      {| ooda.id := uuid; ooda.verbose := default false (verbose kw);
         ooda.max_iterations := default 10%Z (max_iterations kw);
         ooda.tools := default [] (tools kw) |});
   ("bdi", λ uuid kw, BDIAgent
      {| bdi.id := uuid; bdi.verbose := default false (verbose kw);
         bdi.max_iterations := default 10%Z (max_iterations kw);
         bdi.tools := default [] (tools kw) |});
   ("lat", λ uuid kw, LATAgent
      {| lat.id := uuid; lat.verbose := default false (verbose kw);
         lat.max_depth := default 5%Z (max_depth kw);
         lat.max_branches := default 3%Z (max_branches kw);
         lat.search_strategy := default "best_first" (search_strategy kw);
         lat.tools := default [] (tools kw) |});
   ("raise", λ uuid kw, RAISEAgent
      {| raise_agent.id := uuid;
         raise_agent.verbose := default false (verbose kw);
         raise_agent.max_iterations := default 10%Z (max_iterations kw);
         raise_agent.examples := default [] (examples kw);
         raise_agent.tools := default [] (tools kw) |});
   ("rewoo", λ uuid kw, ReWOOAgent
      {| rewoo.id := uuid; rewoo.verbose := default false (verbose kw);
         rewoo.reasoning_depth := default 3%Z (reasoning_depth kw);
         rewoo.reasoning_style := default "chain_of_thought" (reasoning_style kw);
         rewoo.num_workers := default 3%Z (num_workers kw) |})].

Definition create (architecture : string) (uuid : string) (kwargs : Kwargs)
    : pyexn + agent :=
  match odict_get architecture_map (py.lower architecture) with
  | Some agent_class => inr (agent_class uuid kwargs)
  | None => inl (ValueError ("Unknown agent architecture: " +:+ architecture))
  end.

(** [self.execute(task, **kwargs)], by class. *)
Definition execute (self : agent) (task : string)
    (context : option (gmap string (Value W))) : M AgentResult :=
  match self with
  | ReActAgent a => react.execute a task context
  | OODAAgent a => ooda.execute a task context
  | BDIAgent a => bdi.execute a task context
  | LATAgent a => lat.execute a task context
  | RAISEAgent a => raise_agent.execute a task context
  | ReWOOAgent a => rewoo.execute a task context
  end.

(** [self.config.verbose] *)
Definition is_verbose (self : agent) : bool :=
  match self with
  | ReActAgent a => react.verbose a
  | OODAAgent a => ooda.verbose a
  | BDIAgent a => bdi.verbose a
  | LATAgent a => lat.verbose a
  | RAISEAgent a => raise_agent.verbose a
  | ReWOOAgent a => rewoo.verbose a
  end.

(** [self.id] *)
Definition ident (self : agent) : string :=
  match self with
  | ReActAgent a => react.id a
  | OODAAgent a => ooda.id a
  | BDIAgent a => bdi.id a
  | LATAgent a => lat.id a
  | RAISEAgent a => raise_agent.id a
  | ReWOOAgent a => rewoo.id a
  end.

(** [agent.run(task, **kwargs)] *)
Definition run (self : agent) (task : string) (kwargs : RunKwargs W)
    : M RunResult :=
  base.run (execute self) (is_verbose self) task kwargs.

(** The strategies that loop on an iteration budget and end either on a
    completion signal or on the exhausted budget. *)
Definition budgeted : list string := ["react"; "ooda"; "bdi"; "raise"].

(** What counts as a completion signal of the gateway for a strategy: a
    final answer in the parsed response for [react], the completion test
    of the termination-check stage for the others. *)
Definition signals_completion (architecture response : string) : bool :=
  if decide (py.lower architecture = "react")
  then parser.nonempty
         (parser.ReActParser.final_answer (parser.ReActParser.parse response))
  else says_complete response.

(** The gateway calls that a run of one iteration makes before it asks
    for the partial answer: the stage calls of the iteration and, for RAISE,
    the initialisation of the scratch pad and the question whether to use
    tools (asked when the agent has tools). *)
Definition stage_calls (self : agent) : nat :=
  match self with
  | ReActAgent _ => 1
  | OODAAgent _ => 4
  | BDIAgent _ => 5
  | RAISEAgent a => S (raise_agent.iteration_calls a)
  | LATAgent _ | ReWOOAgent _ => 0
  end.

End Agent.
Arguments Kwargs : clear implicits.
Arguments agent : clear implicits.
End Agent.

(** ** Concrete graphs, agents and gateways used in the examples *)

Module workflow_examples.
Import workflow.

(** An agent that answers every task with the task text. *)
Definition echo : Agent string :=
  {| agent_ident := "agent-1"; run := λ task _, inr task |}.

(** [A], [B -> [A]], [C -> [A, B]], added in that order. *)
Definition abc : Workflow string :=
  let w := (add_node empty_workflow "A" echo "A" EmptyString None None None None).1 in
  let w := (add_node w "B" echo "B" EmptyString (Some ["A"]) None None None).1 in
  (add_node w "C" echo "C" EmptyString (Some ["A"; "B"]) None None None).1.

(** The same three nodes, added in the order [C], [B], [A]. *)
Definition cba : Workflow string :=
  let w := (add_node empty_workflow "C" echo "C" EmptyString (Some ["A"; "B"]) None None None).1 in
  let w := (add_node w "B" echo "B" EmptyString (Some ["A"]) None None None).1 in
  (add_node w "A" echo "A" EmptyString None None None None).1.

(** [A -> [B]], [B -> [A]]. *)
Definition ab_cycle : Workflow string :=
  let w := (add_node empty_workflow "A" echo "A" EmptyString (Some ["B"]) None None None).1 in
  (add_node w "B" echo "B" EmptyString (Some ["A"]) None None None).1.

(** An agent that answers 7. *)
Definition seven : Agent nat :=
  {| agent_ident := "agent-7"; run := λ _ _, inr 7 |}.

(** A node [a], display name [A], whose guard is false, and a node [b],
    display name [B], that depends on it. *)
Definition guarded : Workflow nat :=
  let w := (add_node empty_workflow "a" seven "A" EmptyString None (Some (λ _, false)) None None).1 in
  (add_node w "b" seven "B" EmptyString (Some ["a"]) None None None).1.

End workflow_examples.

Module agent_examples.

(** A world whose values are texts, where no text decodes as JSON. *)
Definition text_world : World :=
  {| Value := string; VStr := λ s, s;
     loads := λ _, inl (JSONDecodeError "Expecting value");
     dumps := λ v, inr v |}.

(** Budget 1 for every strategy: [max_iterations=1, max_depth=1,
    reasoning_depth=1]. *)
Definition budget_one : Agent.Kwargs text_world :=
  {| Agent.verbose := None; Agent.tools := None;
     Agent.max_iterations := Some 1%Z; Agent.examples := None;
     Agent.max_depth := Some 1%Z; Agent.max_branches := None;
     Agent.search_strategy := None; Agent.reasoning_depth := Some 1%Z;
     Agent.reasoning_style := None; Agent.num_workers := None |}.

(** A gateway that answers [no] to every call. *)
Definition always_no : llm.Gateway := λ _, inr "no".

(** A capability named [Calc] whose execution raises. *)
Definition calc : tools.Tool text_world :=
  {| tools.name := "Calc"; tools.description := "a calculator";
     tools.execute := λ _, inl (Exception "boom") |}.

Definition react_with_calc : react.ReActAgent text_world :=
  {| react.id := "agent-1"; react.verbose := false;
     react.max_iterations := 10; react.tools := [calc] |}.

End agent_examples.

(** ** More concrete graphs *)

Module workflow_examples2.
Import workflow workflow_examples.

(** An agent whose [run] raises. *)
Definition failing : Agent nat :=
  {| agent_ident := "agent-x"; run := λ _ _, inl (Exception "down") |}.

(** [p], then [q -> [p]] bound to the failing agent, then [r -> [q]]. *)
Definition pqr : Workflow nat :=
  let w := (add_node empty_workflow "p" seven "P" "first" None None None None).1 in
  let w := (add_node w "q" failing "Q" "second" (Some ["p"]) None None None).1 in
  (add_node w "r" seven "R" "third" (Some ["q"]) None None None).1.

End workflow_examples2.

(** ** What a run does with the gateway, for stating properties of runs *)

Module run_props.
Import llm.

(** The calls numbered [n], ..., [n' - 1] were answered. *)
Definition answered (g : Gateway) (n n' : nat) : Prop :=
  ∀ k, n ≤ k < n' → ∃ r, g k = inr r.

(** [surfaces E P m]: with any gateway, from any number of earlier calls,
    [m] makes its calls one after the other as long as they are answered;
    it returns a value that satisfies [P], or raises an exception of its
    own that satisfies [E], or raises the exception that the gateway raised
    at the last call made. *)
Definition surfaces {A : Type} (E : pyexn → Prop) (P : A → Prop) (m : M A)
    : Prop :=
  ∀ g n,
    match m g n with
    | (inr a, n') => n ≤ n' ∧ answered g n n' ∧ P a
    | (inl e, n') =>
        (n ≤ n' ∧ answered g n n' ∧ E e) ∨
        (∃ k, n' = S k ∧ n ≤ k ∧ answered g n k ∧ g k = inl e)
    end.

(** A step-trace entry that [format_output] renders without raising. *)
Definition formattable (s : gmap string base.pyval) : Prop :=
  ∃ text, base.format_step s = inr text.

End run_props.

(** ** harkaam/core/memory.py *)

Module memory.
Section memory_defs.

(** [Any] stands for the values that are neither dictionaries nor
    strings.  A dictionary given to a memory has string keys; its entries
    are strings (the time stamps among them, which are ISO texts) or other
    values.  Values are immutable here: what a caller does later to a
    dictionary it has stored is not modelled. *)
Context {Any : Type}.

Inductive entry : Type :=
| Str (s : string)
| Plain (a : Any).

Inductive value : Type :=
| Dict (d : gmap string entry)
| Other (e : entry).

(** *** [SimpleMemory]; [now] is [datetime.datetime.now().isoformat()] at
    the time of the call. *)

(** [self._storage] *)
Local Abbreviation SimpleMemory := (gmap string value).

Definition empty : SimpleMemory := ∅.

Definition add (now : string) (self : SimpleMemory) (key : string)
    (v : value) : SimpleMemory :=
  let v := match v with
           | Dict d =>
               if decide (is_Some (d !! "created_at")) then Dict d
               else Dict (<["created_at" := Str now]> d)
           | Other e => Other e
           end in
  <[key := v]> self.

Definition get (self : SimpleMemory) (key : string) : option value :=
  self !! key.

Definition update (now : string) (self : SimpleMemory) (key : string)
    (v : value) : SimpleMemory :=
  match self !! key with
  | Some stored =>
      let v := match stored, v with
               | Dict old, Dict d =>
                   let d := match old !! "created_at", d !! "created_at" with
                            | Some created, None => <["created_at" := created]> d
                            | _, _ => d
                            end in
                   Dict (<["updated_at" := Str now]> d)
               | _, _ => v
               end in
      <[key := v]> self
  | None => self
  end.

Definition delete (self : SimpleMemory) (key : string) : SimpleMemory :=
  if decide (is_Some (self !! key)) then base.delete key self else self.

Definition clear (self : SimpleMemory) : SimpleMemory := ∅.

Definition get_all (self : SimpleMemory) : gmap string value := self.

(** *** [ConversationBufferMemory] *)

(** [l[start:]] for an integer [start] of either sign *)
Definition slice_from {A : Type} (start : Z) (l : list A) : list A :=
  if (0 <=? start)%Z then skipn (Z.to_nat start) l
  else skipn (length l - Z.to_nat (- start)) l.

Record ConversationBufferMemory : Type := {
  max_messages : Z;
  storage : gmap string value;
  messages : list (gmap string entry);
}.

(** [ConversationBufferMemory(max_messages)], 100 when not given *)
Definition new_buffer (max_messages : option Z) : ConversationBufferMemory :=
  {| max_messages := default 100%Z max_messages; storage := ∅; messages := [] |}.

(** The dictionary that [add_message] appends; the keyword arguments come
    last in the display, so they win over the time stamp. *)
Definition message (now role content : string) (kwargs : gmap string entry)
    : gmap string entry :=
  kwargs ∪ {[ "role" := Str role; "content" := Str content;
              "timestamp" := Str now ]}.

(** [add_message(role, content, **kwargs)]: Python itself refuses a
    keyword argument named like one of the two parameters, with a
    [TypeError], given here as [Exception]. *)
Definition add_message (now : string) (self : ConversationBufferMemory)
    (role content : string) (kwargs : gmap string entry)
    : pyexn + ConversationBufferMemory :=
  if decide (is_Some (kwargs !! "role")) then
    inl (Exception "add_message() got multiple values for argument 'role'")
  else if decide (is_Some (kwargs !! "content")) then
    inl (Exception "add_message() got multiple values for argument 'content'")
  else
    let messages := messages self ++ [message now role content kwargs] in
    let messages :=
      if (max_messages self <? Z.of_nat (length messages))%Z
      then slice_from (- max_messages self) messages
      else messages in
    inr {| max_messages := max_messages self; storage := storage self;
           messages := messages |}.

Definition get_conversation_history (self : ConversationBufferMemory)
    (n : option Z) : list (gmap string entry) :=
  match n with
  | None => messages self
  | Some n => slice_from (- n) (messages self)
  end.

End memory_defs.
Arguments entry : clear implicits.
Arguments value : clear implicits.
Arguments ConversationBufferMemory : clear implicits.
Abbreviation SimpleMemory Any := (gmap string (value Any)).

End memory.

(** ** harkaam/core/llm.py: the factory *)

Module core_llm.

Inductive provider : Type := OpenAI | Anthropic.

(** The name under which the key of a provider is looked up. *)
Definition key_name (p : provider) : string :=
  match p with OpenAI => "openai" | Anthropic => "anthropic" end.

(** What the constructors read from outside: whether the package of a
    provider can be imported, and [get_api_key] of the configuration. *)
Record Env : Type := {
  importable : provider → bool;
  get_api_key : string → option string;
}.

(** A client, as far as the factory decides it; the client object of the
    provider's package is built from the key and is not modelled. *)
Record client : Type := {
  kind : provider;
  model : string;
  api_key : string;
}.

(** [OpenAILLM(model, api_key)] and [AnthropicLLM(model, api_key)];
    [Exception] stands for the [ImportError]. *)
Definition new_client (env : Env) (p : provider) (model : string)
    (api_key : option string) : pyexn + client :=
  if negb (importable env p) then
    inl (Exception
           match p with
           | OpenAI => "The 'openai' package is required to use the OpenAI LLM"
           | Anthropic =>
               "The 'anthropic' package is required to use the Anthropic LLM"
           end)
  else
    match api_key with
    | Some k => inr {| kind := p; model := model; api_key := k |}
    | None =>
        match get_api_key env (key_name p) with
        | Some k => inr {| kind := p; model := model; api_key := k |}
        | None =>
            inl (ValueError
                   match p with
                   | OpenAI => "OpenAI API key not found. Please provide an API key or set it in the configuration."
                   | Anthropic => "Anthropic API key not found. Please provide an API key or set it in the configuration."
                   end)
        end
    end.

Definition create_llm (env : Env) (provider_model : string)
    (api_key : option string) : pyexn + client :=
  match py.split_once provider_model ":" with
  | (provider, Some model) =>
      if decide (py.lower provider = "openai")
      then new_client env OpenAI model api_key
      else if decide (py.lower provider = "anthropic")
      then new_client env Anthropic model api_key
      else inl (ValueError ("Unsupported LLM provider: " +:+ provider))
  | (_, None) =>
      inl (ValueError ("Invalid provider_model format: " +:+ provider_model
                       +:+ ", expected 'provider:model'"))
  end.

End core_llm.

(** * Properties of the embedding *)

(** ** Workflow graphs *)

Section workflow_proofs.
Import workflow.

Section workflow_facts.
Context {Value : Type}.
Implicit Types (w : Workflow Value) (st : dfs_state) (n d : string).

Lemma odict_get_None {V} (d : odict V) k :
  odict_get d k = None ↔ k ∉ odict_keys d.
Proof.
  unfold odict_keys. induction d as [|[k' v] d IH]; simpl.
  - split; [intros _; apply not_elem_of_nil | done].
  - case_decide; subst.
    + split; [done | intros []; left].
    + rewrite IH. rewrite not_elem_of_cons. naive_solver.
Qed.

Lemma odict_get_Some_values {V} (d : odict V) k v :
  odict_get d k = Some v → v ∈ odict_values d.
Proof.
  unfold odict_values. induction d as [|[k' v'] d IH]; simpl; [done|].
  case_decide; subst.
  - intros [= ->]. left.
  - intros ?. right. auto.
Qed.

Lemma odict_get_is_Some {V} (d : odict V) k :
  is_Some (odict_get d k) ↔ k ∈ odict_keys d.
Proof.
  rewrite <- not_eq_None_Some, odict_get_None.
  destruct (decide (k ∈ odict_keys d)); naive_solver.
Qed.

Lemma extends_refl w st : extends w st st.
Proof.
  split; [done|]. exists []. rewrite app_nil_r. split; [done|].
  split; [set_solver|]. split; [constructor|]. split.
  - intros x Hx. by apply elem_of_nil in Hx.
  - intros i x d Hi. by rewrite lookup_nil in Hi.
Qed.

Lemma extends_trans w st1 st2 st3 :
  extends w st1 st2 → extends w st2 st3 → extends w st1 st3.
Proof.
  intros [Ht1 (new1 & Hr1 & Hv1 & Hnd1 & Hfr1 & Hdep1)]
         [Ht2 (new2 & Hr2 & Hv2 & Hnd2 & Hfr2 & Hdep2)].
  split; [congruence|]. exists (new1 ++ new2).
  split; [by rewrite Hr2, Hr1, app_assoc|].
  split; [rewrite Hv2, Hv1, list_to_set_app_L; set_solver|].
  split.
  { apply NoDup_app. split; [done|]. split; [|done].
    intros x Hx1 Hx2. apply Hfr2 in Hx2 as (_ & Hx2 & _). apply Hx2.
    rewrite Hv1. set_solver. }
  split.
  { intros x [Hx|Hx]%elem_of_app; [by apply Hfr1|].
    apply Hfr2 in Hx as (Hxt & Hxv & Hxe). rewrite Ht1 in Hxt.
    split; [done|]. rewrite Hv1 in Hxv. split; [set_solver|done]. }
  intros i x d Hi Hd. apply lookup_app_Some in Hi as [Hi|[Hlen Hi]].
  - destruct (Hdep1 i x d Hi Hd) as [?|(j & Hj & Hjd)]; [by left|].
    right. exists j. split; [done|]. by apply lookup_app_l_Some.
  - destruct (Hdep2 _ x d Hi Hd) as [Hin|(j & Hj & Hjd)].
    + rewrite Hv1 in Hin. apply elem_of_union in Hin as [?|Hin]; [by left|].
      right. apply elem_of_list_to_set, list_elem_of_lookup in Hin as [j Hj].
      exists j. split; [apply lookup_lt_Some in Hj; lia|].
      by apply lookup_app_l_Some.
    + right. exists (length new1 + j). split; [lia|].
      rewrite lookup_app_r by lia. by replace (length new1 + j - length new1) with j by lia.
Qed.

Lemma extends_visited_mono w st st' x :
  extends w st st' → x ∈ visited st → x ∈ visited st'.
Proof. intros [_ (new & _ & -> & _)] ?. set_solver. Qed.

Lemma visit_deps_done w rec :
  (∀ n st st', rec n st = Done () st' → extends w st st' ∧ n ∈ visited st') →
  ∀ ds st st', visit_deps rec ds st = Done () st' →
    extends w st st' ∧ ∀ d, d ∈ ds → d ∈ visited st'.
Proof.
  intros Hrec ds. induction ds as [|d ds IH]; simpl; intros st st' H.
  - injection H as <-. split; [apply extends_refl|]. intros d Hd.
    by apply elem_of_nil in Hd.
  - destruct (rec d st) as [[] st1| |] eqn:Hd; try done.
    apply Hrec in Hd as [He1 Hd1]. apply IH in H as [He2 Hds].
    split; [by eapply extends_trans|].
    intros x [->|Hx]%elem_of_cons; [by eapply extends_visited_mono|auto].
Qed.

Lemma visit_done w fuel : ∀ n st st',
  visit fuel w n st = Done () st' → extends w st st' ∧ n ∈ visited st'.
Proof.
  induction fuel as [|fuel IH]; intros n st st'; simpl; [done|].
  destruct (decide (n ∈ temp st)) as [|Hnt]; [done|].
  destruct (decide (n ∈ visited st)) as [Hnv|Hnv].
  { intros [= <-]. split; [apply extends_refl | done]. }
  destruct (odict_get (nodes w) n) as [node|] eqn:Hnode; [|done].
  destruct (visit_deps _ _ _) as [[] st2| |] eqn:Hloop; try done.
  intros [= <-].
  apply (visit_deps_done w _ IH) in Hloop
    as [[Ht (new & Hr & Hv & Hnd & Hfr & Hdep)] Hds]; simpl in *.
  split; [|set_solver].
  split; simpl; [rewrite Ht; set_solver|].
  exists (new ++ [n]). split; [by rewrite Hr, app_assoc|].
  split; [rewrite Hv, list_to_set_app_L; set_solver|].
  split.
  { apply NoDup_app. split; [done|]. split; [|apply NoDup_singleton].
    intros x Hx ->%list_elem_of_singleton. apply Hfr in Hx. set_solver. }
  split.
  { intros x [Hx| ->%list_elem_of_singleton]%elem_of_app.
    - apply Hfr in Hx as (? & ? & ?). split; [set_solver|done].
    - by rewrite Hnode. }
  intros i x d Hi Hd. apply lookup_app_Some in Hi as [Hi|[Hlen Hi]].
  - destruct (Hdep i x d Hi Hd) as [?|(j & Hj & Hjd)]; [by left|].
    right. exists j. split; [done|]. by apply lookup_app_l_Some.
  - apply list_lookup_singleton_Some in Hi as [Hi ->].
    destruct Hd as (node' & Hnode' & Hd).
    assert (node' = node) as -> by congruence.
    apply Hds in Hd. rewrite Hv in Hd.
    apply elem_of_union in Hd as [?|Hd]; [by left|].
    right. apply elem_of_list_to_set, list_elem_of_lookup in Hd as [j Hj].
    exists j. split; [apply lookup_lt_Some in Hj; lia|].
    by apply lookup_app_l_Some.
Qed.

(** A raise inside a traversal that started from existing nodes exhibits a
    cycle: every node of [temp] reaches the node being visited. *)
Lemma visit_deps_raise w rec n :
  (∀ d st st', rec d st = Done () st' → extends w st st' ∧ d ∈ visited st') →
  (∀ d st e st', rec d st = Raise e st' → is_Some (odict_get (nodes w) d) →
     (∀ t, t ∈ temp st → tc (depends_on w) t d) →
     cyclic w ∧ ∃ msg, e = ValueError msg) →
  ∀ ds st e st', visit_deps rec ds st = Raise e st' →
    (∀ d, d ∈ ds → depends_on w n d ∧ is_Some (odict_get (nodes w) d)) →
    (∀ t, t ∈ temp st → t = n ∨ tc (depends_on w) t n) →
    cyclic w ∧ ∃ msg, e = ValueError msg.
Proof.
  intros Hdone Hraise ds. induction ds as [|d ds IH]; simpl; [done|].
  intros st e st' H Hds Htemp.
  destruct (rec d st) as [[] st1|e1 st1|] eqn:Hd; try done.
  - apply Hdone in Hd as [[Ht _] _]. apply (IH _ _ _ H).
    + intros x Hx. apply Hds. by right.
    + intros t. rewrite Ht. apply Htemp.
  - destruct (Hds d) as [Hnd Hex]; [left|]. injection H as <- _.
    apply (Hraise _ _ _ _ Hd Hex). intros t [->|Ht]%Htemp.
    + by apply tc_once.
    + eapply tc_r; eauto.
Qed.

Lemma visit_raise w fuel : deps_exist w → ∀ n st e st',
  visit fuel w n st = Raise e st' →
  is_Some (odict_get (nodes w) n) →
  (∀ t, t ∈ temp st → tc (depends_on w) t n) →
  cyclic w ∧ ∃ msg, e = ValueError msg.
Proof.
  intros Hex. induction fuel as [|fuel IH]; intros n st e st'; simpl; [done|].
  destruct (decide (n ∈ temp st)) as [Hnt|Hnt].
  { intros [= <- _] _ Htemp. split; [exists n; auto | eauto]. }
  destruct (decide (n ∈ visited st)); [done|].
  destruct (odict_get (nodes w) n) as [node|] eqn:Hnode.
  2:{ by intros _ [? ?]. }
  destruct (visit_deps _ _ _) as [[] st2|e2 st2|] eqn:Hloop; try done.
  intros [= <- _] _ Htemp.
  eapply (visit_deps_raise w _ n (visit_done w fuel) IH); [exact Hloop|..].
  - intros d Hd. assert (depends_on w n d) by (by exists node).
    split; [done|by apply (Hex n)].
  - simpl. intros t [Ht| ->%elem_of_singleton]%elem_of_union; auto.
Qed.

(** Fuel: the recursion depth is bounded by the nodes not yet in [temp]. *)
Lemma visit_deps_fuel w rec (m : nat) :
  (∀ d st st', rec d st = Done () st' → extends w st st' ∧ d ∈ visited st') →
  (∀ d st, is_Some (odict_get (nodes w) d) → temp st ⊆ key_set w →
     size (key_set w ∖ temp st) ≤ m → rec d st ≠ OutOfFuel) →
  ∀ ds st, (∀ d, d ∈ ds → is_Some (odict_get (nodes w) d)) →
    temp st ⊆ key_set w → size (key_set w ∖ temp st) ≤ m →
    visit_deps rec ds st ≠ OutOfFuel.
Proof.
  intros Hdone Hfuel ds. induction ds as [|d ds IH]; simpl; [done|].
  intros st Hds Hsub Hsz.
  destruct (rec d st) as [[] st1|e1 st1|] eqn:Hd; try done.
  - apply Hdone in Hd as [[Ht _] _]. apply IH.
    + intros x Hx. apply Hds. by right.
    + by rewrite Ht.
    + by rewrite Ht.
  - exfalso. eapply Hfuel; [| | |exact Hd]; [apply Hds; left|done..].
Qed.

Lemma visit_fuel w : deps_exist w → ∀ fuel n st,
  is_Some (odict_get (nodes w) n) → temp st ⊆ key_set w →
  size (key_set w ∖ temp st) < fuel →
  visit fuel w n st ≠ OutOfFuel.
Proof.
  intros Hex. induction fuel as [|fuel IH]; intros n st Hn Hsub Hsz; [lia|].
  simpl. destruct (decide (n ∈ temp st)) as [Hnt|Hnt]; [done|].
  destruct (decide (n ∈ visited st)); [done|].
  destruct (odict_get (nodes w) n) as [node|] eqn:Hnode; [|done].
  assert (n ∈ key_set w) as Hkey.
  { apply elem_of_list_to_set, odict_get_is_Some. by rewrite Hnode. }
  destruct (visit_deps _ _ _) as [[] st2|e2 st2|] eqn:Hloop; try done.
  exfalso. revert Hloop.
  apply (visit_deps_fuel w _ (size (key_set w ∖ (temp st ∪ {[n]})))
           (visit_done w fuel)).
  - intros d st' Hd Hs Hle. apply IH; [done..|].
    assert (size (key_set w ∖ (temp st ∪ {[n]})) < size (key_set w ∖ temp st));
      [|lia].
    apply subset_size. set_solver.
  - intros d Hd. apply (Hex n). by exists node.
  - simpl. set_solver.
  - done.
Qed.

Lemma size_list_to_set_le (l : list string) :
  size (list_to_set l : gset string) ≤ length l.
Proof.
  induction l as [|x l IH].
  { change (size (∅ : gset string) ≤ 0). by rewrite size_empty. }
  change (size ({[x]} ∪ list_to_set l : gset string) ≤ S (length l)).
  rewrite size_union_alt, size_singleton.
  assert (size (list_to_set l ∖ {[x]} : gset string) ≤ size (list_to_set l : gset string))
    by (apply subseteq_size; set_solver).
  lia.
Qed.

Lemma depth_bound_enough w st :
  temp st = ∅ → size (key_set w ∖ temp st) < depth_bound w.
Proof.
  intros ->. unfold depth_bound, key_set, odict_keys.
  pose proof (size_list_to_set_le ((nodes w).*1)) as Hle.
  rewrite length_fmap in Hle.
  assert (size (list_to_set (nodes w).*1 ∖ ∅ : gset string)
          ≤ size (list_to_set (nodes w).*1 : gset string))
    by (apply subseteq_size; set_solver).
  lia.
Qed.

(** The outer loop of [_get_execution_order]. *)
Lemma visit_all_done w : ∀ ids st st',
  visit_all w ids st = Done () st' →
  extends w st st' ∧ ∀ k, k ∈ ids → k ∈ visited st'.
Proof.
  induction ids as [|k ids IH]; cbn [visit_all]; intros st st' H.
  - injection H as <-. split; [apply extends_refl|].
    intros k Hk. by apply elem_of_nil in Hk.
  - destruct (decide (k ∈ visited st)) as [Hk|Hk].
    + apply IH in H as [He Hids]. split; [done|].
      intros x [->|Hx]%elem_of_cons; [by eapply extends_visited_mono|auto].
    + destruct (visit _ w k st) as [[] st1| |] eqn:Hv; try done.
      apply visit_done in Hv as [He1 Hk1]. apply IH in H as [He2 Hids].
      split; [by eapply extends_trans|].
      intros x [->|Hx]%elem_of_cons; [by eapply extends_visited_mono|auto].
Qed.

Lemma visit_all_raise w : deps_exist w → ∀ ids st e st',
  visit_all w ids st = Raise e st' →
  (∀ k, k ∈ ids → is_Some (odict_get (nodes w) k)) → temp st = ∅ →
  cyclic w ∧ ∃ msg, e = ValueError msg.
Proof.
  intros Hex. induction ids as [|k ids IH]; cbn [visit_all]; [done|].
  intros st e st' H Hids Ht.
  assert (∀ x, x ∈ ids → is_Some (odict_get (nodes w) x)) as Hids'
    by (intros x Hx; apply Hids; by right).
  destruct (decide (k ∈ visited st)) as [Hk|Hk]; [by eapply IH|].
  destruct (visit _ w k st) as [[] st1|e1 st1|] eqn:Hv; try done.
  - apply visit_done in Hv as [[Ht1 _] _]. eapply IH; eauto. congruence.
  - injection H as <- _. eapply visit_raise; eauto; [apply Hids; left|].
    intros t. rewrite Ht. set_solver.
Qed.

Lemma visit_all_fuel w : deps_exist w → ∀ ids st,
  (∀ k, k ∈ ids → is_Some (odict_get (nodes w) k)) → temp st = ∅ →
  visit_all w ids st ≠ OutOfFuel.
Proof.
  intros Hex. induction ids as [|k ids IH]; cbn [visit_all]; [done|].
  intros st Hids Ht.
  assert (∀ x, x ∈ ids → is_Some (odict_get (nodes w) x)) as Hids'
    by (intros x Hx; apply Hids; by right).
  destruct (decide (k ∈ visited st)) as [Hk|Hk]; [by apply IH|].
  destruct (visit _ w k st) as [[] st1|e1 st1|] eqn:Hv; try done.
  - apply visit_done in Hv as [[Ht1 _] _]. apply IH; [done|congruence].
  - exfalso. revert Hv. apply visit_fuel; [done|apply Hids; left| |].
    + rewrite Ht. set_solver.
    + by apply depth_bound_enough.
Qed.

Lemma keys_exist w k :
  k ∈ odict_keys (nodes w) → is_Some (odict_get (nodes w) k).
Proof. apply odict_get_is_Some. Qed.

(** A topological order that lists every node excludes cycles. *)
Lemma topological_acyclic w order :
  topological w order → (∀ k, k ∈ odict_keys (nodes w) → k ∈ order) → ¬ cyclic w.
Proof.
  intros Htopo Hall [n Hn].
  assert (∀ x y, tc (depends_on w) x y → ∀ i, order !! i = Some x →
            ∃ j, j < i ∧ order !! j = Some y) as Hpath.
  { induction 1 as [x y Hxy|x y z Hxy _ IH]; intros i Hi; [by eapply Htopo|].
    destruct (Htopo _ _ _ Hi Hxy) as (j & Hj & Hjy).
    destruct (IH _ Hjy) as (k & Hk & Hkz). exists k. split; [lia|done]. }
  assert (n ∈ order) as [i Hi]%list_elem_of_lookup.
  { apply Hall. inversion Hn as [? ? (node & Hnode & _)|? ? ? (node & Hnode & _)];
      apply odict_get_is_Some; by rewrite Hnode. }
  revert Hi. induction (lt_wf i) as [i _ IH]. intros Hi.
  destruct (Hpath _ _ Hn _ Hi) as (j & Hj & Hjn). eauto.
Qed.

(** What a completed outer loop has computed. *)
Lemma visit_all_order w st' :
  visit_all w (odict_keys (nodes w)) init_state = Done () st' →
  NoDup (result st') ∧
  (∀ k, k ∈ result st' ↔ k ∈ odict_keys (nodes w)) ∧
  topological w (result st').
Proof.
  intros [[_ (new & Hr & Hv & Hnd & Hfr & Hdep)] Hall]%visit_all_done.
  simpl in *. subst. split; [done|]. split.
  - intros k. split.
    + intros Hk. apply Hfr in Hk as (_ & _ & Hk). by apply odict_get_is_Some.
    + intros Hk. apply Hall in Hk. rewrite Hv in Hk. set_solver.
  - intros i n d Hi Hd. destruct (Hdep _ _ _ Hi Hd) as [Hin|?]; [|done].
    set_solver.
Qed.

Lemma get_execution_order_spec w :
  deps_exist w → ¬ cyclic w →
  ∃ order, _get_execution_order w = Some (inr order) ∧
    NoDup order ∧ (∀ k, k ∈ order ↔ k ∈ odict_keys (nodes w)) ∧
    topological w order.
Proof.
  intros Hex Hac. unfold _get_execution_order.
  destruct (visit_all w _ init_state) as [[] st'|e st'|] eqn:Hv.
  - exists (result st'). split; [done|]. by apply visit_all_order.
  - exfalso. apply Hac. eapply visit_all_raise; eauto using keys_exist.
  - exfalso. revert Hv. apply visit_all_fuel; auto using keys_exist.
Qed.

(** *** [has_cycle] against [visit]

    The two traversals make the same moves on [visited] and [temp]:
    [has_cycle] answers [True] exactly where [visit] raises [ValueError]. *)

Lemma has_cycle_deps_sim rec1 rec2 :
  (∀ n st1 st2, same_sets st1 st2 → sim_outcome (rec1 n st1) (rec2 n st2)) →
  ∀ ds st1 st2, same_sets st1 st2 →
    sim_outcome (has_cycle_deps rec1 ds st1) (visit_deps rec2 ds st2).
Proof.
  intros Hrec ds. induction ds as [|d ds IH]; intros st1 st2 Hs; simpl.
  - by exists st1.
  - specialize (Hrec d st1 st2 Hs). unfold sim_outcome in Hrec.
    destruct (rec2 d st2) as [[] st2'|e st2'|].
    + destruct Hrec as (st1' & -> & Hs'). by apply IH.
    + destruct e; destruct Hrec as (st1' & ->); simpl; eauto.
    + by rewrite Hrec.
Qed.

Lemma has_cycle_sim w fuel : ∀ n st1 st2, same_sets st1 st2 →
  sim_outcome (has_cycle fuel w n st1) (visit fuel w n st2).
Proof.
  induction fuel as [|fuel IH]; intros n st1 st2 [Hv Ht];
    cbn [has_cycle visit]; [done|].
  rewrite Hv, Ht.
  destruct (decide (n ∈ temp st2)); [simpl; eauto|].
  destruct (decide (n ∈ visited st2)).
  { simpl. exists st1. by repeat split. }
  destruct (odict_get (nodes w) n) as [node|]; [|simpl; eauto].
  match goal with
  | |- sim_outcome (match has_cycle_deps _ ?ds ?s1 with _ => _ end)
                   (match visit_deps _ _ ?s2 with _ => _ end) =>
      pose proof (has_cycle_deps_sim _ _ IH ds s1 s2) as Hloop
  end.
  unfold sim_outcome in Hloop.
  destruct (visit_deps _ _ _) as [[] st2'|e st2'|].
  - destruct Hloop as (st1' & -> & Hv' & Ht'); [done|]. simpl.
    eexists. split; [done|]. split; simpl; congruence.
  - destruct e; destruct Hloop as (st1' & ->); simpl; eauto; done.
  - by rewrite Hloop.
Qed.

Lemma check_cycles_sim w : ∀ ids st1 st2,
  same_sets st1 st2 → temp st2 = ∅ →
  match visit_all w ids st2 with
  | Done _ _ => ∃ st1', check_cycles w ids st1 = Done () st1'
  | Raise (ValueError _) _ =>
      ∃ st1', check_cycles w ids st1 =
                Raise (ValueError "Circular dependency detected in workflow") st1'
  | Raise e _ => ∃ st1', check_cycles w ids st1 = Raise e st1'
  | OutOfFuel => check_cycles w ids st1 = OutOfFuel
  end.
Proof.
  induction ids as [|k ids IH]; intros st1 st2 Hs Ht;
    cbn [visit_all check_cycles]; [eauto|].
  pose proof (has_cycle_sim w (depth_bound w) k st1 st2 Hs) as Hk.
  unfold sim_outcome in Hk.
  destruct (decide (k ∈ visited st2)) as [Hv|Hv].
  - assert (visit (depth_bound w) w k st2 = Done () st2) as Hvis.
    { unfold depth_bound. simpl. rewrite Ht.
      rewrite decide_False by set_solver. by rewrite decide_True. }
    rewrite Hvis in Hk. destruct Hk as (st1' & -> & Hs'). by apply IH.
  - destruct (visit _ w k st2) as [[] st2'|e st2'|] eqn:Hvis.
    + destruct Hk as (st1' & -> & Hs'). apply IH; [done|].
      apply visit_done in Hvis as [[-> _] _]. done.
    + destruct e; destruct Hk as (st1' & ->); eauto.
    + by rewrite Hk.
Qed.

(** *** [_validate] *)

Lemma check_node_deps_ok w node ds :
  check_node_deps w node ds = inr () ↔
  ∀ d, d ∈ ds → is_Some (odict_get (nodes w) d).
Proof.
  induction ds as [|d ds IH]; simpl.
  - split; [|done]. intros _ d Hd. by apply elem_of_nil in Hd.
  - unfold odict_mem. case_bool_decide as Hd.
    + rewrite IH. split.
      * intros H x [->|Hx]%elem_of_cons; [by apply odict_get_is_Some|auto].
      * intros H x Hx. apply H. by right.
    + split; [done|]. intros H. exfalso. apply Hd, odict_get_is_Some, H. left.
Qed.

Lemma check_node_deps_cases w node ds :
  check_node_deps w node ds = inr () ∨ ∃ msg, check_node_deps w node ds = inl (ValueError msg).
Proof.
  induction ds as [|d ds IH]; simpl; [by left|].
  destruct (odict_mem _ _); [done|]. right. eauto.
Qed.

Lemma check_deps_ok w ns :
  check_deps w ns = inr () ↔
  ∀ node d, node ∈ ns → d ∈ dependencies node → is_Some (odict_get (nodes w) d).
Proof.
  induction ns as [|node ns IH]; simpl.
  - split; [|done]. intros _ node d Hn. by apply elem_of_nil in Hn.
  - destruct (check_node_deps_cases w node (dependencies node)) as [Hc|[msg Hc]];
      rewrite Hc.
    + rewrite IH. pose proof (proj1 (check_node_deps_ok _ _ _) Hc) as Hc'. split.
      * intros H x d [->|Hx]%elem_of_cons; eauto.
      * intros H x d Hx. apply H. by right.
    + split; [done|]. intros H.
      assert (check_node_deps w node (dependencies node) = inr ()) as Hok.
      { apply check_node_deps_ok. intros d. apply H. left. }
      congruence.
Qed.

Lemma check_deps_cases w ns :
  check_deps w ns = inr () ∨ ∃ msg, check_deps w ns = inl (ValueError msg).
Proof.
  induction ns as [|node ns IH]; simpl; [by left|].
  destruct (check_node_deps_cases w node (dependencies node)) as [->|[msg ->]];
    eauto.
Qed.

Lemma check_agents_cases w ns :
  check_agents w ns = inr () ∨ ∃ msg, check_agents w ns = inl (ValueError msg).
Proof.
  induction ns as [|node ns IH]; simpl; [by left|].
  case_decide; eauto.
Qed.

Lemma check_agents_ok w ns :
  check_agents w ns = inr () ↔
  ∀ node, node ∈ ns → is_Some (agents w !! agent_id node).
Proof.
  induction ns as [|node ns IH]; simpl.
  - split; [|done]. intros _ node Hn. by apply elem_of_nil in Hn.
  - case_decide as Ha.
    + rewrite IH. split.
      * intros H x [->|Hx]%elem_of_cons; auto.
      * intros H x Hx. apply H. by right.
    + split; [done|]. intros H. exfalso. apply Ha, H. left.
Qed.

Lemma check_deps_exist w :
  check_deps w (odict_values (nodes w)) = inr () → deps_exist w.
Proof.
  rewrite check_deps_ok. intros H n d (node & Hnode & Hd).
  eapply H; [|done]. by eapply odict_get_Some_values.
Qed.

Lemma dangling_check_deps w :
  dangling w → ∃ msg, check_deps w (odict_values (nodes w)) = inl (ValueError msg).
Proof.
  intros (n & d & Hnd & Hd).
  destruct (check_deps_cases w (odict_values (nodes w))) as [Hok|]; [|done].
  apply check_deps_exist in Hok. apply Hok in Hnd. rewrite Hd in Hnd.
  by destruct Hnd.
Qed.

(** [_validate] always returns or raises; what it raises is a [ValueError]. *)
Lemma validate_cases w :
  _validate w = Some (inr ()) ∨ ∃ msg, _validate w = Some (inl (ValueError msg)).
Proof.
  unfold _validate.
  destruct (check_agents_cases w (odict_values (nodes w))) as [->|[msg ->]]; [|eauto].
  destruct (check_deps_cases w (odict_values (nodes w))) as [Hd|[msg ->]]; [|eauto].
  rewrite Hd. apply check_deps_exist in Hd.
  pose proof (check_cycles_sim w (odict_keys (nodes w)) init_state init_state) as Hs.
  destruct (visit_all w _ init_state) as [[] st'|e st'|] eqn:Hv.
  - destruct Hs as (st1' & ->); [done..|]. by left.
  - apply visit_all_raise in Hv as [_ [msg ->]]; auto using keys_exist.
    destruct Hs as (st1' & ->); [done..|]. eauto.
  - exfalso. revert Hv. apply visit_all_fuel; auto using keys_exist.
Qed.

(** A graph with a dangling dependency or a cycle is rejected. *)
Lemma validate_rejects w :
  dangling w ∨ cyclic w → ∃ msg, _validate w = Some (inl (ValueError msg)).
Proof.
  intros Hbad. destruct (validate_cases w) as [Hok|]; [|done]. exfalso.
  unfold _validate in Hok.
  destruct (check_agents w _); [done|].
  destruct (check_deps w _) as [|[]] eqn:Hd; [done|].
  destruct Hbad as [Hdang|Hcyc].
  { apply dangling_check_deps in Hdang as [msg Hdang]. congruence. }
  apply check_deps_exist in Hd.
  pose proof (check_cycles_sim w (odict_keys (nodes w)) init_state init_state) as Hs.
  destruct (visit_all w _ init_state) as [[] st'|e st'|] eqn:Hv.
  - apply visit_all_order in Hv as (_ & Hall & Htopo).
    eapply topological_acyclic; [exact Htopo| |exact Hcyc]. intros k. apply Hall.
  - apply visit_all_raise in Hv as [_ [msg ->]]; auto using keys_exist.
    destruct Hs as (st1' & Hc); [done..|]. by rewrite Hc in Hok.
  - rewrite Hs in Hok; done.
Qed.

(** A graph that passes [_validate] has all its dependencies, no cycle, and
    an execution order. *)
Lemma validate_accepts w :
  _validate w = Some (inr ()) →
  deps_exist w ∧ ¬ cyclic w ∧
  (∀ node, node ∈ odict_values (nodes w) → is_Some (agents w !! agent_id node)).
Proof.
  intros Hok. assert (¬ (dangling w ∨ cyclic w)) as Hgood.
  { intros [msg Hbad]%validate_rejects. congruence. }
  unfold _validate in Hok.
  destruct (check_agents w _) as [|[]] eqn:Ha; [done|].
  destruct (check_deps w _) as [|[]] eqn:Hd; [done|].
  split; [by apply check_deps_exist|]. split; [tauto|].
  by apply check_agents_ok.
Qed.

Lemma deps_exist_not_dangling w : deps_exist w ↔ ¬ dangling w.
Proof.
  split.
  - intros Hex (n & d & Hnd & Hd). apply Hex in Hnd. rewrite Hd in Hnd.
    by destruct Hnd.
  - intros Hnd n d Hd. destruct (odict_get (nodes w) d) eqn:Hget; [eauto|].
    exfalso. apply Hnd. by exists n, d.
Qed.

(** *** [execute] *)

Lemma get_execution_order_NoDup w order :
  _get_execution_order w = Some (inr order) → NoDup order.
Proof.
  unfold _get_execution_order.
  destruct (visit_all w _ init_state) as [[] st'|e st'|] eqn:Hv; try done.
  intros [= <-]. by apply visit_all_order in Hv as (? & _).
Qed.

Lemma execute_total w input : is_Some (execute w input).
Proof.
  unfold execute. destruct (validate_cases w) as [Hok|[msg ->]]; [|eauto].
  rewrite Hok. apply validate_accepts in Hok as (Hex & Hac & _).
  destruct (get_execution_order_spec w Hex Hac) as (order & -> & _). eauto.
Qed.

Lemma execute_fails_fast w input :
  dangling w ∨ cyclic w →
  ∃ msg, execute w input = Some (inl (ValueError msg), []).
Proof.
  intros [msg Hbad]%validate_rejects. exists msg. unfold execute.
  by rewrite Hbad.
Qed.

Lemma run_nodes_app w input pre post results log :
  run_nodes w input (pre ++ post) results log =
  match run_nodes w input pre results log with
  | (inr results', log') => run_nodes w input post results' log'
  | (inl e, log') => (inl e, log')
  end.
Proof.
  revert results log. induction pre as [|k pre IH]; intros results log; simpl;
    [done|].
  destruct (odict_get (nodes w) k) as [node|]; [|done].
  destruct (skipped node input results); [apply IH|].
  destruct (collect_inputs w _ results input) as [e|ni]; [done|].
  destruct (agents w !! agent_id node) as [agent|]; [|done].
  destruct (run agent _ _) as [e|r]; [done|]. apply IH.
Qed.

(** A run writes only under the ids it walks through. *)
Lemma run_nodes_other w input order : ∀ results log results' log' k,
  run_nodes w input order results log = (inr results', log') →
  k ∉ order → results' !! k = results !! k.
Proof.
  induction order as [|n order IH]; intros results log results' log' k; simpl.
  - by intros [= <- _].
  - intros H [Hkn Hk]%not_elem_of_cons.
    destruct (odict_get (nodes w) n) as [node|]; [|done].
    destruct (skipped node input results); [by eapply IH|].
    destruct (collect_inputs w _ results input) as [e|ni]; [done|].
    destruct (agents w !! agent_id node) as [agent|]; [|done].
    destruct (run agent _ _) as [e|r]; [done|].
    rewrite (IH _ _ _ _ _ H Hk). by rewrite lookup_insert_ne.
Qed.

(** Where the entries of a merged input come from: the initial input, or a
    dependency that has a result, under that dependency's display name. *)
Lemma collect_inputs_source w results : ∀ ds acc node_input key v,
  collect_inputs w ds results acc = inr node_input →
  node_input !! key = Some v →
  acc !! key = Some v ∨
  ∃ dep_id dep, dep_id ∈ ds ∧ results !! dep_id = Some v ∧
    odict_get (nodes w) dep_id = Some dep ∧ name dep = key.
Proof.
  induction ds as [|d ds IH]; intros acc node_input key v; simpl.
  - intros [= <-] ?. by left.
  - destruct (results !! d) as [r|] eqn:Hr.
    + destruct (odict_get (nodes w) d) as [dep|] eqn:Hdep; [|done].
      intros H Hkey. destruct (IH _ _ _ _ H Hkey) as [Hacc|(d' & dep' & ? & ?)].
      * destruct (decide (name dep = key)) as [<-|Hne].
        -- rewrite lookup_insert_eq in Hacc. injection Hacc as ->.
           right. exists d, dep. split; [left|done].
        -- rewrite lookup_insert_ne in Hacc by done. by left.
      * right. exists d', dep'. split; [by right|done].
    + intros H Hkey. destruct (IH _ _ _ _ H Hkey) as [?|(d' & dep' & ? & ?)];
        [by left|].
      right. exists d', dep'. split; [by right|done].
Qed.

(** A node whose guard fails when its turn comes gets no entry, then or
    later. *)
Lemma skipped_no_entry w input pre s post node_s r_s log_s r log :
  NoDup (pre ++ s :: post) →
  odict_get (nodes w) s = Some node_s →
  run_nodes w input pre ∅ [] = (inr r_s, log_s) →
  skipped node_s input r_s = true →
  run_nodes w input (pre ++ s :: post) ∅ [] = (inr r, log) →
  r !! s = None.
Proof.
  intros Hnd Hs Hpre Hskip Hrun.
  apply NoDup_app in Hnd as (_ & Hpre_s & [Hpost_s _]%NoDup_cons).
  rewrite run_nodes_app, Hpre in Hrun. simpl in Hrun.
  rewrite Hs, Hskip in Hrun.
  rewrite (run_nodes_other _ _ _ _ _ _ _ _ Hrun Hpost_s).
  rewrite (run_nodes_other _ _ _ _ _ _ _ _ Hpre); [done|].
  intros Hin. by apply (Hpre_s s Hin); left.
Qed.

(** *** [add_node] *)

Lemma odict_get_set {V} (d : odict V) k v : odict_get (odict_set d k v) k = Some v.
Proof.
  induction d as [|[k' v'] d IH]; simpl.
  - by rewrite decide_True.
  - destruct (decide (k = k')) as [->|Hne]; simpl.
    + by rewrite decide_True.
    + by rewrite decide_False.
Qed.

Lemma odict_get_set_ne {V} (d : odict V) k k' v :
  k ≠ k' → odict_get (odict_set d k v) k' = odict_get d k'.
Proof.
  intros Hne. induction d as [|[k0 v0] d IH]; simpl.
  - by rewrite decide_False.
  - destruct (decide (k = k0)) as [->|Hne0]; simpl.
    + by rewrite !decide_False.
    + by rewrite IH.
Qed.

Lemma odict_keys_set_fresh {V} (d : odict V) k v :
  k ∉ odict_keys d → odict_keys (odict_set d k v) = odict_keys d ++ [k].
Proof.
  unfold odict_keys. induction d as [|[k0 v0] d IH]; simpl; [done|].
  intros [Hne Hk]%not_elem_of_cons. rewrite decide_False by done. simpl.
  f_equal. by apply IH.
Qed.

Lemma odict_set_NoDup {V} (d : odict V) k v :
  NoDup (odict_keys d) → NoDup (odict_keys (odict_set d k v)).
Proof.
  unfold odict_keys. induction d as [|[k0 v0] d IH]; simpl.
  - intros _. apply NoDup_singleton.
  - intros [Hk0 Hd]%NoDup_cons. destruct (decide (k = k0)) as [->|Hne]; simpl.
    + by apply NoDup_cons.
    + apply NoDup_cons. split; [|auto].
      intros Hin. apply Hk0. clear -Hin Hne.
      induction d as [|[k1 v1] d IH]; simpl in *.
      * apply list_elem_of_singleton in Hin. congruence.
      * destruct (decide (k = k1)) as [->|?]; simpl in *; [done|].
        apply elem_of_cons in Hin as [->|Hin]; [left|right; auto].
Qed.

End workflow_facts.

Import workflow_examples.

Example abc_order : _get_execution_order abc = Some (inr ["A"; "B"; "C"]).
Proof. vm_compute. reflexivity. Qed.

Example cba_order : _get_execution_order cba = Some (inr ["A"; "B"; "C"]).
Proof. vm_compute. reflexivity. Qed.

Example ab_cycle_execute :
  execute ab_cycle None =
  Some (inl (ValueError "Circular dependency detected in workflow"), []).
Proof. vm_compute. reflexivity. Qed.

Example guarded_run :
  execute guarded (Some {[ "A" := 1 ]}) =
  Some (inr {[ "b" := 7 ]},
        [{| call_agent := "agent-7"; call_task := "B: ";
            call_context := {[ "A" := 1 ]} |}]).
Proof. vm_compute. reflexivity. Qed.

Section workflow_claims.
Context {Value : Type}.
Implicit Types (w : Workflow Value).

(** C1.  [execute] validates the whole graph before it runs any node: on a
    graph with a dangling dependency or a dependency cycle it raises a
    [ValueError], no bound unit of work has been invoked (the call log is
    empty) and no results mapping exists. *)
Theorem execute_validates_first w (input_data : option (gmap string Value)) :
  dangling w ∨ cyclic w →
  ∃ msg, execute w input_data = Some (inl (ValueError msg), []).
Proof. apply execute_fails_fast. Qed.

(** C2.  On a graph whose dependencies all exist and that has no cycle,
    the execution order is computed, lists every node id exactly once and
    puts every node after all of its dependencies; it is the order in which
    [execute] runs the nodes once [_validate] has passed. *)
Theorem execution_order_topological w :
  ¬ dangling w → ¬ cyclic w →
  ∃ order,
    _get_execution_order w = Some (inr order) ∧
    NoDup order ∧
    (∀ k, k ∈ order ↔ k ∈ odict_keys (nodes w)) ∧
    topological w order ∧
    (_validate w = Some (inr ()) →
     ∀ input_data, execute w input_data =
       Some (run_nodes w (default ∅ input_data) order ∅ [])).
Proof.
  intros Hnd%deps_exist_not_dangling Hac.
  destruct (get_execution_order_spec w Hnd Hac) as (order & Ho & ? & ? & ?).
  exists order. repeat split; try done; try naive_solver.
  intros Hok input. unfold execute. by rewrite Hok, Ho.
Qed.

(** C7, as amended.  A node whose guard is false when its turn comes is
    skipped: at every later point of the run the results mapping has no
    entry under its id, and every entry of a merged input then comes from
    the initial input or from another dependency that has a result, under
    that dependency's display name; nothing is inserted for the skipped
    node. *)
Theorem guard_skip w (input_data : gmap string Value)
    pre s mid rest node_s r_s log_s r log :
  _get_execution_order w = Some (inr (pre ++ s :: mid ++ rest)) →
  odict_get (nodes w) s = Some node_s →
  run_nodes w input_data pre ∅ [] = (inr r_s, log_s) →
  skipped node_s input_data r_s = true →
  run_nodes w input_data (pre ++ s :: mid) ∅ [] = (inr r, log) →
  r !! s = None ∧
  ∀ ds node_input key v,
    collect_inputs w ds r input_data = inr node_input →
    node_input !! key = Some v →
    input_data !! key = Some v ∨
    ∃ dep_id dep, dep_id ∈ ds ∧ dep_id ≠ s ∧ r !! dep_id = Some v ∧
      odict_get (nodes w) dep_id = Some dep ∧ name dep = key.
Proof.
  intros Hord Hs Hpre Hskip Hrun.
  assert (r !! s = None) as Hnone.
  { apply (skipped_no_entry w input_data pre s mid node_s r_s log_s r log);
      try done.
    apply get_execution_order_NoDup in Hord.
    rewrite app_comm_cons, app_assoc in Hord.
    by apply NoDup_app in Hord as (? & _). }
  split; [done|]. intros ds ni key v Hc Hkey.
  destruct (collect_inputs_source _ _ _ _ _ _ _ Hc Hkey)
    as [?|(d & dep & ? & Hd & ? & ?)]; [by left|].
  right. exists d, dep. repeat split; try done. congruence.
Qed.

(** C10.  [add_node] checks nothing about the graph: whatever the
    dependency list, it returns the identifier drawn for the node and stores
    the node under it (after the existing nodes when the identifier is new),
    registering the agent; a dangling dependency or a cycle it has created
    is reported only by [execute]. *)
Theorem add_node_no_validation w uuid (agent : Agent Value) nm descr deps
    cond t_in t_out :
  let w' := (add_node w uuid agent nm descr deps cond t_in t_out).1 in
  (add_node w uuid agent nm descr deps cond t_in t_out).2 = uuid ∧
  odict_get (nodes w') uuid =
    Some {| id := uuid; agent_id := agent_ident agent; name := nm;
            description := descr; dependencies := default [] deps;
            condition := cond; transform_input := t_in;
            transform_output := t_out |} ∧
  (∀ k, k ≠ uuid → odict_get (nodes w') k = odict_get (nodes w) k) ∧
  (uuid ∉ odict_keys (nodes w) →
   odict_keys (nodes w') = odict_keys (nodes w) ++ [uuid]) ∧
  is_Some (agents w' !! agent_ident agent) ∧
  (dangling w' ∨ cyclic w' →
   ∀ input_data, ∃ msg, execute w' input_data = Some (inl (ValueError msg), [])).
Proof.
  simpl. split; [done|]. split; [apply odict_get_set|].
  split; [intros k Hk; rewrite odict_get_set_ne by done;
          by destruct (decide _)|].
  split.
  { intros Hfresh. rewrite odict_keys_set_fresh; by destruct (decide _). }
  split.
  { destruct (decide _) as [?|?]; [done|]. simpl.
    rewrite lookup_insert_eq. eauto. }
  intros Hbad input. by apply execute_fails_fast.
Qed.

End workflow_claims.

Lemma execute_validates_first_witness :
  (dangling ab_cycle ∨ cyclic ab_cycle) ∧
  ∃ msg, execute ab_cycle None = Some (inl (ValueError msg), []).
Proof.
  assert (dangling ab_cycle ∨ cyclic ab_cycle) as H.
  { right. exists "A". apply tc_l with "B"; [|apply tc_once].
    - eexists. split; [reflexivity|]. simpl. left.
    - eexists. split; [reflexivity|]. simpl. left. }
  split; [exact H|]. exact (execute_validates_first ab_cycle None H).
Defined.

Lemma abc_validates : _validate abc = Some (inr ()).
Proof. vm_compute. reflexivity. Qed.

Lemma execution_order_topological_witness :
  ∃ order, _get_execution_order abc = Some (inr order) ∧
    NoDup order ∧ (∀ k, k ∈ order ↔ k ∈ odict_keys (nodes abc)) ∧
    topological abc order ∧
    (_validate abc = Some (inr ()) →
     ∀ input_data, execute abc input_data =
       Some (run_nodes abc (default ∅ input_data) order ∅ [])).
Proof.
  apply (execution_order_topological abc).
  - apply deps_exist_not_dangling. apply (validate_accepts abc). vm_compute. reflexivity.
  - apply (validate_accepts abc). vm_compute. reflexivity.
Defined.

Lemma guard_skip_witness :
  ∃ r : gmap string nat, r !! "a" = None ∧
  ∀ ds node_input key v,
    collect_inputs guarded ds r ∅ = inr node_input →
    node_input !! key = Some v →
    (∅ : gmap string nat) !! key = Some v ∨
    ∃ dep_id dep, dep_id ∈ ds ∧ dep_id ≠ "a" ∧ r !! dep_id = Some v ∧
      odict_get (nodes guarded) dep_id = Some dep ∧ name dep = key.
Proof.
  exists {[ "b" := 7 ]}.
  eapply (guard_skip guarded ∅ [] "a" ["b"] []); try (vm_compute; reflexivity).
Defined.

(** The claim as stated fails: the skipped node [a] has display name [A],
    the initial input has a key [A], and the merged input of the dependent
    [b] (the context it is called with) has that key. *)
Lemma guard_skip_key_present :
  ∃ node_a node_b ctx,
    odict_get (nodes guarded) "a" = Some node_a ∧
    odict_get (nodes guarded) "b" = Some node_b ∧
    "a" ∈ dependencies node_b ∧
    skipped node_a {[ "A" := 1 ]} ∅ = true ∧
    execute guarded (Some {[ "A" := 1 ]}) =
      Some (inr {[ "b" := 7 ]},
            [{| call_agent := "agent-7"; call_task := "B: ";
                call_context := ctx |}]) ∧
    collect_inputs guarded (dependencies node_b) ∅ {[ "A" := 1 ]} = inr ctx ∧
    ctx !! name node_a = Some 1.
Proof.
  do 2 eexists. exists {[ "A" := 1 ]}.
  split; [reflexivity|]. split; [reflexivity|].
  split; [simpl; left|]. split; [reflexivity|].
  split; [vm_compute; reflexivity|]. split; reflexivity.
Qed.

Lemma add_node_no_validation_witness :
  let w' := (add_node abc "D" echo "D" EmptyString (Some ["ghost"; "D"]) None None None).1 in
  odict_keys (nodes w') = ["A"; "B"; "C"; "D"] ∧
  ∃ msg, execute w' None = Some (inl (ValueError msg), []).
Proof.
  pose proof (add_node_no_validation abc "D" echo "D" EmptyString (Some ["ghost"; "D"])
                None None None) as (_ & Hget & _ & Hkeys & _ & Hexec).
  split.
  - apply Hkeys. vm_compute. intros H. repeat (apply elem_of_cons in H as [H|H]; [discriminate|]).
    by apply elem_of_nil in H.
  - apply Hexec. left. exists "D", "ghost". split; [|reflexivity].
    eexists. split; [exact Hget|]. simpl. left.
Defined.

End workflow_proofs.

(** ** Parsers *)

Section parser_proofs.
Import parser.

Section parser_facts.

Lemma has_dom {V} (d : gmap string V) key : has d key = true ↔ key ∈ dom d.
Proof. unfold has. rewrite bool_decide_eq_true. by rewrite elem_of_dom. Qed.

Lemma closed_empty p : closed p ∅.
Proof. intros key Hkey. set_solver. Qed.

(** Invariant of a loop that only updates the current group. *)
Lemma foldl_closed {V} p (step : gmap string V → re.Match → gmap string V) ms :
  (∀ c m, closed p (dom c) → closed p (dom (step c m))) →
  ∀ c, closed p (dom c) → closed p (dom (foldl step c ms)).
Proof. intros Hstep. induction ms as [|m ms IH]; simpl; auto. Qed.

(** Invariant of a loop that completes groups. *)
Lemma foldl_groups_closed {V} p
    (step : list (gmap string V) * gmap string V → re.Match →
            list (gmap string V) * gmap string V) ms :
  (∀ gs c m, Forall (closed p) (dom <$> gs) → closed p (dom c) →
     Forall (closed p) (dom <$> (step (gs, c) m).1) ∧
     closed p (dom (step (gs, c) m).2)) →
  ∀ gs c, Forall (closed p) (dom <$> gs) → closed p (dom c) →
    Forall (closed p) (dom <$> (foldl step (gs, c) ms).1) ∧
    closed p (dom (foldl step (gs, c) ms).2).
Proof.
  intros Hstep. induction ms as [|m ms IH]; simpl; [done|].
  intros gs c Hgs Hc. destruct (Hstep gs c m Hgs Hc) as [H1 H2].
  destruct (step (gs, c) m) as [gs' c']. by apply IH.
Qed.

Lemma Forall_closed_snoc {V} p (gs : list (gmap string V)) c :
  Forall (closed p) (dom <$> gs) → closed p (dom c) →
  Forall (closed p) (dom <$> (gs ++ [c])).
Proof.
  intros Hgs Hc. rewrite fmap_app. apply Forall_app. split; [done|].
  by apply Forall_singleton.
Qed.

Lemma closed_insert {V} p (c : gmap string V) key v :
  closed p (dom c) → (∀ q, q ∈ predecessors p key → q ∈ dom c) →
  closed p (dom (<[key := v]> c)).
Proof.
  intros Hc Hpre. rewrite dom_insert_L. intros key' Hkey' q Hq.
  apply elem_of_union in Hkey' as [->%elem_of_singleton|Hkey'].
  - apply elem_of_union_r. auto.
  - apply elem_of_union_r. eapply Hc; eauto.
Qed.

Lemma closed_singleton {V} p key (v : V) :
  predecessors p key = [] → closed p (dom ({[ key := v ]} : gmap string V)).
Proof.
  intros Hpre. rewrite dom_singleton_L. intros key' ->%elem_of_singleton q.
  rewrite Hpre. by intros ?%elem_of_nil.
Qed.

(** Discharges "the predecessors of this field are in the group" from the
    [has] tests that guard the update. *)
Ltac preds_tac :=
  intros q Hq;
  match type of Hq with
  | _ ∈ ?l => let l' := eval vm_compute in l in change (q ∈ l') in Hq
  end;
  repeat match goal with
         | H : _ && _ = true |- _ => apply andb_true_iff in H as [? ?]
         end;
  repeat match goal with
         | H : has _ _ = true |- _ => apply has_dom in H
         end;
  repeat (apply elem_of_cons in Hq as [->|Hq]; [done|]);
  by apply elem_of_nil in Hq.

Ltac step_tac step :=
  unfold step;
  repeat match goal with
         | |- context [if ?b && _ then _ else _] =>
             let E := fresh "E" in destruct b eqn:E; simpl; [|done]
         | |- context [if ?b then _ else _] =>
             let E := fresh "E" in destruct b eqn:E; simpl; [|done]
         end.

Lemma react_closed text :
  Forall (closed ReAct) (dom <$> ReActParser.cycles (ReActParser.parse text)).
Proof.
  unfold ReActParser.parse.
  set (c1 := foldl ReActParser.thought_step ∅ _).
  set (c2 := foldl ReActParser.action_step c1 _).
  assert (closed ReAct (dom c1)) as H1.
  { apply foldl_closed; [|rewrite dom_empty_L; apply closed_empty].
    intros c m Hc. step_tac ReActParser.thought_step.
    by apply closed_singleton. }
  assert (closed ReAct (dom c2)) as H2.
  { apply foldl_closed; [|done]. intros c m Hc.
    step_tac ReActParser.action_step. apply closed_insert; [done|preds_tac]. }
  assert (∀ gs c m, Forall (closed ReAct) (dom <$> gs) → closed ReAct (dom c) →
     Forall (closed ReAct) (dom <$> (ReActParser.observation_step (gs, c) m).1) ∧
     closed ReAct (dom (ReActParser.observation_step (gs, c) m).2)) as Hstep.
  { intros gs c m Hgs Hc. step_tac ReActParser.observation_step.
    split; [|rewrite dom_empty_L; apply closed_empty].
    apply Forall_closed_snoc; [done|]. apply closed_insert; [done|preds_tac]. }
  pose proof (foldl_groups_closed ReAct _
                (re.finditer re.dotall ReActParser.observation_re text)
                Hstep [] c2 ltac:(constructor) H2) as [Hgs Hc3].
  simpl. destruct (_ && _); [by apply Forall_closed_snoc|done].
Qed.

Ltac groups_tac step ms c H :=
  let Hstep := fresh "Hstep" in
  match goal with
  | |- Forall (closed ?p) _ =>
    assert (∀ gs c m, Forall (closed p) (dom <$> gs) → closed p (dom c) →
       Forall (closed p) (dom <$> (step (gs, c) m).1) ∧
       closed p (dom (step (gs, c) m).2)) as Hstep;
    [ intros gs c' m Hgs Hc; step_tac step;
      split; [|rewrite dom_empty_L; apply closed_empty];
      apply Forall_closed_snoc; [done|]; apply closed_insert; [done|preds_tac]
    | pose proof (foldl_groups_closed p _ ms Hstep [] c ltac:(constructor) H)
        as [? ?];
      done ]
  end.

Lemma ooda_closed text :
  Forall (closed OODA) (dom <$> OODAParser.loops (OODAParser.parse text)).
Proof.
  unfold OODAParser.parse.
  set (c1 := foldl OODAParser.observation_step ∅ _).
  set (c2 := foldl OODAParser.orientation_step c1 _).
  set (c3 := foldl OODAParser.decision_step c2 _).
  assert (closed OODA (dom c1)) as H1.
  { apply foldl_closed; [|rewrite dom_empty_L; apply closed_empty].
    intros c m Hc. step_tac OODAParser.observation_step.
    by apply closed_singleton. }
  assert (closed OODA (dom c2)) as H2.
  { apply foldl_closed; [|done]. intros c m Hc.
    step_tac OODAParser.orientation_step.
    apply closed_insert; [done|preds_tac]. }
  assert (closed OODA (dom c3)) as H3.
  { apply foldl_closed; [|done]. intros c m Hc.
    step_tac OODAParser.decision_step.
    apply closed_insert; [done|preds_tac]. }
  groups_tac OODAParser.action_step
    (re.finditer re.dotall OODAParser.action_re text) c3 H3.
Qed.

Lemma bdi_closed text :
  Forall (closed BDI) (dom <$> BDIParser.cycles (BDIParser.parse text)).
Proof.
  unfold BDIParser.parse.
  set (c1 := foldl BDIParser.beliefs_step ∅ _).
  set (c2 := foldl BDIParser.desires_step c1 _).
  set (c3 := foldl BDIParser.intentions_step c2 _).
  assert (closed BDI (dom c1)) as H1.
  { apply foldl_closed; [|rewrite dom_empty_L; apply closed_empty].
    intros c m Hc. step_tac BDIParser.beliefs_step.
    by apply closed_singleton. }
  assert (closed BDI (dom c2)) as H2.
  { apply foldl_closed; [|done]. intros c m Hc.
    step_tac BDIParser.desires_step.
    apply closed_insert; [done|preds_tac]. }
  assert (closed BDI (dom c3)) as H3.
  { apply foldl_closed; [|done]. intros c m Hc.
    step_tac BDIParser.intentions_step.
    apply closed_insert; [done|preds_tac]. }
  groups_tac BDIParser.execution_step
    (re.finditer re.dotall BDIParser.execution_re text) c3 H3.
Qed.

Lemma lat_closed text :
  Forall (closed LAT) (dom <$> LATParser.nodes (LATParser.parse text)).
Proof.
  unfold LATParser.parse.
  set (c1 := foldl LATParser.problem_step ∅ _).
  set (c2 := foldl LATParser.branches_step c1 _).
  assert (closed LAT (dom c1)) as H1.
  { apply foldl_closed; [|rewrite dom_empty_L; apply closed_empty].
    intros c m Hc. step_tac LATParser.problem_step.
    by apply closed_singleton. }
  assert (closed LAT (dom c2)) as H2.
  { apply foldl_closed; [|done]. intros c m Hc.
    step_tac LATParser.branches_step.
    apply closed_insert; [done|preds_tac]. }
  groups_tac LATParser.selection_step
    (re.finditer re.dotall LATParser.selection_re text) c2 H2.
Qed.

Lemma groups_closed p text : Forall (closed p) (groups_of (parse p text)).
Proof.
  destruct p; cbn [groups_of parse];
    [apply react_closed|apply ooda_closed|apply bdi_closed|apply lat_closed
    |constructor..].
Qed.

(** *** Texts without a label *)

Lemma skip_lit_startswith l s s' :
  re.skip_lit re.dotall l s = Some s' → py.startswith s l = true.
Proof.
  revert s. induction l as [|p l IH]; intros [|c s]; simpl; try done.
  unfold re.char_eq. simpl. case_bool_decide as Hpc; [|done].
  subst. rewrite decide_True by done. apply IH.
Qed.

Lemma match_at_label l r s :
  py.startswith s l = false → re.match_at re.dotall (re.Lit l ⋅ r) s = None.
Proof.
  intros Hs. unfold re.match_at. simpl.
  destruct (re.skip_lit re.dotall l s) as [s'|] eqn:Hskip; [|done].
  apply skip_lit_startswith in Hskip. congruence.
Qed.

Lemma finditer_no_label l r s :
  py.contains s l = false → re.finditer re.dotall (re.Lit l ⋅ r) s = [].
Proof.
  unfold re.finditer. induction s as [|c s IH]; cbn [py.contains re.finditer_from];
    intros [Hs Hc]%orb_false_iff; rewrite (match_at_label _ _ _ Hs); [done|].
  by apply IH.
Qed.

Lemma react_no_thought text :
  py.contains text "Thought:" = false →
  ReActParser.cycles (ReActParser.parse text) = [].
Proof.
  intros Hno. unfold ReActParser.parse.
  unfold ReActParser.thought_re. rewrite (finditer_no_label _ _ _ Hno).
  cbn [foldl].
  assert (∀ ms, foldl ReActParser.action_step ∅ ms = ∅) as ->.
  { induction ms as [|m ms IH]; cbn [foldl]; [done|].
    replace (ReActParser.action_step ∅ m) with (∅ : gmap string string); [done|].
    unfold ReActParser.action_step. by destruct (nonempty _). }
  assert (∀ ms, foldl ReActParser.observation_step ([], ∅) ms = ([], ∅)) as ->.
  { induction ms as [|m ms IH]; cbn [foldl]; [done|].
    replace (ReActParser.observation_step ([], ∅) m)
      with (([], ∅) : list (gmap string string) * gmap string string); [done|].
    unfold ReActParser.observation_step. by destruct (nonempty _). }
  done.
Qed.

End parser_facts.

(** C3.  For every valid strategy tag, in any letter case, [create_parser]
    yields a parser, and for every text, the empty one included, [parse]
    returns a record whose raw text is the text it was given; [parse] is a
    total function, it has no way to raise. *)
Theorem parse_keeps_raw_text architecture text :
  py.lower architecture ∈ ["react"; "ooda"; "bdi"; "lat"; "raise"; "rewoo"] →
  ∃ p, create_parser architecture = inr p ∧ raw_response (parse p text) = text.
Proof.
  intros Htag. unfold create_parser.
  assert (∀ p, raw_response (parse p text) = text) as Hraw by (by intros []).
  repeat (apply elem_of_cons in Htag as [->|Htag]; [eexists; split; [reflexivity|apply Hraw]|]).
  by apply elem_of_nil in Htag.
Qed.

Lemma parse_keeps_raw_text_witness :
  ∃ p, create_parser "ReAct" = inr p ∧
       raw_response (parse p "no label in this text") = "no label in this text".
Proof.
  apply (parse_keeps_raw_text "ReAct" "no label in this text").
  vm_compute. left.
Defined.

(** C4, as amended.  Every group of the record has, for each of its
    fields, the fields that the grammar puts before it in a group (presence
    in the group, whatever the positions of the labels in the text); and a
    text in which the label [Thought:] occurs nowhere gives the ReAct parser
    no group at all. *)
Theorem groups_have_predecessors :
  (∀ p text g key q,
     g ∈ groups_of (parse p text) → key ∈ g → q ∈ predecessors p key → q ∈ g) ∧
  (∀ text, py.contains text "Thought:" = false →
     ReActParser.cycles (ReActParser.parse text) = []).
Proof.
  split; [|apply react_no_thought].
  intros p text g key q Hg Hkey Hq.
  pose proof (groups_closed p text) as Hall.
  rewrite Forall_forall in Hall. by eapply (Hall g Hg).
Qed.

Lemma groups_have_predecessors_witness :
  ReActParser.cycles (ReActParser.parse "Action: X") = [].
Proof.
  apply (proj2 groups_have_predecessors). vm_compute. reflexivity.
Defined.

(** The claim as stated fails: this text starts with [Action: X], so no
    label precedes it, the label [Thought:] comes after it, and the parser
    returns a group that has the action. *)
Lemma action_without_preceding_thought :
  let text := "Action: X Thought: T" in
  py.startswith text "Action: X" = true ∧
  ∃ g, g ∈ ReActParser.cycles (ReActParser.parse text) ∧
       g !! "action" = Some "X".
Proof.
  split; [reflexivity|].
  exists {[ "thought" := "T"; "action" := "X" ]}. split; [|reflexivity].
  vm_compute. left.
Qed.

End parser_proofs.

(** ** Agents *)

Section agent_proofs.
Import base llm.
Import agent_examples.

Section string_facts.
Local Arguments String.append !_ _ /.

Lemma sapp_nil_r s : s +:+ EmptyString = s.
Proof. induction s; simpl; [done|by f_equal]. Qed.

Lemma sapp_assoc s1 s2 s3 : (s1 +:+ s2) +:+ s3 = s1 +:+ (s2 +:+ s3).
Proof. induction s1; simpl; [done|by f_equal]. Qed.

Lemma slength_app s1 s2 :
  String.length (s1 +:+ s2) = String.length s1 + String.length s2.
Proof. induction s1; simpl; lia. Qed.

Lemma lower_app s1 s2 : py.lower (s1 +:+ s2) = py.lower s1 +:+ py.lower s2.
Proof. induction s1; simpl; [done|by f_equal]. Qed.

Lemma lower_length s : String.length (py.lower s) = String.length s.
Proof. induction s; simpl; lia. Qed.

Lemma startswith_spec s p :
  py.startswith s p = true ↔ ∃ post, s = p +:+ post.
Proof.
  revert s. induction p as [|a p IH]; intros s; simpl.
  - split; [intros _; by exists s|done].
  - destruct s as [|b s].
    + split; [done|]. by intros [post ?].
    + case_decide as Hab.
      * subst. rewrite IH. split.
        -- intros [post ->]. by exists post.
        -- intros [post [= ->]]. by exists post.
      * split; [done|]. intros [post [= ? ?]]. congruence.
Qed.

Lemma contains_spec s p :
  py.contains s p = true ↔ ∃ pre post, s = pre +:+ p +:+ post.
Proof.
  induction s as [|c s IH]; cbn [py.contains];
    rewrite orb_true_iff, startswith_spec.
  - split.
    + intros [[post ->]|?]; [|done]. by exists EmptyString, post.
    + intros (pre & post & H). left. destruct pre; [by exists post|done].
  - rewrite IH. split.
    + intros [[post ->]|(pre & post & ->)]; [by exists EmptyString, post|].
      by exists (String c pre), post.
    + intros (pre & post & H). destruct pre as [|c' pre]; simpl in H.
      * left. eauto.
      * injection H as -> ->. right. eauto.
Qed.

Lemma take_all s : py.take (String.length s) s = s.
Proof. induction s; simpl; [done|by f_equal]. Qed.

Lemma consumed_all s : re.consumed s EmptyString = s.
Proof. unfold re.consumed. simpl. rewrite Nat.sub_0_r. apply take_all. Qed.

(** A literal matched without regard to case. *)
Lemma skip_lit_ci l s s' :
  re.skip_lit re.ignorecase_dotall l s = Some s' ↔
  ∃ mk, s = mk +:+ s' ∧ py.lower mk = py.lower l.
Proof.
  revert s. induction l as [|p l IH]; intros s; simpl.
  - split.
    + intros [= ->]. by exists EmptyString.
    + intros (mk & -> & Hmk). by destruct mk.
  - destruct s as [|c s].
    + split; [done|]. intros (mk & Hs & Hmk). by destruct mk.
    + unfold re.char_eq. simpl. case_bool_decide as Hpc.
      * rewrite IH. split.
        -- intros (mk & -> & Hmk). exists (String c mk). simpl. by rewrite Hmk, Hpc.
        -- intros (mk & Hs & Hmk). destruct mk as [|c' mk]; [done|].
           simpl in *. injection Hs as -> ->. injection Hmk as _ Hmk. eauto.
      * split; [done|]. intros (mk & Hs & Hmk). destruct mk as [|c' mk]; [done|].
        simpl in *. injection Hs as -> ->. injection Hmk as Hc _. congruence.
Qed.

Lemma star_all {A} (p : ascii → bool) (k : string → option A) s x :
  k EmptyString = Some x → (∀ c, p c = true) → re.star p k s = Some x.
Proof.
  intros Hk Hp. induction s as [|c s IH]; simpl; [done|].
  by rewrite Hp, IH.
Qed.

(** A match of the final-answer pattern at the start of a text. *)
Lemma final_answer_match_at s :
  match re.skip_lit re.ignorecase_dotall "final answer" s with
  | Some s1 =>
      ∃ m, re.match_at re.ignorecase_dotall final_answer_re s = Some m ∧
           re.group m 1 = drop_colon s1
  | None => re.match_at re.ignorecase_dotall final_answer_re s = None
  end.
Proof.
  unfold re.match_at, final_answer_re. cbn [re.mt].
  destruct (re.skip_lit _ "final answer" s) as [s1|]; [|done].
  destruct s1 as [|c s2]; [eexists; split; reflexivity|].
  cbn [re.skip_lit]. unfold re.char_eq. cbn [re.IGNORECASE re.ignorecase_dotall].
  case_bool_decide as Hc.
  - assert (c = ":"%char) as ->.
    { revert Hc. clear. unfold py.lower_char, py.code.
      destruct c as [[] [] [] [] [] [] [] []]; vm_compute; congruence. }
    erewrite star_all; [eexists; split; [reflexivity|]|reflexivity|done].
    unfold re.group. cbn [re.groups]. rewrite lookup_insert_eq.
    apply consumed_all.
  - assert (c ≠ ":"%char) as Hne by (intros ->; apply Hc; reflexivity).
    erewrite star_all; [eexists; split; [reflexivity|]|reflexivity|done].
    unfold re.group. cbn [re.groups]. rewrite lookup_insert_eq.
    cbn [default from_option]. rewrite consumed_all.
    destruct c as [[] [] [] [] [] [] [] []]; try done.
Qed.

(** The leftmost marker is the one [search] finds. *)
Lemma final_answer_search pre : ∀ text mk rest,
  text = pre +:+ mk +:+ rest → py.lower mk = "final answer" →
  (∀ pre' mk' rest', text = pre' +:+ mk' +:+ rest' →
     py.lower mk' = "final answer" → String.length pre ≤ String.length pre') →
  ∃ m, re.search re.ignorecase_dotall final_answer_re text = Some m ∧
       re.group m 1 = drop_colon rest.
Proof.
  induction pre as [|c pre IH]; intros text mk rest Htext Hmk Hfirst.
  - simpl in Htext. pose proof (final_answer_match_at text) as Hm.
    assert (re.skip_lit re.ignorecase_dotall "final answer" text = Some rest) as Hs.
    { apply skip_lit_ci. eauto. }
    rewrite Hs in Hm. destruct Hm as (m & Hm & Hg). exists m.
    split; [|done]. destruct text; cbn [re.search]; by rewrite Hm.
  - simpl in Htext. subst text. cbn [re.search].
    pose proof (final_answer_match_at (String c (pre +:+ mk +:+ rest))) as Hm.
    destruct (re.skip_lit _ _ (String c _)) as [s1|] eqn:Hs.
    { apply skip_lit_ci in Hs as (mk' & Hs & Hmk').
      specialize (Hfirst EmptyString mk' s1 Hs Hmk'). simpl in Hfirst. lia. }
    rewrite Hm. apply (IH _ mk rest eq_refl Hmk).
    intros pre' mk' rest' Htext' Hmk'.
    specialize (Hfirst (String c pre') mk' rest'). simpl in Hfirst.
    rewrite Htext' in Hfirst. specialize (Hfirst eq_refl Hmk'). lia.
Qed.

Lemma final_answer_search_none text :
  py.contains (py.lower text) "final answer" = false →
  re.search re.ignorecase_dotall final_answer_re text = None.
Proof.
  induction text as [|c text IH]; intros Hno.
  - reflexivity.
  - cbn [re.search].
    pose proof (final_answer_match_at (String c text)) as Hm.
    destruct (re.skip_lit _ _ (String c _)) as [s1|] eqn:Hs.
    { apply skip_lit_ci in Hs as (mk & Hs & Hmk). exfalso.
      assert (py.contains (py.lower (String c text)) "final answer" = true);
        [|congruence].
      apply contains_spec. exists EmptyString, (py.lower s1).
      rewrite Hs, lower_app, Hmk. reflexivity. }
    rewrite Hm. apply IH.
    cbn [py.lower py.contains] in Hno. by apply orb_false_iff in Hno as [_ ?].
Qed.

End string_facts.

Section run_facts.
Context {W : World}.

Lemma bind_run {A B} (m : M A) (f : A → M B) g n a n' :
  m g n = (inr a, n') → bind m f g n = f a g n'.
Proof. unfold bind. by intros ->. Qed.

Lemma bind_raise {A B} (m : M A) (f : A → M B) g n e n' :
  m g n = (inl e, n') → bind m f g n = (inl e, n').
Proof. unfold bind. by intros ->. Qed.

Lemma generate_run g n r : g n = inr r → generate g n = (inr r, S n).
Proof. unfold generate. by intros ->. Qed.

Lemma stage_run {A} (f : string → A) g n r :
  g n = inr r → bind generate (λ response, ret (f response)) g n = (inr (f r), S n).
Proof. intros H. by rewrite (bind_run _ _ _ _ _ _ (generate_run _ _ _ H)). Qed.

End run_facts.

(** Rewrites the next gateway call of a run with the response assumed for
    it. *)
Ltac run_stage :=
  erewrite bind_run; [|apply stage_run; eassumption].

Section agent_runs.
Context {W : World}.

(** One pass of the OODA loop, the gateway having answered its four
    calls. *)
Lemma ooda_iteration_run (self : ooda.OODAAgent W) st g n r0 r1 r2 r3 :
  g n = inr r0 → g (S n) = inr r1 → g (S (S n)) = inr r2 →
  g (S (S (S n))) = inr r3 →
  ∃ st', ooda.iteration self st g n = (inr st', S (S (S (S n)))) ∧
    ooda.iterations st' = (ooda.iterations st + 1)%Z ∧
    ooda.is_done st' = (completion_of r3).1 ∧
    ooda.final_answer st' = (completion_of r3).2.
Proof.
  intros H0 H1 H2 H3. unfold ooda.iteration.
  unfold ooda._process_stage, ooda._check_completion.
  do 4 run_stage. eexists. split; [reflexivity|]. done.
Qed.

Lemma bdi_iteration_run (self : bdi.BDIAgent W) st g n r0 r1 r2 r3 r4 :
  g n = inr r0 → g (S n) = inr r1 → g (S (S n)) = inr r2 →
  g (S (S (S n))) = inr r3 → g (S (S (S (S n)))) = inr r4 →
  ∃ st', bdi.iteration self st g n = (inr st', S (S (S (S (S n))))) ∧
    bdi.iterations st' = (bdi.iterations st + 1)%Z ∧
    bdi.is_done st' = (completion_of r4).1 ∧
    bdi.final_answer st' = (completion_of r4).2.
Proof.
  intros H0 H1 H2 H3 H4. unfold bdi.iteration.
  unfold bdi._update_beliefs, bdi._generate_desires, bdi._filter_to_intentions,
    bdi._select_actions, bdi._check_completion.
  do 5 run_stage. eexists. split; [reflexivity|]. done.
Qed.

Lemma next_step_final_answer response :
  react.next_step_of response !! "final_answer" =
  if parser.nonempty (parser.ReActParser.final_answer (parser.ReActParser.parse response))
  then Some (parser.ReActParser.final_answer (parser.ReActParser.parse response))
  else None.
Proof.
  unfold react.next_step_of.
  set (fa := parser.ReActParser.final_answer _).
  set (base := match last _ with Some _ => _ | None => _ end).
  assert (base !! "final_answer" = None) as Hbase.
  { subst base. destruct (last _) as [c|]; [|done].
    destruct (c !! "thought"), (c !! "action"); by simplify_map_eq. }
  destruct (parser.nonempty fa) eqn:Hfa.
  - assert (parser.nonempty_dict (<["final_answer" := fa]> base) = true) as ->.
    { unfold parser.nonempty_dict. rewrite negb_true_iff, bool_decide_eq_false.
      intros Hd. apply (f_equal (λ m, m !! "final_answer")) in Hd.
      by simplify_map_eq. }
    by simplify_map_eq.
  - destruct (parser.nonempty_dict base); [done|]. by simplify_map_eq.
Qed.

Lemma react_iteration_run (self : react.ReActAgent W) st g n r0 :
  g n = inr r0 →
  ∃ st', react.iteration self st g n = (inr st', S n) ∧
    react.iterations st' = (react.iterations st + 1)%Z ∧
    (parser.nonempty (parser.ReActParser.final_answer (parser.ReActParser.parse r0)) = false →
     react.is_done st' = react.is_done st ∧
     react.final_answer st' = react.final_answer st) ∧
    (parser.nonempty (parser.ReActParser.final_answer (parser.ReActParser.parse r0)) = true →
     react.is_done st' = true ∧
     react.final_answer st' =
       parser.ReActParser.final_answer (parser.ReActParser.parse r0)).
Proof.
  intros H0. unfold react.iteration, react._get_next_step.
  run_stage. eexists. split; [reflexivity|]. cbn [react.iterations
    react.is_done react.final_answer]. split; [done|].
  unfold react.conclude. rewrite next_step_final_answer.
  split; intros Hfa; rewrite Hfa; [done|]. by rewrite Hfa.
Qed.

(** Runs of one iteration that do not complete. *)

Lemma react_exhausted (self : react.ReActAgent W) task context responses :
  react.max_iterations self = 1%Z →
  parser.nonempty (parser.ReActParser.final_answer
                     (parser.ReActParser.parse (responses 0))) = false →
  ∃ result, react.execute self task context (λ n, inr (responses n)) 0
            = (inr result, 2) ∧
    output result = not_completed +:+ responses 1 ∧
    metadata result !! "iterations" = Some (PInt 1).
Proof.
  intros Hmax Hno. unfold react.execute. rewrite Hmax.
  change (Z.to_nat 1) with 1. cbn [react.main_loop react.is_done].
  set (g := λ n, inr (responses n)).
  destruct (react_iteration_run self
              {| react.context := react._set_up_initial_context self task context;
                 react.iterations := 0; react.is_done := false;
                 react.final_answer := EmptyString; react.intermediate_steps := [] |}
              g 0 (responses 0) eq_refl)
    as (st' & Hit & Hn & Hd & _).
  destruct (Hd Hno) as [Hdone _]. cbn [react.is_done] in Hdone.
  erewrite bind_run; [|erewrite bind_run by exact Hit; rewrite Hdone; reflexivity].
  rewrite Hdone. unfold react._generate_partial_answer.
  erewrite bind_run; [|erewrite bind_run by (by apply stage_run); reflexivity].
  cbn [ret]. eexists. split; [reflexivity|]. cbn [output metadata].
  split; [done|]. rewrite Hn. by simplify_map_eq.
Qed.

Lemma ooda_exhausted (self : ooda.OODAAgent W) task context responses :
  ooda.max_iterations self = 1%Z →
  says_complete (responses 3) = false →
  ∃ result, ooda.execute self task context (λ n, inr (responses n)) 0
            = (inr result, 5) ∧
    output result = not_completed +:+ responses 4 ∧
    metadata result !! "iterations" = Some (PInt 1).
Proof.
  intros Hmax Hno. unfold ooda.execute. rewrite Hmax.
  change (Z.to_nat 1) with 1. cbn [ooda.main_loop ooda.is_done].
  set (g := λ n, inr (responses n)).
  destruct (ooda_iteration_run self
              {| ooda.context := ooda._initialize_context self task context;
                 ooda.iterations := 0; ooda.is_done := false;
                 ooda.final_answer := EmptyString; ooda.intermediate_steps := [] |}
              g 0 _ _ _ _ eq_refl eq_refl eq_refl eq_refl)
    as (st' & Hit & Hn & Hd & _).
  unfold completion_of in Hd. cbn [fst] in Hd. rewrite Hno in Hd.
  erewrite bind_run; [|erewrite bind_run by exact Hit; rewrite Hd; reflexivity].
  rewrite Hd. unfold ooda._generate_partial_answer.
  erewrite bind_run; [|erewrite bind_run by (by apply stage_run); reflexivity].
  cbn [ret]. eexists. split; [reflexivity|]. cbn [output metadata].
  split; [done|]. rewrite Hn. by simplify_map_eq.
Qed.

Lemma bdi_exhausted (self : bdi.BDIAgent W) task context responses :
  bdi.max_iterations self = 1%Z →
  says_complete (responses 4) = false →
  ∃ result, bdi.execute self task context (λ n, inr (responses n)) 0
            = (inr result, 6) ∧
    output result = not_completed +:+ responses 5 ∧
    metadata result !! "iterations" = Some (PInt 1).
Proof.
  intros Hmax Hno. unfold bdi.execute. rewrite Hmax.
  change (Z.to_nat 1) with 1. cbn [bdi.main_loop bdi.is_done].
  set (g := λ n, inr (responses n)).
  destruct (bdi_iteration_run self
              {| bdi.context := bdi._initialize_context self task context;
                 bdi.iterations := 0; bdi.is_done := false;
                 bdi.final_answer := EmptyString; bdi.intermediate_steps := [] |}
              g 0 _ _ _ _ _ eq_refl eq_refl eq_refl eq_refl eq_refl)
    as (st' & Hit & Hn & Hd & _).
  unfold completion_of in Hd. cbn [fst] in Hd. rewrite Hno in Hd.
  erewrite bind_run; [|erewrite bind_run by exact Hit; rewrite Hd; reflexivity].
  rewrite Hd. unfold bdi._generate_partial_answer.
  erewrite bind_run; [|by apply stage_run].
  cbn [ret]. eexists. split; [reflexivity|]. cbn [output metadata].
  split; [done|]. rewrite Hn. by simplify_map_eq.
Qed.

Lemma update_scratch_pad_cases pad section content :
  (∃ pad', raise_agent._update_scratch_pad pad section content = inr pad') ∨
  raise_agent._update_scratch_pad pad section content
    = inl (IndexError "list index out of range").
Proof.
  unfold raise_agent._update_scratch_pad.
  destruct (re.search _ _ _); [|eauto].
  destruct (py.split_once pad _) as [before [after|]]; [|eauto].
  destruct (py.split_once after _) as [? [?|]]; eauto.
Qed.

Lemma says_complete_no_yes response :
  says_complete response = false →
  py.contains (py.take 100 (py.lower response)) "yes" = false.
Proof. unfold says_complete. by intros [? _]%orb_false_iff. Qed.

Lemma raise_iteration_run (self : raise_agent.RAISEAgent W) st responses n :
  (∀ k, says_complete (responses k) = false) →
  (∃ st', raise_agent.iteration self st (λ k, inr (responses k)) n
          = (inr st', raise_agent.iteration_calls self + n) ∧
     raise_agent.iterations st' = (raise_agent.iterations st + 1)%Z ∧
     raise_agent.is_done st' = false) ∨
  (∃ n', raise_agent.iteration self st (λ k, inr (responses k)) n
         = (inl (IndexError "list index out of range"), n')).
Proof.
  intros Hno. set (g := λ k, inr (responses k)).
  unfold raise_agent.iteration, raise_agent._generate_llm_step.
  erewrite bind_run; [|by apply stage_run].
  destruct (update_scratch_pad_cases (raise_agent.pad st) "Examples" (responses n))
    as [[pad1 ->]| ->]; [|right; eauto].
  cbn [bind lift].
  erewrite bind_run; [|by apply stage_run].
  destruct (update_scratch_pad_cases pad1 "Thoughts" (responses (S n)))
    as [[pad2 ->]| ->]; [|right; eauto].
  cbn [bind lift].
  unfold raise_agent._should_use_tools, raise_agent.iteration_calls.
  case_bool_decide as Htools.
  - cbn [bind ret].
    erewrite bind_run; [|by apply stage_run].
    destruct (raise_agent.looks_like_pad (responses (S (S n)))).
    + cbn [bind ret]. unfold raise_agent._check_completion.
      erewrite bind_run; [|by apply stage_run]. cbn [ret].
      left. eexists. split; [reflexivity|]. split; [done|].
      cbn [raise_agent.is_done]. unfold completion_of. cbn [fst]. apply Hno.
    + destruct (update_scratch_pad_cases pad2 "Progress Summary"
                  (responses (S (S n)))) as [[pad3 ->]| ->]; [|right; eauto].
      cbn [bind lift]. unfold raise_agent._check_completion.
      erewrite bind_run; [|by apply stage_run]. cbn [ret].
      left. eexists. split; [reflexivity|]. split; [done|].
      cbn [raise_agent.is_done]. unfold completion_of. cbn [fst]. apply Hno.
  - erewrite bind_run; [|by apply stage_run].
    rewrite (says_complete_no_yes _ (Hno _)). cbn [bind ret].
    erewrite bind_run; [|by apply stage_run].
    destruct (raise_agent.looks_like_pad (responses (S (S (S n))))).
    + cbn [bind ret]. unfold raise_agent._check_completion.
      erewrite bind_run; [|by apply stage_run]. cbn [ret].
      left. eexists. split; [reflexivity|]. split; [done|].
      cbn [raise_agent.is_done]. unfold completion_of. cbn [fst]. apply Hno.
    + destruct (update_scratch_pad_cases pad2 "Progress Summary"
                  (responses (S (S (S n))))) as [[pad3 ->]| ->]; [|right; eauto].
      cbn [bind lift]. unfold raise_agent._check_completion.
      erewrite bind_run; [|by apply stage_run]. cbn [ret].
      left. eexists. split; [reflexivity|]. split; [done|].
      cbn [raise_agent.is_done]. unfold completion_of. cbn [fst]. apply Hno.
Qed.

Lemma raise_exhausted (self : raise_agent.RAISEAgent W) task context responses :
  raise_agent.max_iterations self = 1%Z →
  (∀ k, says_complete (responses k) = false) →
  (∃ result,
     raise_agent.execute self task context (λ n, inr (responses n)) 0
       = (inr result, S (S (raise_agent.iteration_calls self))) ∧
     output result = not_completed +:+ responses (S (raise_agent.iteration_calls self)) ∧
     metadata result !! "iterations" = Some (PInt 1)) ∨
  (∃ n', raise_agent.execute self task context (λ n, inr (responses n)) 0
         = (inl (IndexError "list index out of range"), n')).
Proof.
  intros Hmax Hno. unfold raise_agent.execute. rewrite Hmax.
  change (Z.to_nat 1) with 1. set (g := λ n, inr (responses n)).
  unfold raise_agent._initialize_scratch_pad, raise_agent._generate_llm_step.
  set (c0 := raise_agent._initialize_context self task context).
  assert (∃ pad0, bind (bind generate (λ response, ret response))
            (λ response, if negb (py.contains response "Scratch Pad")
                            && negb (py.startswith (py.strip response) "#")
                         then ret (raise_agent.basic_pad self c0)
                         else ret response) g 0 = (inr pad0, 1))
    as [pad0 Hpad].
  { erewrite bind_run; [|by apply stage_run].
    destruct (_ && _); eexists; reflexivity. }
  erewrite bind_run; [|exact Hpad].
  cbn [raise_agent.main_loop raise_agent.is_done].
  match goal with
  | |- context [raise_agent.iteration self ?st0] =>
      destruct (raise_iteration_run self st0 responses 1 Hno)
        as [(st' & Hit & Hn & Hd)|(n' & Hit)]
  end.
  - left. fold g in Hit.
    erewrite bind_run; [|erewrite bind_run by exact Hit; rewrite Hd; reflexivity].
    rewrite Hd. unfold raise_agent._generate_partial_answer.
    erewrite bind_run; [|erewrite bind_run by (by apply stage_run); reflexivity].
    cbn [ret]. eexists.
    replace (raise_agent.iteration_calls self + 1) with (S (raise_agent.iteration_calls self)) by lia.
    split; [reflexivity|]. cbn [output metadata].
    split; [done|]. rewrite Hn. by simplify_map_eq.
  - right. fold g in Hit. exists n'.
    erewrite bind_raise; [done|]. erewrite bind_raise; [done|exact Hit].
Qed.

End agent_runs.






Section runs_facts.
Context {W : World}.
Implicit Types (g : Gateway) (E : pyexn → Prop).

Lemma runs_ret {A} E g (a : A) (P : A → Prop) : P a → runs E g (ret a) P.
Proof. intros Ha n. left. by exists a, n. Qed.

Lemma runs_bind {A B} E g (m : M A) (f : A → M B) (Q : A → Prop) (P : B → Prop) :
  runs E g m Q → (∀ a, Q a → runs E g (f a) P) → runs E g (bind m f) P.
Proof.
  intros Hm Hf n. destruct (Hm n) as [(a & n' & Hrun & Ha)|(e & n' & Hrun & He)].
  - rewrite (bind_run _ _ _ _ _ _ Hrun). by apply Hf.
  - right. exists e, n'. by rewrite (bind_raise _ _ _ _ _ _ Hrun).
Qed.

Lemma runs_weaken {A} E g (m : M A) (P Q : A → Prop) :
  (∀ a, P a → Q a) → runs E g m P → runs E g m Q.
Proof.
  intros HPQ Hm n. destruct (Hm n) as [(a & n' & Hrun & Ha)|?]; [|by right].
  left. exists a, n'. auto.
Qed.

Lemma runs_generate E g : answers g → runs E g generate (λ _, True).
Proof.
  intros Hg n. destruct (Hg n) as [r Hr]. left. exists r, (S n).
  by rewrite (generate_run _ _ _ Hr).
Qed.

Lemma runs_stage {A} E g (f : string → A) :
  answers g → runs E g (bind generate (λ response, ret (f response))) (λ _, True).
Proof.
  intros Hg. eapply runs_bind; [by apply runs_generate|].
  intros r _. by apply runs_ret.
Qed.

Lemma runs_lift_update g pad section content :
  runs (λ e, e = IndexError "list index out of range") g
    (lift (raise_agent._update_scratch_pad pad section content)) (λ _, True).
Proof.
  intros n. unfold lift.
  destruct (update_scratch_pad_cases pad section content) as [[pad' ->]| ->];
    [left|right]; eauto.
Qed.

Lemma react_runs E g (self : react.ReActAgent W) task context :
  answers g →
  runs E g (react.execute self task context)
    (λ r, agent_id r = react.id self ∧
          metadata r !! "architecture" = Some (PStr "react")).
Proof.
  intros Hg. unfold react.execute.
  eapply runs_bind with (Q := λ _, True).
  { generalize (Z.to_nat (react.max_iterations self)). intros k.
    match goal with |- runs _ _ (react.main_loop _ _ ?st0) _ => generalize st0 end.
    induction k as [|k IH]; intros st; cbn [react.main_loop].
    - destruct (react.is_done st); by apply runs_ret.
    - destruct (react.is_done st); [by apply runs_ret|].
      eapply runs_bind with (Q := λ _, True); [|intros; apply IH].
      unfold react.iteration, react._get_next_step.
      eapply runs_bind; [by apply runs_stage|]. intros; by apply runs_ret. }
  intros st _. eapply runs_bind with (Q := λ _, True).
  { destruct (react.is_done st); [by apply runs_ret|].
    unfold react._generate_partial_answer.
    eapply runs_bind; [by apply runs_stage|]. intros; by apply runs_ret. }
  intros answer _. apply runs_ret. by simplify_map_eq.
Qed.

Lemma ooda_runs E g (self : ooda.OODAAgent W) task context :
  answers g →
  runs E g (ooda.execute self task context)
    (λ r, agent_id r = ooda.id self ∧
          metadata r !! "architecture" = Some (PStr "ooda")).
Proof.
  intros Hg. unfold ooda.execute.
  eapply runs_bind with (Q := λ _, True).
  { generalize (Z.to_nat (ooda.max_iterations self)). intros k.
    match goal with |- runs _ _ (ooda.main_loop _ _ ?st0) _ => generalize st0 end.
    induction k as [|k IH]; intros st; cbn [ooda.main_loop].
    - destruct (ooda.is_done st); by apply runs_ret.
    - destruct (ooda.is_done st); [by apply runs_ret|].
      eapply runs_bind with (Q := λ _, True); [|intros; apply IH].
      unfold ooda.iteration, ooda._process_stage, ooda._check_completion.
      do 4 (eapply runs_bind; [by apply runs_stage|]; intros ? _).
      by apply runs_ret. }
  intros st _. eapply runs_bind with (Q := λ _, True).
  { destruct (ooda.is_done st); [by apply runs_ret|].
    unfold ooda._generate_partial_answer.
    eapply runs_bind; [by apply runs_stage|]. intros; by apply runs_ret. }
  intros answer _. apply runs_ret. by simplify_map_eq.
Qed.

Lemma bdi_runs E g (self : bdi.BDIAgent W) task context :
  answers g →
  runs E g (bdi.execute self task context)
    (λ r, agent_id r = bdi.id self ∧
          metadata r !! "architecture" = Some (PStr "bdi")).
Proof.
  intros Hg. unfold bdi.execute.
  eapply runs_bind with (Q := λ _, True).
  { generalize (Z.to_nat (bdi.max_iterations self)). intros k.
    match goal with |- runs _ _ (bdi.main_loop _ _ ?st0) _ => generalize st0 end.
    induction k as [|k IH]; intros st; cbn [bdi.main_loop].
    - destruct (bdi.is_done st); by apply runs_ret.
    - destruct (bdi.is_done st); [by apply runs_ret|].
      eapply runs_bind with (Q := λ _, True); [|intros; apply IH].
      unfold bdi.iteration, bdi._update_beliefs, bdi._generate_desires,
        bdi._filter_to_intentions, bdi._select_actions, bdi._check_completion.
      do 5 (eapply runs_bind; [by apply runs_stage|]; intros ? _).
      by apply runs_ret. }
  intros st _. eapply runs_bind with (Q := λ _, True).
  { destruct (bdi.is_done st); [by apply runs_ret|].
    unfold bdi._generate_partial_answer. by apply runs_stage. }
  intros answer _. apply runs_ret. by simplify_map_eq.
Qed.

Lemma lat_runs E g (self : lat.LATAgent W) task context :
  answers g →
  runs E g (lat.execute self task context)
    (λ r, agent_id r = lat.id self ∧
          metadata r !! "architecture" = Some (PStr "lat")).
Proof.
  intros Hg. unfold lat.execute, lat._generate_llm_response.
  eapply runs_bind; [by apply runs_stage|]. intros tree _.
  eapply runs_bind with (Q := λ _, True).
  { generalize (Z.to_nat (lat.max_depth self)). intros k.
    match goal with |- runs _ _ (lat.search_loop _ _ ?st0) _ => generalize st0 end.
    induction k as [|k IH]; intros st; cbn [lat.search_loop];
      [by apply runs_ret|].
    unfold lat._generate_llm_response, lat._need_simulation,
      lat._process_simulation, lat._is_terminal_state.
    eapply runs_bind; [by apply runs_stage|]. intros node _.
    eapply runs_bind; [by apply runs_stage|]. intros need _.
    eapply runs_bind with (Q := λ _, True).
    { destruct need; [|by apply runs_ret].
      do 2 (eapply runs_bind; [by apply runs_stage|]; intros ? _).
      by apply runs_ret. }
    intros steps _. eapply runs_bind; [by apply runs_stage|].
    intros [] _; [by apply runs_ret|apply IH]. }
  intros st _. do 2 (eapply runs_bind; [by apply runs_stage|]; intros ? _).
  apply runs_ret. by simplify_map_eq.
Qed.

Lemma rewoo_runs E g (self : rewoo.ReWOOAgent) task
    (context : option (gmap string (Value W))) :
  answers g →
  runs E g (rewoo.execute self task context)
    (λ r, agent_id r = rewoo.id self ∧
          metadata r !! "architecture" = Some (PStr "rewoo")).
Proof.
  intros Hg. unfold rewoo.execute, rewoo._generate_llm_response.
  eapply runs_bind; [by apply runs_stage|]. intros plan _.
  eapply runs_bind with (Q := λ _, True).
  { unfold rewoo._assign_worker_tasks.
    destruct (rewoo.extract_tasks self _ plan); [by apply runs_ret|].
    eapply runs_bind; [by apply runs_generate|]. intros r _.
    destruct (rewoo.extract_tasks self _ r); by apply runs_ret. }
  intros worker_tasks _.
  eapply runs_bind with (Q := λ _, True).
  { generalize 1 (@nil string)
      [step "plan" plan;
       ({[ "type" := PStr "worker_tasks"; "content" := PList worker_tasks ]}
          : gmap string pyval)].
    induction worker_tasks as [|t ts IH]; intros wid results steps;
      cbn [rewoo.run_workers]; [by apply runs_ret|].
    unfold rewoo._generate_llm_response.
    eapply runs_bind; [by apply runs_stage|]. intros r _. apply IH. }
  intros [results steps] _.
  eapply runs_bind; [by apply runs_stage|]. intros solution _.
  apply runs_ret. by simplify_map_eq.
Qed.

Lemma raise_runs g (self : raise_agent.RAISEAgent W) task context :
  answers g →
  runs (λ e, e = IndexError "list index out of range") g
    (raise_agent.execute self task context)
    (λ r, agent_id r = raise_agent.id self ∧
          metadata r !! "architecture" = Some (PStr "raise")).
Proof.
  intros Hg. unfold raise_agent.execute.
  eapply runs_bind with (Q := λ _, True).
  { unfold raise_agent._initialize_scratch_pad, raise_agent._generate_llm_step.
    eapply runs_bind; [by apply runs_stage|]. intros r _.
    destruct (_ && _); by apply runs_ret. }
  intros pad0 _.
  eapply runs_bind with (Q := λ _, True).
  { generalize (Z.to_nat (raise_agent.max_iterations self)). intros k.
    match goal with
    | |- runs _ _ (raise_agent.main_loop _ _ ?st0) _ => generalize st0
    end.
    induction k as [|k IH]; intros st; cbn [raise_agent.main_loop].
    - destruct (raise_agent.is_done st); by apply runs_ret.
    - destruct (raise_agent.is_done st); [by apply runs_ret|].
      eapply runs_bind with (Q := λ _, True); [|intros; apply IH].
      unfold raise_agent.iteration, raise_agent._generate_llm_step,
        raise_agent._check_completion.
      eapply runs_bind; [by apply runs_stage|]. intros ex _.
      eapply runs_bind; [apply runs_lift_update|]. intros pad1 _.
      eapply runs_bind; [by apply runs_stage|]. intros th _.
      eapply runs_bind; [apply runs_lift_update|]. intros pad2 _.
      eapply runs_bind with (Q := λ _, True).
      { unfold raise_agent._should_use_tools.
        destruct (bool_decide _); [by apply runs_ret|by apply runs_stage]. }
      intros use _.
      eapply runs_bind with (Q := λ _, True).
      { destruct use; [|by apply runs_ret].
        eapply runs_bind with (Q := λ _, True).
        { unfold raise_agent._use_tools.
          eapply runs_bind; [by apply runs_generate|]. intros r _.
          destruct (re.search _ _ _); [|by apply runs_ret].
          destruct (tools.find_tool _ _); [|by apply runs_ret].
          destruct (exn_bind _ _); by apply runs_ret. }
        intros results _.
        eapply runs_bind; [apply runs_lift_update|]. intros pad3 _.
        eapply runs_bind; [by apply runs_stage|]. intros obs _.
        eapply runs_bind; [apply runs_lift_update|]. intros pad4 _.
        by apply runs_ret. }
      intros [[c p] s] _.
      eapply runs_bind; [by apply runs_stage|]. intros upd _.
      eapply runs_bind with (Q := λ _, True).
      { destruct (raise_agent.looks_like_pad upd);
          [by apply runs_ret|apply runs_lift_update]. }
      intros pad5 _.
      eapply runs_bind; [by apply runs_stage|]. intros comp _.
      by apply runs_ret. }
  intros st _. eapply runs_bind with (Q := λ _, True).
  { destruct (raise_agent.is_done st); [by apply runs_ret|].
    unfold raise_agent._generate_partial_answer.
    eapply runs_bind; [by apply runs_stage|]. intros; by apply runs_ret. }
  intros answer _. apply runs_ret. by simplify_map_eq.
Qed.

End runs_facts.

Section tool_facts.
Context {W : World}.

Lemma find_tool_Some (ts : list (tools.Tool W)) lowered t :
  tools.find_tool ts lowered = Some t → t ∈ ts ∧ py.lower (tools.name t) = lowered.
Proof.
  induction ts as [|t' ts IH]; simpl; [done|].
  case_decide as Hn.
  - intros [= ->]. split; [left|done].
  - intros [Hin ?]%IH. split; [by right|done].
Qed.

Lemma find_tool_None (ts : list (tools.Tool W)) lowered :
  tools.find_tool ts lowered = None ↔
  ∀ t, t ∈ ts → py.lower (tools.name t) ≠ lowered.
Proof.
  induction ts as [|t' ts IH]; simpl.
  - split; [|done]. intros _ t Ht. by apply elem_of_nil in Ht.
  - case_decide as Hn.
    + split; [done|]. intros H. exfalso. by apply (H t'); [left|].
    + rewrite IH. split.
      * intros H t [->|Ht]%elem_of_cons; auto.
      * intros H t Ht. apply H. by right.
Qed.

End tool_facts.



Section run_result_facts.
Context {W : World}.

(** The result of every agent carries its id and names its strategy, or,
    for RAISE, the run stopped on the [IndexError] of a scratch-pad
    update. *)
Lemma agent_runs g (self : Agent.agent W) task context :
  answers g →
  runs (λ e, e = IndexError "list index out of range" ∧
             ∃ a, self = Agent.RAISEAgent a) g
    (Agent.execute self task context)
    (λ r, agent_id r = Agent.ident self ∧
          ∃ a, metadata r !! "architecture" = Some (PStr a)).
Proof.
  intros Hg n.
  destruct self as [a|a|a|a|a|a]; cbn [Agent.execute Agent.ident].
  - destruct (react_runs (λ _, False) g a task context Hg n)
      as [(r & n' & ? & ? & ?)|(e & n' & _ & [])]. left. eauto 10.
  - destruct (ooda_runs (λ _, False) g a task context Hg n)
      as [(r & n' & ? & ? & ?)|(e & n' & _ & [])]. left. eauto 10.
  - destruct (bdi_runs (λ _, False) g a task context Hg n)
      as [(r & n' & ? & ? & ?)|(e & n' & _ & [])]. left. eauto 10.
  - destruct (lat_runs (λ _, False) g a task context Hg n)
      as [(r & n' & ? & ? & ?)|(e & n' & _ & [])]. left. eauto 10.
  - destruct (raise_runs g a task context Hg n)
      as [(r & n' & ? & ? & ?)|(e & n' & ? & ->)]; [left|right]; eauto 10.
  - destruct (rewoo_runs (λ _, False) g a task context Hg n)
      as [(r & n' & ? & ? & ?)|(e & n' & _ & [])]. left. eauto 10.
Qed.

Lemma format_output_plain (r : AgentResult) a :
  metadata r !! "architecture" = Some (PStr a) →
  ∃ text, format_output r false = inr text.
Proof. intros Ha. unfold format_output. rewrite Ha. cbn. eauto. Qed.

End run_result_facts.




End agent_proofs.

(** * Further properties of the code *)

(** ** White space at the ends of a text *)

Section strip_facts.
Local Arguments String.append !_ _ /.

(** [occurs c s]: the character [c] occurs in [s]. *)
Local Abbreviation occurs c s := (∃ pre post, s = pre +:+ String c post).

Lemma occurs_cons c a s : occurs c (String a s) ↔ c = a ∨ occurs c s.
Proof.
  split.
  - intros ([|b pre] & post & H); simpl in H.
    + injection H as -> ->. by left.
    + injection H as -> ->. right. eauto.
  - intros [->|(pre & post & ->)].
    + by exists EmptyString, s.
    + by exists (String a pre), post.
Qed.

Lemma occurs_nil c : ¬ occurs c EmptyString.
Proof. by intros ([|b pre] & post & H). Qed.

Lemma rev_onto_nil s acc :
  py.rev_onto s acc = EmptyString → s = EmptyString ∧ acc = EmptyString.
Proof.
  revert acc. induction s as [|c s IH]; intros acc; simpl; [done|].
  intros H. by apply IH in H as [_ ?].
Qed.

Lemma occurs_rev_onto c s acc :
  occurs c (py.rev_onto s acc) ↔ occurs c s ∨ occurs c acc.
Proof.
  revert acc. induction s as [|a s IH]; intros acc; simpl.
  - split; [by right|]. intros [H|H]; [by apply occurs_nil in H|done].
  - rewrite IH, !occurs_cons. tauto.
Qed.

Lemma occurs_rev c s : occurs c (py.rev s) ↔ occurs c s.
Proof.
  unfold py.rev. rewrite occurs_rev_onto. split; [|by left].
  intros [H|H]; [done|by apply occurs_nil in H].
Qed.

Lemma lstrip_nil s c :
  py.lstrip s = EmptyString → occurs c s → py.isspace c = true.
Proof.
  induction s as [|a s IH]; simpl.
  - intros _ H. by apply occurs_nil in H.
  - destruct (py.isspace a) eqn:Ha; [|done].
    intros Hs [->|H]%occurs_cons; auto.
Qed.

Lemma occurs_lstrip c s :
  occurs c s → py.isspace c = false → occurs c (py.lstrip s).
Proof.
  induction s as [|a s IH]; simpl; [done|].
  intros H Hc. destruct (py.isspace a) eqn:Ha; [|done].
  apply occurs_cons in H as [->|H]; [congruence|auto].
Qed.

Lemma occurs_lstrip_inv c s : occurs c (py.lstrip s) → occurs c s.
Proof.
  induction s as [|a s IH]; simpl; [done|].
  destruct (py.isspace a); [|done]. intros H. apply occurs_cons. auto.
Qed.

(** A text that strips to nothing has white space only. *)
Lemma strip_nil s c :
  py.strip s = EmptyString → occurs c s → py.isspace c = true.
Proof.
  unfold py.strip, py.rstrip, py.rev. intros H Hc.
  apply rev_onto_nil in H as [H _].
  destruct (py.isspace c) eqn:Hsp; [done|].
  assert (occurs c (py.rev (py.lstrip s))) as Hrev.
  { apply occurs_rev. by apply occurs_lstrip. }
  by rewrite (lstrip_nil _ c H Hrev) in Hsp.
Qed.

(** The characters of the stripped text are characters of the text. *)
Lemma occurs_strip c s : occurs c (py.strip s) → occurs c s.
Proof.
  unfold py.strip, py.rstrip. intros H.
  apply (proj1 (occurs_rev c _)) in H. apply occurs_lstrip_inv in H.
  apply (proj1 (occurs_rev c _)) in H. by apply occurs_lstrip_inv in H.
Qed.

Lemma rev_onto_app s acc : py.rev_onto s acc = py.rev s +:+ acc.
Proof.
  unfold py.rev. revert acc. induction s as [|c s IH]; intros acc; simpl;
    [done|].
  rewrite (IH (String c acc)), (IH (String c EmptyString)).
  by rewrite sapp_assoc.
Qed.

Lemma rev_cons c s : py.rev (String c s) = py.rev s +:+ String c EmptyString.
Proof. unfold py.rev at 1. simpl. apply rev_onto_app. Qed.

Lemma rev_app s1 s2 : py.rev (s1 +:+ s2) = py.rev s2 +:+ py.rev s1.
Proof.
  induction s1 as [|c s1 IH]; simpl.
  - by rewrite sapp_nil_r.
  - by rewrite !rev_cons, IH, sapp_assoc.
Qed.

Lemma rev_involutive s : py.rev (py.rev s) = s.
Proof.
  induction s as [|c s IH]; [done|].
  by rewrite rev_cons, rev_app, IH.
Qed.

Lemma lstrip_idem s : py.lstrip (py.lstrip s) = py.lstrip s.
Proof.
  induction s as [|c s IH]; simpl; [done|].
  destruct (py.isspace c) eqn:Hc; [done|]. simpl. by rewrite Hc.
Qed.

Lemma lstrip_length s : String.length (py.lstrip s) ≤ String.length s.
Proof.
  induction s as [|c s IH]; simpl; [done|].
  destruct (py.isspace c); simpl; lia.
Qed.

Lemma lstrip_fixed s :
  py.lstrip s = s →
  s = EmptyString ∨ ∃ c s', s = String c s' ∧ py.isspace c = false.
Proof.
  destruct s as [|c s]; [by left|]. simpl.
  destruct (py.isspace c) eqn:Hc; [|right; eauto].
  intros H. pose proof (lstrip_length s) as Hlen. rewrite H in Hlen.
  simpl in Hlen. lia.
Qed.

Lemma lstrip_app_nonspace x c y :
  py.isspace c = false →
  py.lstrip (x +:+ String c y) = py.lstrip x +:+ String c y.
Proof.
  intros Hc. induction x as [|a x IH]; simpl.
  - by rewrite Hc.
  - by destruct (py.isspace a).
Qed.

Lemma rstrip_cons_nonspace c s :
  py.isspace c = false → py.rstrip (String c s) = String c (py.rstrip s).
Proof.
  intros Hc. unfold py.rstrip.
  by rewrite rev_cons, lstrip_app_nonspace, rev_app.
Qed.

Lemma rstrip_idem s : py.rstrip (py.rstrip s) = py.rstrip s.
Proof. unfold py.rstrip. by rewrite rev_involutive, lstrip_idem. Qed.

(** Stripping a stripped text changes nothing. *)
Lemma strip_idem s : py.strip (py.strip s) = py.strip s.
Proof.
  unfold py.strip.
  assert (py.lstrip (py.rstrip (py.lstrip s)) = py.rstrip (py.lstrip s))
    as ->; [|apply rstrip_idem].
  destruct (lstrip_fixed _ (lstrip_idem s)) as [->|(c & s' & -> & Hc)];
    [done|].
  rewrite rstrip_cons_nonspace by done. simpl. by rewrite Hc.
Qed.

End strip_facts.

(** ** Workflow graphs: validation, execution and the merged input *)

Section workflow_more.
Import workflow.
Import workflow_examples workflow_examples2.

Section workflow_run_facts.
Context {Value : Type}.
Implicit Types (w : Workflow Value) (st : dfs_state) (n d : string).

(** With distinct keys, every stored value is reachable by its key. *)
Lemma odict_values_get {V} (d : odict V) v :
  NoDup (odict_keys d) → v ∈ odict_values d → ∃ k, odict_get d k = Some v.
Proof.
  unfold odict_keys, odict_values.
  induction d as [|[k' v'] d IH]; simpl; intros Hnd Hv.
  - by apply elem_of_nil in Hv.
  - apply NoDup_cons in Hnd as [Hk' Hnd].
    apply elem_of_cons in Hv as [->|Hv].
    + exists k'. by rewrite decide_True.
    + destruct (IH Hnd Hv) as [k Hk]. exists k.
      rewrite decide_False; [done|]. intros ->. apply Hk'.
      apply odict_get_is_Some. eauto.
Qed.

(** The agents of all nodes are registered. *)
Local Abbreviation agents_exist w :=
  (∀ node, node ∈ odict_values (nodes w) → is_Some (agents w !! agent_id node)).

Lemma validate_iff w :
  NoDup (odict_keys (nodes w)) →
  _validate w = Some (inr ()) ↔ agents_exist w ∧ ¬ dangling w ∧ ¬ cyclic w.
Proof.
  intros Hnd. split.
  - intros (Hex & Hac & Hag)%validate_accepts.
    by rewrite <- deps_exist_not_dangling.
  - intros (Hag & Hdang%deps_exist_not_dangling & Hac). unfold _validate.
    rewrite (proj2 (check_agents_ok w _) Hag).
    assert (check_deps w (odict_values (nodes w)) = inr ()) as ->.
    { apply check_deps_ok. intros node d Hnode Hd.
      destruct (odict_values_get _ _ Hnd Hnode) as [k Hk].
      apply (Hdang k d). by exists node. }
    destruct (get_execution_order_spec w Hdang Hac) as (order & Ho & _).
    unfold _get_execution_order in Ho.
    pose proof (check_cycles_sim w (odict_keys (nodes w)) init_state init_state)
      as Hsim.
    destruct (visit_all w _ init_state) as [[] st'|e st'|]; [|done..].
    destruct Hsim as [st1 ->]; done.
Qed.

(** [collect_inputs] raises only on a dependency that has a result and is
    not a node. *)
Lemma collect_inputs_ok w results : ∀ ds acc,
  (∀ d, d ∈ ds → is_Some (odict_get (nodes w) d)) →
  ∃ node_input, collect_inputs w ds results acc = inr node_input.
Proof.
  induction ds as [|d ds IH]; intros acc Hds; simpl; [eauto|].
  destruct (results !! d) as [r|].
  - destruct (Hds d) as [dep ->]; [left|]. apply IH. intros ? ?. apply Hds.
    by right.
  - apply IH. intros ? ?. apply Hds. by right.
Qed.

Lemma run_nodes_log_prefix w input : ∀ order results log out log',
  run_nodes w input order results log = (out, log') →
  ∃ calls, log' = log ++ calls.
Proof.
  induction order as [|k order IH]; intros results log out log'; simpl.
  - intros [= <- <-]. exists []. by rewrite app_nil_r.
  - destruct (odict_get (nodes w) k) as [node|];
      [|intros [= <- <-]; exists []; by rewrite app_nil_r].
    destruct (skipped node input results); [apply IH|].
    destruct (collect_inputs _ _ _ _) as [e|ni];
      [intros [= <- <-]; exists []; by rewrite app_nil_r|].
    destruct (agents w !! agent_id node) as [agent|];
      [|intros [= <- <-]; exists []; by rewrite app_nil_r].
    destruct (run agent _ _) as [e|r].
    + intros [= <- <-]. eauto.
    + intros (calls & ->)%IH. rewrite <- app_assoc. eauto.
Qed.

(** In a graph whose dependencies and agents exist, a run that raises
    raises what the last call it made raised. *)
Lemma run_nodes_raise w input :
  deps_exist w → agents_exist w →
  ∀ order results log e log',
    (∀ k, k ∈ order → is_Some (odict_get (nodes w) k)) →
    run_nodes w input order results log = (inl e, log') →
    ∃ calls c agent, log' = log ++ calls ++ [c] ∧
      agents w !! call_agent c = Some agent ∧
      run agent (call_task c) (call_context c) = inl e.
Proof.
  intros Hdeps Hag.
  induction order as [|k order IH]; intros results log e log' Hkeys; simpl;
    [done|].
  destruct (Hkeys k) as [node Hnode]; [left|]. rewrite Hnode.
  assert (∀ k', k' ∈ order → is_Some (odict_get (nodes w) k')) as Hkeys'
    by (intros ? ?; apply Hkeys; by right).
  destruct (skipped node input results); [by apply IH|].
  destruct (collect_inputs_ok w results (dependencies node) input)
    as [ni ->].
  { intros d Hd. apply (Hdeps k d). by exists node. }
  destruct (Hag node) as [agent Hagent];
    [by eapply odict_get_Some_values|]. rewrite Hagent.
  destruct (run agent _ _) as [e'|r] eqn:Hrun.
  - intros [= <- <-]. eexists [], _, agent. split; [done|]. by split.
  - intros H. apply IH in H as (calls & c & agent' & -> & ? & ?); [|done].
    eexists (_ :: calls), c, agent'. rewrite <- app_assoc. by repeat split.
Qed.

(** Without guards and without failing agents, every node of the order is
    called, once, in order, and gets a result. *)
Lemma run_nodes_all w input :
  deps_exist w → agents_exist w →
  (∀ node, node ∈ odict_values (nodes w) → condition node = None) →
  (∀ a agent task ctx, agents w !! a = Some agent →
     ∃ r, run agent task ctx = inr r) →
  ∀ order results log,
    (∀ k, k ∈ order → is_Some (odict_get (nodes w) k)) →
    ∃ results' calls,
      run_nodes w input order results log = (inr results', log ++ calls) ∧
      Forall2 (λ k c, ∃ node, odict_get (nodes w) k = Some node ∧
                 call_agent c = agent_id node ∧
                 call_task c = task_description node) order calls ∧
      (∀ k, is_Some (results' !! k) ↔ is_Some (results !! k) ∨ k ∈ order).
Proof.
  intros Hdeps Hag Hcond Hrun.
  induction order as [|k order IH]; intros results log Hkeys; simpl.
  - exists results, []. rewrite app_nil_r. split; [done|].
    split; [constructor|]. intros k. rewrite elem_of_nil. tauto.
  - destruct (Hkeys k) as [node Hnode]; [left|]. rewrite Hnode.
    assert (node ∈ odict_values (nodes w)) as Hin
      by by eapply odict_get_Some_values.
    unfold skipped. rewrite (Hcond node Hin).
    destruct (collect_inputs_ok w results (dependencies node) input)
      as [ni ->].
    { intros d Hd. apply (Hdeps k d). by exists node. }
    destruct (Hag node Hin) as [agent Hagent]. rewrite Hagent.
    destruct (Hrun _ agent (task_description node)
                (match transform_input node with
                 | Some f => f ni | None => ni end) Hagent) as [r ->].
    edestruct (IH (<[k := match transform_output node with
                          | Some f => f r | None => r end]> results)
                 (log ++ [{| call_agent := agent_id node;
                             call_task := task_description node;
                             call_context :=
                               match transform_input node with
                               | Some f => f ni | None => ni end |}]))
      as (results' & calls & -> & Hcalls & Hdom).
    { intros ? ?. apply Hkeys. by right. }
    eexists results', (_ :: calls). rewrite <- app_assoc. split; [done|].
    split.
    + constructor; [|done]. by exists node.
    + intros k'. rewrite Hdom, elem_of_cons.
      destruct (decide (k' = k)) as [->|Hne].
      * rewrite lookup_insert_eq. split; [auto|]. intros _. left. eauto.
      * rewrite lookup_insert_ne by done. naive_solver.
Qed.

(** The entry of the merged input under a display name. *)
Lemma collect_inputs_keep w results key : ∀ ds acc node_input,
  collect_inputs w ds results acc = inr node_input →
  (∀ d dep, d ∈ ds → is_Some (results !! d) →
     odict_get (nodes w) d = Some dep → name dep ≠ key) →
  node_input !! key = acc !! key.
Proof.
  induction ds as [|d ds IH]; intros acc ni; simpl.
  - by intros [= <-].
  - intros H Hother.
    assert (∀ d' dep, d' ∈ ds → is_Some (results !! d') →
              odict_get (nodes w) d' = Some dep → name dep ≠ key) as Hother'
      by (intros ? ? ?; apply Hother; by right).
    destruct (results !! d) as [r|] eqn:Hr; [|by apply IH].
    destruct (odict_get (nodes w) d) as [dep|] eqn:Hdep; [|done].
    rewrite (IH _ _ H Hother'). apply lookup_insert_ne.
    eapply Hother; [left|by rewrite Hr|done].
Qed.

Lemma collect_inputs_last w results : ∀ ds acc node_input d dep r,
  collect_inputs w ds results acc = inr node_input →
  d ∈ ds → results !! d = Some r → odict_get (nodes w) d = Some dep →
  (∀ d' dep', d' ∈ ds → d' ≠ d → is_Some (results !! d') →
     odict_get (nodes w) d' = Some dep' → name dep' ≠ name dep) →
  node_input !! name dep = Some r.
Proof.
  induction ds as [|d0 ds IH]; intros acc ni d dep r; simpl.
  - intros _ H. by apply elem_of_nil in H.
  - intros H Hin Hr Hdep Hother.
    destruct (decide (d ∈ ds)) as [Hds|Hds].
    + destruct (results !! d0) as [r0|] eqn:Hr0.
      * destruct (odict_get (nodes w) d0) as [dep0|] eqn:Hdep0; [|done].
        eapply IH; eauto. intros ? ? ? ?. apply Hother; [by right|done].
      * eapply IH; eauto. intros ? ? ? ?. apply Hother; [by right|done].
    + apply elem_of_cons in Hin as [<-|?]; [|done].
      rewrite Hr, Hdep in H.
      rewrite (collect_inputs_keep _ _ (name dep) _ _ _ H).
      * apply lookup_insert_eq.
      * intros d' dep' Hd' ? ?. eapply Hother; eauto; [by right|].
        intros ->. done.
Qed.

(** The fallback of [task_description] is never taken. *)
Lemma task_description_eq (node : WorkflowNode Value) :
  task_description node = name node +:+ ": " +:+ description node.
Proof.
  unfold task_description. case_decide as Hblank; [|done].
  assert (py.isspace ":" = true) as Hsp; [|done].
  apply (strip_nil _ _ Hblank). by exists (name node), (" " +:+ description node).
Qed.

Lemma visit_unfold w fuel n st :
  visit (S fuel) w n st =
  if decide (n ∈ temp st) then
    Raise (ValueError "Circular dependency detected") st
  else if decide (n ∈ visited st) then Done () st
  else
    let st1 := {| result := result st; visited := visited st;
                  temp := temp st ∪ {[n]} |} in
    match odict_get (nodes w) n with
    | None => Raise (KeyError n) st1
    | Some node =>
        match visit_deps (visit fuel w) (dependencies node) st1 with
        | Done _ st2 =>
            Done () {| result := result st2 ++ [n];
                       visited := visited st2 ∪ {[n]};
                       temp := temp st2 ∖ {[n]} |}
        | other => other
        end
    end.
Proof. done. Qed.

Lemma visit_deps_cons (rec : string → dfs_state → outcome unit) d ds st :
  visit_deps rec (d :: ds) st =
  match rec d st with
  | Done _ st' => visit_deps rec ds st'
  | other => other
  end.
Proof. done. Qed.

(** [visit] on a node whose dependencies are all visited. *)
Lemma visit_deps_visited w fuel st ds :
  (∀ d, d ∈ ds → d ∈ visited st ∧ d ∉ temp st) →
  visit_deps (visit (S fuel) w) ds st = Done () st.
Proof.
  induction ds as [|d ds IH]; intros Hds; [done|].
  destruct (Hds d) as [Hv Ht]; [left|]. rewrite visit_deps_cons, visit_unfold.
  rewrite decide_False by done. rewrite decide_True by done.
  apply IH. intros ? ?. apply Hds. by right.
Qed.

Lemma visit_all_insertion_order w :
  topological w (odict_keys (nodes w)) →
  ∀ ids pre st,
    odict_keys (nodes w) = pre ++ ids → NoDup (pre ++ ids) →
    result st = pre → visited st = list_to_set pre → temp st = ∅ →
    ∃ st', visit_all w ids st = Done () st' ∧ result st' = pre ++ ids.
Proof.
  intros Htopo. induction ids as [|k ids IH]; intros pre st Hkeys Hnd Hr Hv Ht.
  - exists st. by rewrite app_nil_r.
  - cbn [visit_all].
    assert (k ∉ pre) as Hk.
    { apply NoDup_app in Hnd as (_ & Hdis & _). intros Hin.
      apply (Hdis k Hin). left. }
    rewrite decide_False by (rewrite Hv; set_solver).
    assert (k ∈ odict_keys (nodes w)) as Hkin by (rewrite Hkeys; set_solver).
    destruct (keys_exist w k Hkin) as [node Hnode].
    assert (depth_bound w = S (S (pred (length (nodes w))))) as ->.
    { unfold depth_bound. unfold odict_keys in Hkin.
      destruct (nodes w); [by apply elem_of_nil in Hkin|done]. }
    rewrite visit_unfold. rewrite decide_False by (rewrite Ht; set_solver).
    rewrite decide_False by (rewrite Hv; set_solver). cbn zeta. rewrite Hnode.
    rewrite visit_deps_visited.
    + cbn [result visited temp].
      replace (pre ++ k :: ids) with ((pre ++ [k]) ++ ids)
        by by rewrite <- app_assoc.
      apply (IH (pre ++ [k])).
      * by rewrite <- app_assoc.
      * by rewrite <- app_assoc.
      * cbn. by rewrite Hr.
      * cbn. rewrite Hv, list_to_set_app_L. set_solver.
      * cbn. rewrite Ht. set_solver.
    + cbn [visited temp]. intros d Hd.
      destruct (Htopo (length pre) k d) as (j & Hj & Hdj).
      { rewrite Hkeys. by rewrite list_lookup_middle. }
      { by exists node. }
      rewrite Hkeys, lookup_app_l in Hdj by done.
      apply list_elem_of_lookup_2 in Hdj.
      split; [rewrite Hv; set_solver|]. rewrite Ht.
      assert (d ≠ k) by (intros ->; done). set_solver.
Qed.


(** X1.  [_validate] accepts a graph exactly when the agent of every node
    is registered, every dependency is a node and no node depends on itself
    through any chain; the keys of the node dictionary are distinct, as they
    are in every dictionary. *)
Theorem validate_accepts_exactly w :
  NoDup (odict_keys (nodes w)) →
  _validate w = Some (inr ()) ↔
  (∀ node, node ∈ odict_values (nodes w) →
     is_Some (agents w !! agent_id node)) ∧
  ¬ dangling w ∧ ¬ cyclic w.
Proof. apply validate_iff. Qed.

(** X2.  Once [_validate] has passed, [execute] raises nothing of its own:
    when it raises, the exception is the one that the last unit of work it
    called raised, and no unit is called after that one. *)
Theorem execute_raises_agent_error w input e log :
  _validate w = Some (inr ()) →
  execute w input = Some (inl e, log) →
  ∃ calls c agent, log = calls ++ [c] ∧
    agents w !! call_agent c = Some agent ∧
    run agent (call_task c) (call_context c) = inl e.
Proof.
  intros Hok. unfold execute. rewrite Hok.
  apply validate_accepts in Hok as (Hex & Hac & Hag).
  destruct (get_execution_order_spec w Hex Hac) as (order & -> & _ & Hkeys & _).
  intros [= H].
  apply (run_nodes_raise w _ Hex Hag) in H as (calls & c & agent & -> & ? & ?).
  - by exists calls, c, agent.
  - intros k Hk. apply keys_exist. by apply Hkeys.
Qed.

(** X3.  When [_validate] has passed, no node has a guard and no agent
    raises, [execute] calls one unit of work per node, in the execution
    order, each with the agent and the task text of its node, and returns a
    mapping whose keys are exactly the node ids. *)
Theorem execute_runs_every_node w input :
  _validate w = Some (inr ()) →
  (∀ node, node ∈ odict_values (nodes w) → condition node = None) →
  (∀ a agent task ctx, agents w !! a = Some agent →
     ∃ r, run agent task ctx = inr r) →
  ∃ order results log,
    _get_execution_order w = Some (inr order) ∧
    execute w input = Some (inr results, log) ∧
    Forall2 (λ k c, ∃ node, odict_get (nodes w) k = Some node ∧
               call_agent c = agent_id node ∧
               call_task c = name node +:+ ": " +:+ description node)
      order log ∧
    (∀ k, is_Some (results !! k) ↔ k ∈ odict_keys (nodes w)).
Proof.
  intros Hok Hcond Hrun. unfold execute. rewrite Hok.
  apply validate_accepts in Hok as (Hex & Hac & Hag).
  destruct (get_execution_order_spec w Hex Hac) as (order & -> & _ & Hkeys & _).
  destruct (run_nodes_all w (default ∅ input) Hex Hag Hcond Hrun order ∅ [])
    as (results & calls & Hr & Hcalls & Hdom).
  { intros k Hk. apply keys_exist. by apply Hkeys. }
  exists order, results, calls. split; [done|]. split; [by rewrite Hr|].
  split.
  - eapply Forall2_impl; [exact Hcalls|].
    intros k c (node & ? & ? & Ht). exists node.
    by rewrite <- task_description_eq.
  - intros k. rewrite Hdom, lookup_empty, <- Hkeys.
    split; [intros [[? [=]]|?]; done|auto].
Qed.

(** X4.  A dependency that has a result reaches the dependent under its
    display name: the merged input maps that name to the result, whatever
    the initial input has under it, provided no other dependency of the list
    that has a result bears the same display name. *)
Theorem dependency_result_delivered w results input ds node_input d dep r :
  collect_inputs w ds results input = inr node_input →
  d ∈ ds → results !! d = Some r → odict_get (nodes w) d = Some dep →
  (∀ d' dep', d' ∈ ds → d' ≠ d → is_Some (results !! d') →
     odict_get (nodes w) d' = Some dep' → name dep' ≠ name dep) →
  node_input !! name dep = Some r.
Proof. apply collect_inputs_last. Qed.

(** X5.  The task text of a node is always its name, a colon, a blank and
    its description: the text has a colon in it, so it is never blank and
    the fallback text of [execute] is never used. *)
Theorem task_description_never_falls_back (node : WorkflowNode Value) :
  task_description node = name node +:+ ": " +:+ description node.
Proof. apply task_description_eq. Qed.

(** X6.  When every node was added after the nodes it depends on, the
    execution order is the insertion order. *)
Theorem insertion_order_is_execution_order w :
  NoDup (odict_keys (nodes w)) →
  topological w (odict_keys (nodes w)) →
  _get_execution_order w = Some (inr (odict_keys (nodes w))).
Proof.
  intros Hnd Htopo. unfold _get_execution_order.
  destruct (visit_all_insertion_order w Htopo (odict_keys (nodes w)) []
              init_state) as (st' & -> & ->); done.
Qed.

End workflow_run_facts.

Lemma abc_keys_NoDup : NoDup (odict_keys (nodes abc)).
Proof. vm_compute. repeat constructor; set_solver. Qed.

Lemma validate_accepts_exactly_witness :
  _validate abc = Some (inr ()) ↔
  (∀ node, node ∈ odict_values (nodes abc) →
     is_Some (agents abc !! agent_id node)) ∧
  ¬ dangling abc ∧ ¬ cyclic abc.
Proof. apply (validate_accepts_exactly abc), abc_keys_NoDup. Defined.

Lemma execute_raises_agent_error_witness :
  ∃ calls c agent,
    [ {| call_agent := "agent-7"; call_task := "P: first";
         call_context := ∅ |};
      {| call_agent := "agent-x"; call_task := "Q: second";
         call_context := {[ "P" := 7 ]} |} ] = calls ++ [c] ∧
    agents pqr !! call_agent c = Some agent ∧
    run agent (call_task c) (call_context c) = inl (Exception "down").
Proof.
  apply (execute_raises_agent_error pqr None); vm_compute; reflexivity.
Defined.

Lemma execute_runs_every_node_witness :
  ∃ order results log,
    _get_execution_order abc = Some (inr order) ∧
    execute abc None = Some (inr results, log) ∧
    Forall2 (λ k c, ∃ node, odict_get (nodes abc) k = Some node ∧
               call_agent c = agent_id node ∧
               call_task c = name node +:+ ": " +:+ description node)
      order log ∧
    (∀ k, is_Some (results !! k) ↔ k ∈ odict_keys (nodes abc)).
Proof.
  apply (execute_runs_every_node abc None).
  - vm_compute. reflexivity.
  - intros node Hin. vm_compute in Hin.
    repeat (apply elem_of_cons in Hin as [->|Hin]; [reflexivity|]).
    by apply elem_of_nil in Hin.
  - intros a agent task ctx Ha.
    assert (agents abc = {[ "agent-1" := echo ]}) as Hagents
      by (vm_compute; reflexivity).
    rewrite Hagents in Ha. apply lookup_singleton_Some in Ha as [_ <-].
    by exists task.
Defined.

Lemma dependency_result_delivered_witness :
  ∃ node_input,
    collect_inputs abc ["A"; "B"] {[ "A" := "ra" ]} {[ "A" := "initial" ]}
      = inr node_input ∧
    node_input !! "A" = Some "ra".
Proof.
  destruct (collect_inputs abc ["A"; "B"] {[ "A" := "ra" ]}
              {[ "A" := "initial" ]}) as [e|ni] eqn:Hc;
    [by vm_compute in Hc|].
  exists ni. split; [done|].
  destruct (odict_get (nodes abc) "A") as [dep|] eqn:Hdep;
    [|by vm_compute in Hdep].
  assert (name dep = "A") as Hname
    by (vm_compute in Hdep; by injection Hdep as <-).
  rewrite <- Hname.
  apply (dependency_result_delivered abc {[ "A" := "ra" ]}
           {[ "A" := "initial" ]} ["A"; "B"] ni "A" dep "ra" Hc);
    [left|reflexivity|exact Hdep|].
  intros d' dep' Hin Hne Hres Hget.
  apply elem_of_cons in Hin as [->|Hin]; [done|].
  apply list_elem_of_singleton in Hin as ->.
  vm_compute in Hres. by destruct Hres.
Defined.

Lemma insertion_order_is_execution_order_witness :
  _get_execution_order abc = Some (inr ["A"; "B"; "C"]).
Proof.
  apply (insertion_order_is_execution_order abc); [apply abc_keys_NoDup|].
  intros i n d Hi (node & Hnode & Hd).
  destruct i as [|[|[|i]]]; simpl in Hi; [| | |done];
    injection Hi as <-; vm_compute in Hnode; injection Hnode as <-;
    simpl in Hd.
  - by apply elem_of_nil in Hd.
  - apply list_elem_of_singleton in Hd as ->. exists 0. split; [lia|done].
  - apply elem_of_cons in Hd as [->|Hd].
    + exists 0. split; [lia|done].
    + apply list_elem_of_singleton in Hd as ->. exists 1. split; [lia|done].
Defined.

End workflow_more.

(** ** The response extractor: groups, labels and the factory *)

Section parser_more.
Import parser.
Local Open Scope re_scope.

Lemma foldl_inv {A B} (f : A → B → A) (I : A → Prop) ms :
  (∀ a m, I a → I (f a m)) → ∀ a, I a → I (foldl f a ms).
Proof. intros Hf. induction ms as [|m ms IH]; simpl; auto. Qed.

Lemma has_empty {V} key : has (∅ : gmap string V) key = false.
Proof.
  unfold has. apply bool_decide_eq_false. rewrite lookup_empty.
  by intros [? ?].
Qed.

(** The state of a loop that completes groups: no group yet, or one group
    and an empty current group. *)
Local Abbreviation one_group st :=
  (st.1 = [] ∨ (length st.1 = 1 ∧ st.2 = ∅)).

Ltac one_group_step :=
  let cs := fresh "cs" in let cur := fresh "cur" in
  let m := fresh "m" in let H := fresh "H" in
  intros [cs cur] m H; cbn [fst snd] in *;
  repeat match goal with
         | |- context [if ?b then _ else _] =>
             let E := fresh "E" in destruct b eqn:E; cbn [fst snd]; [|done]
         end;
  destruct H as [->|[_ ->]];
  [right; by split
  |repeat match goal with
          | E : _ && _ = true |- _ => apply andb_prop in E as [E ?]
          end;
   match goal with
   | E : has ∅ _ = true |- _ => by rewrite has_empty in E
   end].

Lemma react_one_group text :
  length (ReActParser.cycles (ReActParser.parse text)) ≤ 1.
Proof.
  unfold ReActParser.parse.
  set (c2 := foldl ReActParser.action_step _ _).
  set (ms := re.finditer _ ReActParser.observation_re text).
  assert (one_group (foldl ReActParser.observation_step ([], c2) ms)) as H.
  { apply foldl_inv; [|by left]. unfold ReActParser.observation_step.
    one_group_step. }
  cbn [ReActParser.cycles].
  destruct H as [->|[Hlen ->]].
  - destruct (_ && _); simpl; lia.
  - rewrite has_empty, andb_false_r. lia.
Qed.

Lemma ooda_one_group text :
  length (OODAParser.loops (OODAParser.parse text)) ≤ 1.
Proof.
  unfold OODAParser.parse.
  set (c3 := foldl OODAParser.decision_step _ _).
  set (ms := re.finditer _ OODAParser.action_re text).
  assert (one_group (foldl OODAParser.action_step ([], c3) ms)) as H.
  { apply foldl_inv; [|by left]. unfold OODAParser.action_step.
    one_group_step. }
  cbn [OODAParser.loops]. destruct H as [->|[-> _]]; simpl; lia.
Qed.

Lemma bdi_one_group text :
  length (BDIParser.cycles (BDIParser.parse text)) ≤ 1.
Proof.
  unfold BDIParser.parse.
  set (c3 := foldl BDIParser.intentions_step _ _).
  set (ms := re.finditer _ BDIParser.execution_re text).
  assert (one_group (foldl BDIParser.execution_step ([], c3) ms)) as H.
  { apply foldl_inv; [|by left]. unfold BDIParser.execution_step.
    one_group_step. }
  cbn [BDIParser.cycles]. destruct H as [->|[-> _]]; simpl; lia.
Qed.

Lemma lat_one_group text :
  length (LATParser.nodes (LATParser.parse text)) ≤ 1.
Proof.
  unfold LATParser.parse.
  set (c2 := foldl LATParser.branches_step _ _).
  set (ms := re.finditer _ LATParser.selection_re text).
  assert (one_group (foldl LATParser.selection_step ([], c2) ms)) as H.
  { apply foldl_inv; [|by left]. unfold LATParser.selection_step.
    one_group_step. }
  cbn [LATParser.nodes]. destruct H as [->|[-> _]]; simpl; lia.
Qed.

Lemma search_no_label l r s :
  py.contains s l = false → re.search re.dotall (re.Lit l ⋅ r) s = None.
Proof.
  induction s as [|c s IH]; cbn [py.contains re.search];
    intros [Hs Hc]%orb_false_iff; rewrite (match_at_label _ _ _ Hs); [done|].
  by apply IH.
Qed.

Lemma search_field_no_label l r s :
  py.contains s l = false → search_field (re.Lit l ⋅ r) s = EmptyString.
Proof. intros H. unfold search_field. by rewrite search_no_label. Qed.

(** A loop that only fills the current group leaves an empty group empty
    when its step needs a field to be there. *)
Lemma foldl_stays {A B} (f : A → B → A) a ms :
  (∀ m, f a m = a) → foldl f a ms = a.
Proof. intros Hf. induction ms as [|m ms IH]; simpl; [done|]. by rewrite Hf. Qed.

Ltac stays_tac step :=
  apply foldl_stays; intros ?; unfold step;
  repeat match goal with
         | |- context [has ∅ ?k] => rewrite (has_empty k)
         end;
  rewrite ?andb_false_r; try done;
  repeat match goal with
         | |- context [if ?b then _ else _] => destruct b; try done
         end.

Lemma react_no_label text :
  py.contains text "Final Answer:" = false →
  py.contains text "Thought:" = false →
  ReActParser.parse text =
    {| ReActParser.cycles := []; ReActParser.final_answer := EmptyString;
       ReActParser.raw_response := text |}.
Proof.
  intros Hf Hl. unfold ReActParser.parse.
  unfold ReActParser.final_answer_re, ReActParser.thought_re.
  rewrite (search_no_label _ _ _ Hf), (finditer_no_label _ _ _ Hl).
  cbn [foldl].
  assert (∀ ms, foldl ReActParser.action_step ∅ ms = ∅) as ->
    by (intros; stays_tac ReActParser.action_step).
  assert (∀ ms, foldl ReActParser.observation_step ([], ∅) ms = ([], ∅)) as ->
    by (intros; stays_tac ReActParser.observation_step).
  done.
Qed.

Lemma ooda_no_label text :
  py.contains text "Final Answer:" = false →
  py.contains text "Observation:" = false →
  OODAParser.parse text =
    {| OODAParser.loops := []; OODAParser.final_answer := EmptyString;
       OODAParser.raw_response := text |}.
Proof.
  intros Hf Hl. unfold OODAParser.parse.
  unfold OODAParser.final_answer_re, OODAParser.observation_re.
  rewrite (search_no_label _ _ _ Hf), (finditer_no_label _ _ _ Hl).
  cbn [foldl].
  assert (∀ ms, foldl OODAParser.orientation_step ∅ ms = ∅) as ->
    by (intros; stays_tac OODAParser.orientation_step).
  assert (∀ ms, foldl OODAParser.decision_step ∅ ms = ∅) as ->
    by (intros; stays_tac OODAParser.decision_step).
  assert (∀ ms, foldl OODAParser.action_step ([], ∅) ms = ([], ∅)) as ->
    by (intros; stays_tac OODAParser.action_step).
  done.
Qed.

Lemma bdi_no_label text :
  py.contains text "Final Answer:" = false →
  py.contains text "Beliefs:" = false →
  BDIParser.parse text =
    {| BDIParser.cycles := []; BDIParser.final_answer := EmptyString;
       BDIParser.raw_response := text |}.
Proof.
  intros Hf Hl. unfold BDIParser.parse.
  unfold BDIParser.final_answer_re, BDIParser.beliefs_re.
  rewrite (search_no_label _ _ _ Hf), (finditer_no_label _ _ _ Hl).
  cbn [foldl].
  assert (∀ ms, foldl BDIParser.desires_step ∅ ms = ∅) as ->
    by (intros; stays_tac BDIParser.desires_step).
  assert (∀ ms, foldl BDIParser.intentions_step ∅ ms = ∅) as ->
    by (intros; stays_tac BDIParser.intentions_step).
  assert (∀ ms, foldl BDIParser.execution_step ([], ∅) ms = ([], ∅)) as ->
    by (intros; stays_tac BDIParser.execution_step).
  done.
Qed.

Lemma lat_no_label text :
  py.contains text "Final Answer:" = false →
  py.contains text "Problem:" = false →
  LATParser.parse text =
    {| LATParser.nodes := []; LATParser.final_answer := EmptyString;
       LATParser.raw_response := text |}.
Proof.
  intros Hf Hl. unfold LATParser.parse.
  unfold LATParser.final_answer_re, LATParser.problem_re.
  rewrite (search_no_label _ _ _ Hf), (finditer_no_label _ _ _ Hl).
  cbn [foldl].
  assert (∀ ms, foldl LATParser.branches_step ∅ ms = ∅) as ->
    by (intros; stays_tac LATParser.branches_step).
  assert (∀ ms, foldl LATParser.selection_step ([], ∅) ms = ([], ∅)) as ->
    by (intros; stays_tac LATParser.selection_step).
  done.
Qed.

Lemma raise_no_label text :
  py.contains text "Final Answer:" = false →
  py.contains text "Task Analysis:" = false →
  py.contains text "Relevant Examples:" = false →
  py.contains text "Scratch Pad:" = false →
  RAISEParser.parse text =
    {| RAISEParser.task_analysis := EmptyString;
       RAISEParser.relevant_examples := EmptyString;
       RAISEParser.scratch_pad := {| raw := EmptyString; steps := [] |};
       RAISEParser.final_answer := EmptyString;
       RAISEParser.raw_response := text |}.
Proof.
  intros Hf H1 H2 H3. unfold RAISEParser.parse.
  unfold RAISEParser.final_answer_re, RAISEParser.task_analysis_re,
    RAISEParser.examples_re, RAISEParser.scratch_pad_re.
  by rewrite !search_field_no_label.
Qed.

Lemma rewoo_no_label text :
  py.contains text "Final Answer:" = false →
  py.contains text "Problem Analysis:" = false →
  py.contains text "Reasoning:" = false →
  py.contains text "Conclusion:" = false →
  ReWOOParser.parse text =
    {| ReWOOParser.problem_analysis := EmptyString;
       ReWOOParser.reasoning := {| raw := EmptyString; steps := [] |};
       ReWOOParser.conclusion := EmptyString;
       ReWOOParser.final_answer := EmptyString;
       ReWOOParser.raw_response := text |}.
Proof.
  intros Hf H1 H2 H3. unfold ReWOOParser.parse.
  unfold ReWOOParser.final_answer_re, ReWOOParser.analysis_re,
    ReWOOParser.reasoning_re, ReWOOParser.conclusion_re.
  by rewrite !search_field_no_label.
Qed.

(** A field value as the parsers store it: trimmed, with text in it. *)
Local Abbreviation trimmed v := (v%string ≠ EmptyString ∧ py.strip v%string = v%string).
Local Abbreviation all_trimmed g := (map_Forall (λ (_ : string) v, trimmed v) g).

Lemma field_trimmed m : nonempty (field m) = true → trimmed (field m).
Proof.
  unfold nonempty. intros H%negb_true_iff%bool_decide_eq_false.
  split; [done|]. apply strip_idem.
Qed.

Lemma foldl_groups_inv {G B} (P : G → Prop) (step : list G * G → B → list G * G)
    ms :
  (∀ cs cur m, Forall P cs → P cur →
     Forall P (step (cs, cur) m).1 ∧ P (step (cs, cur) m).2) →
  ∀ cs cur, Forall P cs → P cur →
    Forall P (foldl step (cs, cur) ms).1 ∧ P (foldl step (cs, cur) ms).2.
Proof.
  intros Hstep. induction ms as [|m ms IH]; intros cs cur Hcs Hcur; simpl;
    [done|].
  destruct (Hstep cs cur m Hcs Hcur) as [H1 H2].
  destruct (step (cs, cur) m) as [cs' cur']. by apply IH.
Qed.

Ltac trimmed_step :=
  repeat match goal with
         | |- context [if ?b then _ else _] =>
             let E := fresh "E" in destruct b eqn:E; cbn [fst snd]; [|done]
         end;
  repeat match goal with
         | E : _ && _ = true |- _ => apply andb_prop in E as [E ?]
         end;
  try (split; [apply Forall_app; split; [done|apply Forall_singleton]
              |apply map_Forall_empty]);
  first [ apply map_Forall_singleton; by apply field_trimmed
        | apply map_Forall_insert_2; [by apply field_trimmed|done] ].

Lemma react_trimmed text :
  Forall (λ g, all_trimmed g) (ReActParser.cycles (ReActParser.parse text)).
Proof.
  unfold ReActParser.parse.
  set (c1 := foldl ReActParser.thought_step ∅ _).
  set (c2 := foldl ReActParser.action_step c1 _).
  assert (all_trimmed c1) as H1.
  { apply (foldl_inv _ (λ g, all_trimmed g)); [|apply map_Forall_empty].
    intros c m Hc. unfold ReActParser.thought_step. trimmed_step. }
  assert (all_trimmed c2) as H2.
  { apply (foldl_inv _ (λ g, all_trimmed g)); [|done].
    intros c m Hc. unfold ReActParser.action_step. trimmed_step. }
  destruct (foldl_groups_inv (λ g, all_trimmed g) ReActParser.observation_step
              (re.finditer re.dotall ReActParser.observation_re text))
    with (cs := @nil (gmap string string)) (cur := c2) as [Hcs Hcur];
    [|constructor|done|].
  { intros cs cur m Hcs Hcur. unfold ReActParser.observation_step.
    trimmed_step. }
  cbn [ReActParser.cycles].
  destruct (_ && _); [|done]. apply Forall_app. split; [done|].
  by apply Forall_singleton.
Qed.

Lemma ooda_trimmed text :
  Forall (λ g, all_trimmed g) (OODAParser.loops (OODAParser.parse text)).
Proof.
  unfold OODAParser.parse.
  set (c1 := foldl OODAParser.observation_step ∅ _).
  set (c2 := foldl OODAParser.orientation_step c1 _).
  set (c3 := foldl OODAParser.decision_step c2 _).
  assert (all_trimmed c1) as H1.
  { apply (foldl_inv _ (λ g, all_trimmed g)); [|apply map_Forall_empty].
    intros c m Hc. unfold OODAParser.observation_step. trimmed_step. }
  assert (all_trimmed c2) as H2.
  { apply (foldl_inv _ (λ g, all_trimmed g)); [|done].
    intros c m Hc. unfold OODAParser.orientation_step. trimmed_step. }
  assert (all_trimmed c3) as H3.
  { apply (foldl_inv _ (λ g, all_trimmed g)); [|done].
    intros c m Hc. unfold OODAParser.decision_step. trimmed_step. }
  destruct (foldl_groups_inv (λ g, all_trimmed g) OODAParser.action_step
              (re.finditer re.dotall OODAParser.action_re text))
    with (cs := @nil (gmap string string)) (cur := c3) as [Hcs Hcur];
    [|constructor|done|done].
  intros cs cur m Hcs Hcur. unfold OODAParser.action_step. trimmed_step.
Qed.

Lemma bdi_trimmed text :
  Forall (λ g, all_trimmed g) (BDIParser.cycles (BDIParser.parse text)).
Proof.
  unfold BDIParser.parse.
  set (c1 := foldl BDIParser.beliefs_step ∅ _).
  set (c2 := foldl BDIParser.desires_step c1 _).
  set (c3 := foldl BDIParser.intentions_step c2 _).
  assert (all_trimmed c1) as H1.
  { apply (foldl_inv _ (λ g, all_trimmed g)); [|apply map_Forall_empty].
    intros c m Hc. unfold BDIParser.beliefs_step. trimmed_step. }
  assert (all_trimmed c2) as H2.
  { apply (foldl_inv _ (λ g, all_trimmed g)); [|done].
    intros c m Hc. unfold BDIParser.desires_step. trimmed_step. }
  assert (all_trimmed c3) as H3.
  { apply (foldl_inv _ (λ g, all_trimmed g)); [|done].
    intros c m Hc. unfold BDIParser.intentions_step. trimmed_step. }
  destruct (foldl_groups_inv (λ g, all_trimmed g) BDIParser.execution_step
              (re.finditer re.dotall BDIParser.execution_re text))
    with (cs := @nil (gmap string string)) (cur := c3) as [Hcs Hcur];
    [|constructor|done|done].
  intros cs cur m Hcs Hcur. unfold BDIParser.execution_step. trimmed_step.
Qed.

(** X7.  Whatever the text, a record has at most one group: the loop that
    completes groups empties the current group after the first one, and
    every later match then lacks the fields it needs. *)
Theorem parse_at_most_one_group p text :
  length (groups_of (parse p text)) ≤ 1.
Proof.
  destruct p; cbn [parse groups_of]; rewrite ?length_fmap;
    [apply react_one_group|apply ooda_one_group|apply bdi_one_group
    |apply lat_one_group|simpl; lia..].
Qed.

(** X8.  A text that has neither [Final Answer:] nor the label that opens
    a group (or, for the two parsers without groups, none of their section
    labels) gives the empty record, whatever other labels it has. *)
Theorem no_leading_label_empty_record text :
  py.contains text "Final Answer:" = false →
  (py.contains text "Thought:" = false →
   ReActParser.parse text =
     {| ReActParser.cycles := []; ReActParser.final_answer := EmptyString;
        ReActParser.raw_response := text |}) ∧
  (py.contains text "Observation:" = false →
   OODAParser.parse text =
     {| OODAParser.loops := []; OODAParser.final_answer := EmptyString;
        OODAParser.raw_response := text |}) ∧
  (py.contains text "Beliefs:" = false →
   BDIParser.parse text =
     {| BDIParser.cycles := []; BDIParser.final_answer := EmptyString;
        BDIParser.raw_response := text |}) ∧
  (py.contains text "Problem:" = false →
   LATParser.parse text =
     {| LATParser.nodes := []; LATParser.final_answer := EmptyString;
        LATParser.raw_response := text |}) ∧
  (py.contains text "Task Analysis:" = false →
   py.contains text "Relevant Examples:" = false →
   py.contains text "Scratch Pad:" = false →
   RAISEParser.parse text =
     {| RAISEParser.task_analysis := EmptyString;
        RAISEParser.relevant_examples := EmptyString;
        RAISEParser.scratch_pad := {| raw := EmptyString; steps := [] |};
        RAISEParser.final_answer := EmptyString;
        RAISEParser.raw_response := text |}) ∧
  (py.contains text "Problem Analysis:" = false →
   py.contains text "Reasoning:" = false →
   py.contains text "Conclusion:" = false →
   ReWOOParser.parse text =
     {| ReWOOParser.problem_analysis := EmptyString;
        ReWOOParser.reasoning := {| raw := EmptyString; steps := [] |};
        ReWOOParser.conclusion := EmptyString;
        ReWOOParser.final_answer := EmptyString;
        ReWOOParser.raw_response := text |}).
Proof.
  intros Hf. repeat split; intros.
  - by apply react_no_label.
  - by apply ooda_no_label.
  - by apply bdi_no_label.
  - by apply lat_no_label.
  - by apply raise_no_label.
  - by apply rewoo_no_label.
Qed.

(** X9.  Every field that the ReAct, OODA and BDI parsers store in a group
    has text in it and no white space around it. *)
Theorem group_fields_trimmed text g key v :
  g ∈ ReActParser.cycles (ReActParser.parse text)
  ∨ g ∈ OODAParser.loops (OODAParser.parse text)
  ∨ g ∈ BDIParser.cycles (BDIParser.parse text) →
  g !! key = Some v →
  v ≠ EmptyString ∧ py.strip v = v.
Proof.
  intros Hg Hv.
  assert (map_Forall (λ (_ : string) v, trimmed v) g) as Hall.
  { destruct Hg as [Hg|[Hg|Hg]]; revert Hg; apply Forall_forall.
    - apply react_trimmed.
    - apply ooda_trimmed.
    - apply bdi_trimmed. }
  by apply (Hall key v).
Qed.


Lemma no_leading_label_empty_record_witness :
  ReActParser.parse "Action: X Observation: Y" =
    {| ReActParser.cycles := []; ReActParser.final_answer := EmptyString;
       ReActParser.raw_response := "Action: X Observation: Y" |}.
Proof.
  apply (no_leading_label_empty_record "Action: X Observation: Y");
    vm_compute; reflexivity.
Defined.

Lemma group_fields_trimmed_witness :
  "X" ≠ EmptyString ∧ py.strip "X" = "X".
Proof.
  apply (group_fields_trimmed "Thought:  T  Action:  X  "
           {[ "thought" := "T"; "action" := "X" ]} "action" "X").
  - left. vm_compute. left.
  - reflexivity.
Defined.


End parser_more.

(** ** What the OODA and BDI agents keep of a stage response *)

Section stage_content.
Import parser.

Lemma first_with_trimmed (groups : list (gmap string string)) key :
  Forall (map_Forall (λ (_ : string) v,
            v ≠ EmptyString ∧ py.strip v = v)) groups →
  ooda.first_with groups key = EmptyString ∨
  (ooda.first_with groups key ≠ EmptyString ∧
   py.strip (ooda.first_with groups key) = ooda.first_with groups key).
Proof.
  induction 1 as [|g groups Hg _ IH]; simpl; [by left|].
  destruct (g !! key) as [v|] eqn:Hv; [|done]. right. by apply (Hg key v).
Qed.

Lemma nonempty_true s : nonempty s = true ↔ s ≠ EmptyString.
Proof.
  unfold nonempty. by rewrite negb_true_iff, bool_decide_eq_false.
Qed.

(** X21.  What the OODA and BDI agents keep of a stage response is the
    whole response as it came, or a text with something in it and no white
    space around it (a field of the parsed record, or the stripped group of
    the stage's own pattern): so a stage never yields an empty text unless
    the response itself was empty. *)
Theorem stage_content_whole_or_trimmed response stage :
  (ooda._extract_content response stage = response ∨
   (ooda._extract_content response stage ≠ EmptyString ∧
    py.strip (ooda._extract_content response stage)
      = ooda._extract_content response stage)) ∧
  (bdi._extract_section response stage = response ∨
   (bdi._extract_section response stage ≠ EmptyString ∧
    py.strip (bdi._extract_section response stage)
      = bdi._extract_section response stage)).
Proof.
  split.
  - unfold ooda._extract_content.
    destruct (first_with_trimmed
                (OODAParser.loops (OODAParser.parse response)) stage)
      as [->|[Hne Hstrip]].
    { apply Forall_impl with (2 := λ g H, H). apply ooda_trimmed. }
    + change (nonempty EmptyString) with false. cbv beta iota zeta.
      destruct (odict_get ooda.stage_patterns stage) as [pattern|]; [|by left].
      destruct (re.search _ pattern _) as [m|]; [|by left].
      destruct (nonempty (py.strip (re.group m 1))) eqn:Hn; [|by left].
      right. split; [by apply nonempty_true|apply strip_idem].
    + rewrite (proj2 (nonempty_true _) Hne). cbv beta iota zeta.
      rewrite (proj2 (nonempty_true _) Hne). by right.
  - unfold bdi._extract_section.
    destruct (first_with_trimmed
                (BDIParser.cycles (BDIParser.parse response)) stage)
      as [->|[Hne Hstrip]].
    { apply Forall_impl with (2 := λ g H, H). apply bdi_trimmed. }
    + change (nonempty EmptyString) with false. cbv beta iota zeta.
      destruct (odict_get bdi.patterns stage) as [pattern|]; [|by left].
      destruct (re.search _ pattern _) as [m|].
      * destruct (nonempty (py.strip (re.group m 1))) eqn:Hn; [|by left].
        right. split; [by apply nonempty_true|apply strip_idem].
      * assert (BDIParser.raw_response (BDIParser.parse response) = response)
          as -> by done.
        by destruct (nonempty response); left.
    + rewrite (proj2 (nonempty_true _) Hne). cbv beta iota zeta.
      rewrite (proj2 (nonempty_true _) Hne). by right.
Qed.

End stage_content.

(** ** Runs of the agents: what surfaces, budgets and early stops *)

Section agent_more.
Import base llm run_props.
Import agent_examples.

Section surfaces_facts.
Context {W : World}.
Implicit Types (g : Gateway) (E : pyexn → Prop).

Lemma answered_nil g n : answered g n n.
Proof. intros k ?. lia. Qed.

Lemma answered_app g n1 n2 n3 :
  answered g n1 n2 → answered g n2 n3 → answered g n1 n3.
Proof.
  intros H1 H2 k Hk. destruct (decide (k < n2)); [apply H1|apply H2]; lia.
Qed.

Lemma surfaces_ret {A} E (P : A → Prop) (a : A) : P a → surfaces E P (ret a).
Proof. intros Ha g n. cbn. split; [done|]. split; [apply answered_nil|done]. Qed.

Lemma surfaces_lift {A} E (P : A → Prop) (r : pyexn + A) :
  (∀ e, r = inl e → E e) → (∀ a, r = inr a → P a) → surfaces E P (lift r).
Proof.
  intros He Ha g n. unfold lift. destruct r as [e|a].
  - left. split; [done|]. split; [apply answered_nil|auto].
  - split; [done|]. split; [apply answered_nil|auto].
Qed.

Lemma surfaces_generate E : surfaces E (λ _ : string, True) generate.
Proof.
  intros g n. unfold generate. destruct (g n) as [e|r] eqn:Hg.
  - right. exists n. split; [done|]. split; [done|].
    split; [apply answered_nil|done].
  - split; [lia|]. split; [|done]. intros k Hk.
    assert (k = n) as -> by lia. eauto.
Qed.

Lemma surfaces_bind {A B} E (Q : A → Prop) (P : B → Prop) (m : M A)
    (f : A → M B) :
  surfaces E Q m → (∀ a, Q a → surfaces E P (f a)) → surfaces E P (bind m f).
Proof.
  intros Hm Hf g n. unfold bind. specialize (Hm g n).
  destruct (m g n) as [[e|a] n1]; [done|].
  destruct Hm as (Hle & Hans & Ha). specialize (Hf a Ha g n1).
  destruct (f a g n1) as [[e|b] n2].
  - destruct Hf as [(? & ? & ?)|(k & -> & ? & ? & ?)].
    + left. split; [lia|]. split; [by eapply answered_app|done].
    + right. exists k. split; [done|]. split; [lia|].
      split; [by eapply answered_app|done].
  - destruct Hf as (? & ? & ?). split; [lia|].
    split; [by eapply answered_app|done].
Qed.

Lemma surfaces_weaken {A} E (P Q : A → Prop) (m : M A) :
  (∀ a, P a → Q a) → surfaces E P m → surfaces E Q m.
Proof.
  intros HPQ Hm g n. specialize (Hm g n).
  destruct (m g n) as [[e|a] n']; [done|]. naive_solver.
Qed.

Lemma surfaces_stage {A} E (f : string → A) :
  surfaces E (λ _, True) (bind generate (λ response, ret (f response))).
Proof.
  eapply surfaces_bind; [apply surfaces_generate|].
  intros r _. by apply surfaces_ret.
Qed.

(** *** What [format_output] renders *)

Lemma formattable_step t c : formattable (step t c).
Proof.
  unfold formattable, format_step, step. simplify_map_eq.
  destruct (_ && _); eauto.
Qed.

Lemma formattable_insert key v s :
  key ≠ "type" → key ≠ "content" → formattable s →
  formattable (<[key := v]> s).
Proof.
  intros H1 H2. unfold formattable, format_step.
  by rewrite !lookup_insert_ne by done.
Qed.

Lemma formattable_tasks tasks :
  formattable {[ "type" := PStr "worker_tasks"; "content" := PList tasks ]}.
Proof.
  unfold formattable, format_step. simplify_map_eq.
  cbn. destruct (negb _); eauto.
Qed.

Lemma format_steps_ok steps :
  Forall formattable steps → ∃ text, format_steps steps = inr text.
Proof.
  induction 1 as [|s steps [text Hs] _ [texts IH]]; simpl; [eauto|].
  rewrite Hs, IH. eauto.
Qed.

Lemma format_output_ok (r : AgentResult) a verbose :
  metadata r !! "architecture" = Some (PStr a) →
  Forall formattable (intermediate_steps r) →
  ∃ text, format_output r verbose = inr text.
Proof.
  intros Ha Hsteps. unfold format_output. rewrite Ha. cbn [default].
  destruct verbose; [|eauto].
  destruct (format_steps_ok _ Hsteps) as [text ->]. eauto.
Qed.

(** *** The six control loops *)

Local Abbreviation renders id arch :=
  (λ r : AgentResult,
     agent_id r = id ∧ metadata r !! "architecture" = Some (PStr arch) ∧
     Forall formattable (intermediate_steps r)).

Local Hint Resolve formattable_step formattable_tasks : fmt.
Local Hint Extern 1 (Forall formattable (_ ++ _)) =>
  apply Forall_app; split : fmt.
Local Hint Extern 1 (Forall formattable [_]) => apply Forall_singleton : fmt.
Local Hint Extern 1 (Forall formattable (_ :: _)) => apply Forall_cons : fmt.
Local Hint Extern 1 (Forall formattable []) => apply Forall_nil : fmt.
Local Hint Extern 1 (formattable (<[_ := _]> _)) =>
  apply formattable_insert; [done|done|] : fmt.

Ltac stage := eapply surfaces_bind; [apply surfaces_stage|]; intros ? _.

Lemma react_surfaces E (self : react.ReActAgent W) task context :
  surfaces E (renders (react.id self) "react")
    (react.execute self task context).
Proof.
  unfold react.execute.
  eapply surfaces_bind
    with (Q := λ st, Forall formattable (react.intermediate_steps st)).
  { generalize (Z.to_nat (react.max_iterations self)). intros k.
    assert (Forall formattable
              (react.intermediate_steps
                 {| react.context := react._set_up_initial_context self task context;
                    react.iterations := 0; react.is_done := false;
                    react.final_answer := EmptyString;
                    react.intermediate_steps := [] |})) as H0 by constructor.
    revert H0.
    match goal with
    | |- _ → surfaces _ _ (react.main_loop _ _ ?st0) => generalize st0
    end.
    induction k as [|k IH]; intros st Hst; cbn [react.main_loop].
    - destruct (react.is_done st); by apply surfaces_ret.
    - destruct (react.is_done st); [by apply surfaces_ret|].
      eapply surfaces_bind; [|intros st' Hst'; apply (IH st' Hst')].
      unfold react.iteration, react._get_next_step.
      eapply surfaces_bind; [apply surfaces_stage|]. intros next_step _.
      apply surfaces_ret. cbn [react.intermediate_steps].
      unfold react.act, react.think.
      repeat case_match; cbn [fst snd]; auto 10 with fmt. }
  intros st Hst.
  eapply surfaces_bind with (Q := λ _, True).
  { destruct (react.is_done st); [by apply surfaces_ret|].
    unfold react._generate_partial_answer.
    stage. by apply surfaces_ret. }
  intros answer _. apply surfaces_ret. cbn. by simplify_map_eq.
Qed.

Lemma ooda_surfaces E (self : ooda.OODAAgent W) task context :
  surfaces E (renders (ooda.id self) "ooda") (ooda.execute self task context).
Proof.
  unfold ooda.execute.
  eapply surfaces_bind
    with (Q := λ st, Forall formattable (ooda.intermediate_steps st)).
  { generalize (Z.to_nat (ooda.max_iterations self)). intros k.
    assert (Forall formattable
              (ooda.intermediate_steps
                 {| ooda.context := ooda._initialize_context self task context;
                    ooda.iterations := 0; ooda.is_done := false;
                    ooda.final_answer := EmptyString;
                    ooda.intermediate_steps := [] |})) as H0 by constructor.
    revert H0.
    match goal with
    | |- _ → surfaces _ _ (ooda.main_loop _ _ ?st0) => generalize st0
    end.
    induction k as [|k IH]; intros st Hst; cbn [ooda.main_loop].
    - destruct (ooda.is_done st); by apply surfaces_ret.
    - destruct (ooda.is_done st); [by apply surfaces_ret|].
      eapply surfaces_bind; [|intros st' Hst'; apply (IH st' Hst')].
      unfold ooda.iteration, ooda._process_stage, ooda._check_completion.
      do 4 stage. apply surfaces_ret. cbn [ooda.intermediate_steps].
      auto 10 with fmt. }
  intros st Hst.
  eapply surfaces_bind with (Q := λ _, True).
  { destruct (ooda.is_done st); [by apply surfaces_ret|].
    unfold ooda._generate_partial_answer.
    stage. by apply surfaces_ret. }
  intros answer _. apply surfaces_ret. cbn. by simplify_map_eq.
Qed.

Lemma bdi_surfaces E (self : bdi.BDIAgent W) task context :
  surfaces E (renders (bdi.id self) "bdi") (bdi.execute self task context).
Proof.
  unfold bdi.execute.
  eapply surfaces_bind
    with (Q := λ st, Forall formattable (bdi.intermediate_steps st)).
  { generalize (Z.to_nat (bdi.max_iterations self)). intros k.
    assert (Forall formattable
              (bdi.intermediate_steps
                 {| bdi.context := bdi._initialize_context self task context;
                    bdi.iterations := 0; bdi.is_done := false;
                    bdi.final_answer := EmptyString;
                    bdi.intermediate_steps := [] |})) as H0 by constructor.
    revert H0.
    match goal with
    | |- _ → surfaces _ _ (bdi.main_loop _ _ ?st0) => generalize st0
    end.
    induction k as [|k IH]; intros st Hst; cbn [bdi.main_loop].
    - destruct (bdi.is_done st); by apply surfaces_ret.
    - destruct (bdi.is_done st); [by apply surfaces_ret|].
      eapply surfaces_bind; [|intros st' Hst'; apply (IH st' Hst')].
      unfold bdi.iteration, bdi._update_beliefs, bdi._generate_desires,
        bdi._filter_to_intentions, bdi._select_actions, bdi._check_completion.
      do 5 stage. apply surfaces_ret. cbn [bdi.intermediate_steps].
      auto 10 with fmt. }
  intros st Hst.
  eapply surfaces_bind with (Q := λ _, True).
  { destruct (bdi.is_done st); [by apply surfaces_ret|].
    unfold bdi._generate_partial_answer. apply surfaces_stage. }
  intros answer _. apply surfaces_ret. cbn. by simplify_map_eq.
Qed.

Lemma lat_surfaces E (self : lat.LATAgent W) task context :
  surfaces E (renders (lat.id self) "lat") (lat.execute self task context).
Proof.
  unfold lat.execute, lat._generate_llm_response.
  stage.
  eapply surfaces_bind
    with (Q := λ st, Forall formattable (lat.intermediate_steps st)).
  { generalize (Z.to_nat (lat.max_depth self)). intros k.
    match goal with
    | |- surfaces _ _ (lat.search_loop _ _ ?st0) =>
        assert (Forall formattable (lat.intermediate_steps st0)) as H0
          by (cbn; auto with fmt);
        revert H0; generalize st0
    end.
    induction k as [|k IH]; intros st Hst; cbn [lat.search_loop];
      [by apply surfaces_ret|].
    unfold lat._generate_llm_response, lat._need_simulation,
      lat._process_simulation, lat._is_terminal_state, lat.step_at.
    stage. stage.
    eapply surfaces_bind
      with (Q := λ steps, Forall formattable steps).
    { match goal with |- context [if ?b then _ else _] => destruct b end.
      - do 2 stage. apply surfaces_ret. auto 10 with fmt.
      - apply surfaces_ret. auto 10 with fmt. }
    intros steps Hsteps. stage.
    match goal with |- context [if ?b then _ else _] => destruct b end;
      [by apply surfaces_ret|by apply IH]. }
  intros st Hst. do 2 stage. apply surfaces_ret. cbn.
  split; [done|]. split; [by simplify_map_eq|]. auto 10 with fmt.
Qed.

Lemma rewoo_surfaces E (self : rewoo.ReWOOAgent) task
    (context : option (gmap string (Value W))) :
  surfaces E (renders (rewoo.id self) "rewoo")
    (rewoo.execute self task context).
Proof.
  unfold rewoo.execute, rewoo._generate_llm_response.
  stage.
  eapply surfaces_bind with (Q := λ _, True).
  { unfold rewoo._assign_worker_tasks.
    destruct (rewoo.extract_tasks self _ _); [by apply surfaces_ret|].
    eapply surfaces_bind; [apply surfaces_generate|]. intros r _.
    destruct (rewoo.extract_tasks self _ r); by apply surfaces_ret. }
  intros worker_tasks _.
  eapply surfaces_bind with (Q := λ rs, Forall formattable rs.2).
  { match goal with
    | |- surfaces _ _ (rewoo.run_workers _ _ _ _ ?steps0) =>
        assert (Forall formattable steps0) as H0 by auto 10 with fmt;
        revert H0; generalize steps0
    end.
    generalize 1 (@nil string).
    induction worker_tasks as [|t ts IH]; intros wid results steps Hsteps;
      cbn [rewoo.run_workers]; [by apply surfaces_ret|].
    unfold rewoo._generate_llm_response. stage. apply IH.
    auto 10 with fmt. }
  intros [results steps] Hsteps. stage.
  apply surfaces_ret. cbn. split; [done|]. split; [by simplify_map_eq|].
  cbn in Hsteps. auto 10 with fmt.
Qed.

Lemma surfaces_lift_update E pad section content :
  E (IndexError "list index out of range") →
  surfaces E (λ _, True)
    (lift (raise_agent._update_scratch_pad pad section content)).
Proof.
  intros HE. apply surfaces_lift; [|done]. intros e He.
  destruct (update_scratch_pad_cases pad section content) as [[pad' H]|H];
    congruence.
Qed.

Lemma raise_surfaces (self : raise_agent.RAISEAgent W) task context :
  surfaces (λ e, e = IndexError "list index out of range")
    (renders (raise_agent.id self) "raise")
    (raise_agent.execute self task context).
Proof.
  unfold raise_agent.execute.
  eapply surfaces_bind with (Q := λ _, True).
  { unfold raise_agent._initialize_scratch_pad, raise_agent._generate_llm_step.
    stage. destruct (_ && _); by apply surfaces_ret. }
  intros pad0 _.
  eapply surfaces_bind
    with (Q := λ st, Forall formattable (raise_agent.intermediate_steps st)).
  { generalize (Z.to_nat (raise_agent.max_iterations self)). intros k.
    match goal with
    | |- surfaces _ _ (raise_agent.main_loop _ _ ?st0) =>
        assert (Forall formattable (raise_agent.intermediate_steps st0)) as H0
          by constructor;
        revert H0; generalize st0
    end.
    induction k as [|k IH]; intros st Hst; cbn [raise_agent.main_loop].
    - destruct (raise_agent.is_done st); by apply surfaces_ret.
    - destruct (raise_agent.is_done st); [by apply surfaces_ret|].
      eapply surfaces_bind; [|intros st' Hst'; apply (IH st' Hst')].
      unfold raise_agent.iteration, raise_agent._generate_llm_step,
        raise_agent._check_completion.
      stage.
      eapply surfaces_bind; [by apply surfaces_lift_update|]. intros pad1 _.
      stage.
      eapply surfaces_bind; [by apply surfaces_lift_update|]. intros pad2 _.
      eapply surfaces_bind with (Q := λ _, True).
      { unfold raise_agent._should_use_tools.
        destruct (bool_decide _); [by apply surfaces_ret|apply surfaces_stage]. }
      intros use _.
      eapply surfaces_bind with (Q := λ cps, Forall formattable cps.2).
      { destruct use; [|apply surfaces_ret; cbn; auto 10 with fmt].
        eapply surfaces_bind with (Q := λ _, True).
        { unfold raise_agent._use_tools.
          eapply surfaces_bind; [apply surfaces_generate|]. intros r _.
          destruct (re.search _ _ _); [|by apply surfaces_ret].
          destruct (tools.find_tool _ _); [|by apply surfaces_ret].
          destruct (exn_bind _ _); by apply surfaces_ret. }
        intros results _.
        eapply surfaces_bind; [by apply surfaces_lift_update|]. intros pad3 _.
        stage.
        eapply surfaces_bind; [by apply surfaces_lift_update|]. intros pad4 _.
        apply surfaces_ret. cbn. auto 10 with fmt. }
      intros [[c p] s] Hs. cbn in Hs.
      stage.
      eapply surfaces_bind with (Q := λ _, True).
      { destruct (raise_agent.looks_like_pad _);
          [by apply surfaces_ret|by apply surfaces_lift_update]. }
      intros pad5 _.
      stage. by apply surfaces_ret. }
  intros st Hst. eapply surfaces_bind with (Q := λ _, True).
  { destruct (raise_agent.is_done st); [by apply surfaces_ret|].
    unfold raise_agent._generate_partial_answer.
    stage. by apply surfaces_ret. }
  intros answer _. apply surfaces_ret. cbn. by simplify_map_eq.
Qed.

Lemma surfaces_exn {A} (E E' : pyexn → Prop) (P : A → Prop) (m : M A) :
  (∀ e, E e → E' e) → surfaces E P m → surfaces E' P m.
Proof.
  intros HE Hm g n. specialize (Hm g n).
  destruct (m g n) as [[e|a] n']; [|done]. naive_solver.
Qed.

Lemma agent_surfaces (self : Agent.agent W) task context :
  surfaces (λ e, e = IndexError "list index out of range" ∧
                 ∃ a, self = Agent.RAISEAgent a)
    (λ r, agent_id r = Agent.ident self ∧
          (∃ a, metadata r !! "architecture" = Some (PStr a)) ∧
          Forall formattable (intermediate_steps r))
    (Agent.execute self task context).
Proof.
  destruct self as [a|a|a|a|a|a]; cbn [Agent.execute Agent.ident].
  - eapply surfaces_weaken; [|apply react_surfaces]. naive_solver.
  - eapply surfaces_weaken; [|apply ooda_surfaces]. naive_solver.
  - eapply surfaces_weaken; [|apply bdi_surfaces]. naive_solver.
  - eapply surfaces_weaken; [|apply lat_surfaces]. naive_solver.
  - eapply surfaces_weaken; [|eapply surfaces_exn; [|apply raise_surfaces]];
      naive_solver.
  - eapply surfaces_weaken; [|apply rewoo_surfaces]. naive_solver.
Qed.

(** *** Call counts of the loops *)

(** Splits a run on the answer, or the exception, of its next gateway
    call. *)
Ltac next_call g :=
  match goal with
  | |- context [g ?k] =>
      let r := fresh "r" in let Hr := fresh "Hr" in
      destruct (g k) as [?|r] eqn:Hr; cbn; [by intros [=]|]
  end.

Lemma react_iteration_calls (self : react.ReActAgent W) st g n st1 n1 :
  react.iteration self st g n = (inr st1, n1) →
  n1 = S n ∧ react.iterations st1 = (react.iterations st + 1)%Z.
Proof.
  unfold react.iteration, react._get_next_step, bind, generate, ret.
  next_call g. by intros [= <- <-].
Qed.

Lemma ooda_iteration_calls (self : ooda.OODAAgent W) st g n st1 n1 :
  ooda.iteration self st g n = (inr st1, n1) →
  n1 = n + 4 ∧ ooda.iterations st1 = (ooda.iterations st + 1)%Z.
Proof.
  unfold ooda.iteration, ooda._process_stage, ooda._check_completion,
    bind, generate, ret.
  do 4 next_call g. intros [= <- <-]. split; [lia|done].
Qed.

Lemma bdi_iteration_calls (self : bdi.BDIAgent W) st g n st1 n1 :
  bdi.iteration self st g n = (inr st1, n1) →
  n1 = n + 5 ∧ bdi.iterations st1 = (bdi.iterations st + 1)%Z.
Proof.
  unfold bdi.iteration, bdi._update_beliefs, bdi._generate_desires,
    bdi._filter_to_intentions, bdi._select_actions, bdi._check_completion,
    bind, generate, ret.
  do 5 next_call g. intros [= <- <-]. split; [lia|done].
Qed.

Lemma react_loop_budget (self : react.ReActAgent W) : ∀ k st g n st' n',
  react.main_loop self k st g n = (inr st', n') →
  (react.iterations st ≤ react.iterations st'
     ≤ react.iterations st + Z.of_nat k)%Z ∧
  n' = n + Z.to_nat (react.iterations st' - react.iterations st).
Proof.
  induction k as [|k IH]; intros st g n st' n'; cbn [react.main_loop].
  - destruct (react.is_done st); intros [= <- <-];
      rewrite Z.sub_diag; simpl; lia.
  - destruct (react.is_done st);
      [intros [= <- <-]; rewrite Z.sub_diag; simpl; lia|].
    unfold bind at 1.
    destruct (react.iteration self st g n) as [[e|st1] n1] eqn:Hit; [done|].
    apply react_iteration_calls in Hit as [-> Hst1].
    intros [H1 ->]%IH. rewrite Hst1 in *. split; [lia|]. lia.
Qed.

Lemma ooda_loop_budget (self : ooda.OODAAgent W) : ∀ k st g n st' n',
  ooda.main_loop self k st g n = (inr st', n') →
  (ooda.iterations st ≤ ooda.iterations st'
     ≤ ooda.iterations st + Z.of_nat k)%Z ∧
  n' = n + 4 * Z.to_nat (ooda.iterations st' - ooda.iterations st).
Proof.
  induction k as [|k IH]; intros st g n st' n'; cbn [ooda.main_loop].
  - destruct (ooda.is_done st); intros [= <- <-];
      rewrite Z.sub_diag; simpl; lia.
  - destruct (ooda.is_done st);
      [intros [= <- <-]; rewrite Z.sub_diag; simpl; lia|].
    unfold bind at 1.
    destruct (ooda.iteration self st g n) as [[e|st1] n1] eqn:Hit; [done|].
    apply ooda_iteration_calls in Hit as [-> Hst1].
    intros [H1 ->]%IH. rewrite Hst1 in *. split; [lia|]. lia.
Qed.

Lemma bdi_loop_budget (self : bdi.BDIAgent W) : ∀ k st g n st' n',
  bdi.main_loop self k st g n = (inr st', n') →
  (bdi.iterations st ≤ bdi.iterations st'
     ≤ bdi.iterations st + Z.of_nat k)%Z ∧
  n' = n + 5 * Z.to_nat (bdi.iterations st' - bdi.iterations st).
Proof.
  induction k as [|k IH]; intros st g n st' n'; cbn [bdi.main_loop].
  - destruct (bdi.is_done st); intros [= <- <-];
      rewrite Z.sub_diag; simpl; lia.
  - destruct (bdi.is_done st);
      [intros [= <- <-]; rewrite Z.sub_diag; simpl; lia|].
    unfold bind at 1.
    destruct (bdi.iteration self st g n) as [[e|st1] n1] eqn:Hit; [done|].
    apply bdi_iteration_calls in Hit as [-> Hst1].
    intros [H1 ->]%IH. rewrite Hst1 in *. split; [lia|]. lia.
Qed.

Lemma lat_loop_budget (self : lat.LATAgent W) : ∀ k st g n st' n',
  lat.search_loop self k st g n = (inr st', n') →
  ∃ d, length (lat.current_path st') = length (lat.current_path st) + d ∧
    d ≤ k ∧ (0 < k → 0 < d) ∧ n + 3 * d ≤ n' ≤ n + 5 * d.
Proof.
  induction k as [|k IH]; intros st g n st' n'; cbn [lat.search_loop].
  - intros [= <- <-]. exists 0. lia.
  - unfold lat._generate_llm_response, lat._need_simulation,
      lat._process_simulation, lat._is_terminal_state, bind, generate, ret.
    do 2 next_call g.
    match goal with
    | |- context [if ?b then _ else _] => destruct b; cbn
    end.
    + do 3 next_call g.
      match goal with
      | |- context [if ?b then _ else _] => destruct b; cbn
      end.
      * intros [= <- <-]. cbn. exists 1. rewrite length_app. simpl. lia.
      * intros (d & Hd & ? & _ & ?)%IH. cbn in Hd.
        rewrite length_app in Hd. simpl in Hd. exists (S d). lia.
    + next_call g.
      match goal with
      | |- context [if ?b then _ else _] => destruct b; cbn
      end.
      * intros [= <- <-]. cbn. exists 1. rewrite length_app. simpl. lia.
      * intros (d & Hd & ? & _ & ?)%IH. cbn in Hd.
        rewrite length_app in Hd. simpl in Hd. exists (S d). lia.
Qed.

Lemma raise_iteration_calls (self : raise_agent.RAISEAgent W) st g n st1 n1 :
  raise_agent.iteration self st g n = (inr st1, n1) →
  n + 4 ≤ n1 ≤ n + 7 ∧
  raise_agent.iterations st1 = (raise_agent.iterations st + 1)%Z.
Proof.
  unfold raise_agent.iteration, raise_agent._generate_llm_step,
    raise_agent._check_completion, raise_agent._should_use_tools,
    raise_agent._use_tools, bind, generate, ret, lift.
  repeat first
    [ next_call g
    | match goal with
      | |- context [raise_agent._update_scratch_pad ?p ?s ?c] =>
          destruct (raise_agent._update_scratch_pad p s c);
          cbn; [by intros [=]|]
      | |- context [if ?b then _ else _] => destruct b; cbn
      | |- context [match re.search ?f ?r ?t with _ => _ end] =>
          destruct (re.search f r t); cbn
      | |- context [match tools.find_tool ?ts ?t with _ => _ end] =>
          destruct (tools.find_tool ts t); cbn
      | |- context [match exn_bind ?a ?b with _ => _ end] =>
          destruct (exn_bind a b); cbn
      end ];
  intros [= <- <-]; (split; [lia|done]).
Qed.

Lemma raise_loop_budget (self : raise_agent.RAISEAgent W) : ∀ k st g n st' n',
  raise_agent.main_loop self k st g n = (inr st', n') →
  (raise_agent.iterations st ≤ raise_agent.iterations st'
     ≤ raise_agent.iterations st + Z.of_nat k)%Z ∧
  n + 4 * Z.to_nat (raise_agent.iterations st' - raise_agent.iterations st)
    ≤ n' ≤
  n + 7 * Z.to_nat (raise_agent.iterations st' - raise_agent.iterations st).
Proof.
  induction k as [|k IH]; intros st g n st' n'; cbn [raise_agent.main_loop].
  - destruct (raise_agent.is_done st); intros [= <- <-];
      rewrite Z.sub_diag; simpl; lia.
  - destruct (raise_agent.is_done st);
      [intros [= <- <-]; rewrite Z.sub_diag; simpl; lia|].
    unfold bind at 1.
    destruct (raise_agent.iteration self st g n) as [[e|st1] n1] eqn:Hit;
      [done|].
    apply raise_iteration_calls in Hit as [Hn1 Hst1].
    intros [H1 H2]%IH. rewrite Hst1 in *. split; [lia|]. lia.
Qed.

Lemma raise_init_calls (self : raise_agent.RAISEAgent W) context g n pad n1 :
  raise_agent._initialize_scratch_pad self context g n = (inr pad, n1) →
  n1 = S n.
Proof.
  unfold raise_agent._initialize_scratch_pad, raise_agent._generate_llm_step,
    bind, generate, ret.
  next_call g. by destruct (_ && _); intros [= <- <-].
Qed.

(** The end of [execute], after the loop: the stored answer, or one more
    call for the partial answer. *)
Ltac after_loop g :=
  unfold bind, ret, generate;
  match goal with
  | |- context [if ?b then _ else _] => destruct b; cbn
  end;
  [|next_call g]; intros [= <- <-]; cbn.

(** X12.  A run that returns has made at most [max_iterations] passes
    through its loop (none when the budget is zero or negative), records
    that number, and has made the gateway calls of these passes, plus one
    when it had to ask for a partial answer; the tree search makes at most
    [max_depth] rounds.  The calls of a pass are 1 for ReAct, 4 for OODA, 5
    for BDI, 4 to 7 for RAISE (after one call for the scratch pad) and 3 or
    5 for a round of the tree search (between one call before and two
    after). *)
Theorem iteration_budget_respected :
  (∀ (self : react.ReActAgent W) task context g n r n',
     react.execute self task context g n = (inr r, n') →
     ∃ k, metadata r !! "iterations" = Some (PInt (Z.of_nat k)) ∧
       (Z.of_nat k ≤ Z.max 0 (react.max_iterations self))%Z ∧
       n + k ≤ n' ≤ n + k + 1) ∧
  (∀ (self : ooda.OODAAgent W) task context g n r n',
     ooda.execute self task context g n = (inr r, n') →
     ∃ k, metadata r !! "iterations" = Some (PInt (Z.of_nat k)) ∧
       (Z.of_nat k ≤ Z.max 0 (ooda.max_iterations self))%Z ∧
       n + 4 * k ≤ n' ≤ n + 4 * k + 1) ∧
  (∀ (self : bdi.BDIAgent W) task context g n r n',
     bdi.execute self task context g n = (inr r, n') →
     ∃ k, metadata r !! "iterations" = Some (PInt (Z.of_nat k)) ∧
       (Z.of_nat k ≤ Z.max 0 (bdi.max_iterations self))%Z ∧
       n + 5 * k ≤ n' ≤ n + 5 * k + 1) ∧
  (∀ (self : raise_agent.RAISEAgent W) task context g n r n',
     raise_agent.execute self task context g n = (inr r, n') →
     ∃ k, metadata r !! "iterations" = Some (PInt (Z.of_nat k)) ∧
       (Z.of_nat k ≤ Z.max 0 (raise_agent.max_iterations self))%Z ∧
       n + 1 + 4 * k ≤ n' ≤ n + 1 + 7 * k + 1) ∧
  (∀ (self : lat.LATAgent W) task context g n r n',
     lat.execute self task context g n = (inr r, n') →
     ∃ k, metadata r !! "path_length" = Some (PInt (Z.of_nat k)) ∧
       (Z.of_nat k ≤ Z.max 0 (lat.max_depth self))%Z ∧
       ((0 < lat.max_depth self)%Z → 0 < k) ∧
       n + 3 + 3 * k ≤ n' ≤ n + 3 + 5 * k).
Proof.
  repeat split.
  - intros self task context g n r n'. unfold react.execute. unfold bind at 1.
    destruct (react.main_loop _ _ _ g n) as [[e|st] n1] eqn:Hloop; [done|].
    apply react_loop_budget in Hloop as [Hit ->]. cbn in Hit.
    rewrite Z.sub_0_r. after_loop g;
      (exists (Z.to_nat (react.iterations st));
       rewrite Z2Nat.id by lia; split; [by simplify_map_eq|lia]).
  - intros self task context g n r n'. unfold ooda.execute. unfold bind at 1.
    destruct (ooda.main_loop _ _ _ g n) as [[e|st] n1] eqn:Hloop; [done|].
    apply ooda_loop_budget in Hloop as [Hit ->]. cbn in Hit.
    rewrite Z.sub_0_r. after_loop g;
      (exists (Z.to_nat (ooda.iterations st));
       rewrite Z2Nat.id by lia; split; [by simplify_map_eq|lia]).
  - intros self task context g n r n'. unfold bdi.execute. unfold bind at 1.
    destruct (bdi.main_loop _ _ _ g n) as [[e|st] n1] eqn:Hloop; [done|].
    apply bdi_loop_budget in Hloop as [Hit ->]. cbn in Hit.
    rewrite Z.sub_0_r. unfold bdi._generate_partial_answer. after_loop g;
      (exists (Z.to_nat (bdi.iterations st));
       rewrite Z2Nat.id by lia; split; [by simplify_map_eq|lia]).
  - intros self task context g n r n'. unfold raise_agent.execute.
    unfold bind at 1.
    destruct (raise_agent._initialize_scratch_pad _ _ g n)
      as [[e|pad0] n0] eqn:Hinit; [done|].
    apply raise_init_calls in Hinit as ->. unfold bind at 1.
    destruct (raise_agent.main_loop _ _ _ g _) as [[e|st] n1] eqn:Hloop;
      [done|].
    apply raise_loop_budget in Hloop as [Hit Hn1]. cbn in Hit, Hn1.
    rewrite Z.sub_0_r in Hn1. after_loop g;
      (exists (Z.to_nat (raise_agent.iterations st));
       rewrite Z2Nat.id by lia; split; [by simplify_map_eq|lia]).
  - intros self task context g n r n'. unfold lat.execute.
    unfold lat._generate_llm_response at 1. unfold bind at 1, bind at 1.
    unfold generate at 1, ret at 1. next_call g. unfold bind at 1.
    destruct (lat.search_loop _ _ _ g _) as [[e|st] n1] eqn:Hloop; [done|].
    apply lat_loop_budget in Hloop as (d & Hd & ? & ? & ?). cbn in Hd.
    unfold lat._generate_llm_response, bind, generate, ret.
    do 2 next_call g. intros [= <- <-]. cbn. exists d.
    split; [rewrite Hd; by simplify_map_eq|]. lia.
Qed.


(** X13.  With a budget of zero or less the loop body never runs: the
    run makes one call, for the partial answer, and returns the
    not-completed notice followed by the response, with no step and zero
    iterations. *)
Theorem zero_budget_partial_answer g n response task context :
  g n = inr response →
  (∀ self : react.ReActAgent W, (react.max_iterations self ≤ 0)%Z →
     react.execute self task context g n =
       (inr {| agent_id := react.id self;
               output := not_completed +:+ response;
               intermediate_steps := [];
               metadata := {[ "architecture" := PStr "react";
                              "iterations" := PInt 0 ]} |}, S n)) ∧
  (∀ self : ooda.OODAAgent W, (ooda.max_iterations self ≤ 0)%Z →
     ooda.execute self task context g n =
       (inr {| agent_id := ooda.id self;
               output := not_completed +:+ response;
               intermediate_steps := [];
               metadata := {[ "architecture" := PStr "ooda";
                              "iterations" := PInt 0 ]} |}, S n)) ∧
  (∀ self : bdi.BDIAgent W, (bdi.max_iterations self ≤ 0)%Z →
     bdi.execute self task context g n =
       (inr {| agent_id := bdi.id self;
               output := not_completed +:+ response;
               intermediate_steps := [];
               metadata := {[ "architecture" := PStr "bdi";
                              "iterations" := PInt 0 ]} |}, S n)).
Proof.
  intros Hg. repeat split; intros self Hmax.
  - unfold react.execute. rewrite Z2Nat.nonpos by done.
    cbn [react.main_loop react.is_done]. unfold react._generate_partial_answer,
      bind, ret, generate. cbn. by rewrite Hg.
  - unfold ooda.execute. rewrite Z2Nat.nonpos by done.
    cbn [ooda.main_loop ooda.is_done]. unfold ooda._generate_partial_answer,
      bind, ret, generate. cbn. by rewrite Hg.
  - unfold bdi.execute. rewrite Z2Nat.nonpos by done.
    cbn [bdi.main_loop bdi.is_done]. unfold bdi._generate_partial_answer,
      bind, ret, generate. cbn. by rewrite Hg.
Qed.

(** X14.  A ReAct run whose budget is positive and whose first response
    has a final answer stops after that one call: the output is the final
    answer as the parser extracted it and one iteration is recorded. *)
Theorem react_stops_at_final_answer (self : react.ReActAgent W) task context
    g n response :
  g n = inr response → (0 < react.max_iterations self)%Z →
  parser.nonempty
    (parser.ReActParser.final_answer (parser.ReActParser.parse response))
    = true →
  ∃ r, react.execute self task context g n = (inr r, S n) ∧
    output r =
      parser.ReActParser.final_answer (parser.ReActParser.parse response) ∧
    metadata r !! "iterations" = Some (PInt 1).
Proof.
  intros Hg Hmax Hfinal. unfold react.execute.
  destruct (Z.to_nat (react.max_iterations self)) as [|k] eqn:Hk; [lia|].
  cbn [react.main_loop react.is_done].
  match goal with
  | |- context [react.iteration self ?st0] =>
      destruct (react_iteration_run self st0 g n response Hg)
        as (st' & Hit & Hn & _ & Hdone)
  end.
  destruct (Hdone Hfinal) as [Hd Hf].
  erewrite bind_run; [|erewrite bind_run by exact Hit;
                       destruct k; cbn [react.main_loop]; rewrite Hd;
                       reflexivity].
  rewrite Hd. cbn [bind ret]. eexists. split; [reflexivity|].
  cbn [output metadata]. split; [done|]. rewrite Hn. by simplify_map_eq.
Qed.

End surfaces_facts.
Lemma iteration_budget_respected_witness :
  ∃ r n', react.execute react_with_calc "2+2" None always_no 0 = (inr r, n') ∧
    ∃ k, metadata r !! "iterations" = Some (PInt (Z.of_nat k)) ∧
      (Z.of_nat k ≤ 10)%Z ∧ k ≤ n' ≤ k + 1.
Proof.
  destruct (react.execute react_with_calc "2+2" None always_no 0)
    as [[e|r] n'] eqn:Hrun; [by vm_compute in Hrun|].
  exists r, n'. split; [done|].
  apply (proj1 (@iteration_budget_respected text_world)
           react_with_calc "2+2" None always_no 0 r n' Hrun).
Defined.

Lemma zero_budget_partial_answer_witness :
  react.execute
    {| react.id := "agent-1"; react.verbose := false;
       react.max_iterations := 0; react.tools := [calc] |}
    "2+2" None always_no 0
  = (inr {| agent_id := "agent-1"; output := not_completed +:+ "no";
            intermediate_steps := [];
            metadata := {[ "architecture" := PStr "react";
                           "iterations" := PInt 0 ]} |}, 1).
Proof.
  apply (proj1 (@zero_budget_partial_answer text_world always_no 0 "no" "2+2"
                  None eq_refl)
           {| react.id := "agent-1"; react.verbose := false;
              react.max_iterations := 0; react.tools := [calc] |}).
  simpl. lia.
Defined.

Lemma react_stops_at_final_answer_witness :
  ∃ r, react.execute react_with_calc "2+2" None
         (λ _, inr "Thought: easy. Final Answer: 4") 0 = (inr r, 1) ∧
    output r = "4" ∧ metadata r !! "iterations" = Some (PInt 1).
Proof.
  destruct (@react_stops_at_final_answer text_world react_with_calc "2+2" None
              (λ _, inr "Thought: easy. Final Answer: 4") 0
              "Thought: easy. Final Answer: 4" eq_refl)
    as (r & Hrun & Hout & Hit).
  - simpl. lia.
  - vm_compute. reflexivity.
  - exists r. split; [exact Hrun|]. split; [|exact Hit].
    rewrite Hout. vm_compute. reflexivity.
Defined.

End agent_more.

(** ** The RAISE scratch pad and the ReWOO tasks *)

Section raise_rewoo_more.
Import base llm run_props.
Import agent_examples.
Local Arguments String.append !_ _ /.

(** *** [str.split] with a limit of one *)

Lemma split_once_None s sep :
  py.contains s sep = false → py.split_once s sep = (s, None).
Proof.
  induction s as [|c s IH]; cbn [py.contains py.split_once];
    intros [Hs Hc]%orb_false_iff; rewrite Hs; [done|].
  by rewrite IH.
Qed.

Lemma split_once_Some s sep :
  py.contains s sep = true →
  ∃ before after, py.split_once s sep = (before, Some after) ∧
    s = before +:+ sep +:+ after.
Proof.
  induction s as [|c s IH]; cbn [py.contains py.split_once].
  - rewrite orb_false_r. intros Hs. rewrite Hs.
    exists EmptyString, (py.drop (String.length sep) EmptyString).
    split; [done|]. apply startswith_spec in Hs as [post Hp].
    destruct sep; [|done]. done.
  - destruct (py.startswith (String c s) sep) eqn:Hs.
    + intros _. exists EmptyString, (py.drop (String.length sep) (String c s)).
      split; [done|]. apply startswith_spec in Hs as [post ->]. simpl.
      f_equal. clear. induction sep; simpl; [by destruct post|done].
    + simpl. intros (before & after & -> & ->)%IH.
      by exists (String c before), after.
Qed.

(** *** A literal searched without regard to letter case *)

Lemma skip_lit_nocase f l s s' :
  re.IGNORECASE f = true →
  re.skip_lit f l s = Some s' ↔
  ∃ mk, s = mk +:+ s' ∧ py.lower mk = py.lower l.
Proof.
  intros Hf. revert s. induction l as [|p l IH]; intros s; simpl.
  - split.
    + intros [= ->]. by exists EmptyString.
    + intros (mk & -> & Hmk). by destruct mk.
  - destruct s as [|c s].
    + split; [done|]. intros (mk & Hs & Hmk). by destruct mk.
    + unfold re.char_eq. rewrite Hf. case_bool_decide as Hpc.
      * rewrite IH. split.
        -- intros (mk & -> & Hmk). exists (String c mk). simpl.
           by rewrite Hmk, Hpc.
        -- intros (mk & Hs & Hmk). destruct mk as [|c' mk]; [done|].
           simpl in *. injection Hs as -> ->. injection Hmk as _ Hmk. eauto.
      * split; [done|]. intros (mk & Hs & Hmk).
        destruct mk as [|c' mk]; [done|].
        simpl in *. injection Hs as -> ->. injection Hmk as Hc _. congruence.
Qed.

Lemma search_lit_nocase f l s :
  re.IGNORECASE f = true →
  is_Some (re.search f (re.Lit l) s) ↔
  ∃ pre mk post, s = pre +:+ mk +:+ post ∧ py.lower mk = py.lower l.
Proof.
  intros Hf. induction s as [|c s IH]; cbn [re.search]; unfold re.match_at;
    cbn [re.mt].
  - destruct (re.skip_lit f l EmptyString) as [s'|] eqn:Hskip.
    + split; [intros _|eauto].
      apply (skip_lit_nocase _ _ _ _ Hf) in Hskip as (mk & -> & Hmk).
      by exists EmptyString, mk, s'.
    + split; [by intros [? ?]|]. intros (pre & mk & post & Hs & Hmk).
      destruct pre; [|done]. simpl in Hs.
      assert (re.skip_lit f l EmptyString = Some post) as Hsome; [|congruence].
      apply (skip_lit_nocase _ _ _ _ Hf). exists mk. by rewrite <- Hs.
  - destruct (re.skip_lit f l (String c s)) as [s'|] eqn:Hskip.
    + split; [intros _|eauto].
      apply (skip_lit_nocase _ _ _ _ Hf) in Hskip as (mk & Hs & Hmk).
      by exists EmptyString, mk, s'.
    + rewrite IH. split.
      * intros (pre & mk & post & -> & Hmk). by exists (String c pre), mk, post.
      * intros (pre & mk & post & Hs & Hmk). destruct pre as [|c' pre].
        -- simpl in Hs.
           assert (re.skip_lit f l (String c s) = Some post) as Hsome;
             [|congruence].
           apply (skip_lit_nocase _ _ _ _ Hf). exists mk. by rewrite <- Hs.
        -- simpl in Hs. injection Hs as -> ->. by exists pre, mk, post.
Qed.



(** *** The worker tasks of the planner *)

Lemma extract_tasks_bounded (self : rewoo.ReWOOAgent) ps text tasks :
  (0 ≤ rewoo.num_workers self)%Z →
  rewoo.extract_tasks self ps text = Some tasks →
  length tasks ≤ Z.to_nat (rewoo.num_workers self) ∧
  Forall (λ t, t ≠ EmptyString) tasks.
Proof.
  intros Hw. induction ps as [|p ps IH]; cbn [rewoo.extract_tasks]; [done|].
  destruct (negb _); [|done]. intros [= <-].
  unfold py.slice_to. rewrite (proj2 (Z.leb_le _ _) Hw). split.
  - rewrite length_firstn. lia.
  - apply (Forall_take _ _ _). apply Forall_fmap, Forall_forall.
    intros t Ht%list_elem_of_filter. by destruct Ht.
Qed.

Lemma default_tasks_bounded (self : rewoo.ReWOOAgent) task :
  length (rewoo._create_default_tasks self task)
    = Z.to_nat (rewoo.num_workers self) ∧
  Forall (λ t, t ≠ EmptyString) (rewoo._create_default_tasks self task).
Proof.
  unfold rewoo._create_default_tasks. rewrite length_fmap, length_seq.
  split; [done|]. apply Forall_fmap, Forall_forall. intros i _.
  destruct i as [|[|i]]; done.
Qed.

Lemma assign_worker_tasks_bounded (self : rewoo.ReWOOAgent) task plan g n
    tasks n' :
  (0 ≤ rewoo.num_workers self)%Z →
  rewoo._assign_worker_tasks self task plan g n = (inr tasks, n') →
  length tasks ≤ Z.to_nat (rewoo.num_workers self) ∧
  Forall (λ t, t ≠ EmptyString) tasks ∧ n ≤ n' ≤ S n.
Proof.
  intros Hw. unfold rewoo._assign_worker_tasks.
  destruct (rewoo.extract_tasks self rewoo.task_patterns plan) as [ts|]
    eqn:Hplan.
  - intros [= <- <-].
    destruct (extract_tasks_bounded _ _ _ _ Hw Hplan). split; [done|].
    split; [done|lia].
  - unfold bind, generate, ret. destruct (g n) as [e|r]; [done|].
    cbv beta iota.
    destruct (rewoo.extract_tasks self rewoo.task_patterns r) as [ts|] eqn:Hr;
      intros [= <- <-].
    + destruct (extract_tasks_bounded _ _ _ _ Hw Hr). split; [done|].
      split; [done|lia].
    + destruct (default_tasks_bounded self task) as [-> ?]. split; [done|].
      split; [done|lia].
Qed.

Lemma run_workers_calls (self : rewoo.ReWOOAgent) :
  ∀ tasks wid results steps g n results' steps' n',
    rewoo.run_workers self tasks wid results steps g n
      = (inr (results', steps'), n') →
    n' = n + length tasks ∧
    length results' = length results + length tasks ∧
    length steps' = length steps + length tasks.
Proof.
  induction tasks as [|t tasks IH];
    intros wid results steps g n results' steps' n'; cbn [rewoo.run_workers].
  - intros [= <- <- <-]. simpl. lia.
  - unfold rewoo._generate_llm_response, bind at 1, bind at 1, generate at 1,
      ret at 1.
    destruct (g n) as [e|r]; [done|]. cbn.
    intros (-> & Hr & Hs)%IH. rewrite length_app in Hr, Hs. simpl in *. lia.
Qed.

(** X16.  With a number of workers that is not negative, the planner
    hands out at most that many tasks, each with text in it; a run that
    returns has made one call per task between the plan (and, when the plan
    has no task in it, the extraction) and the solution, and its trace has
    the plan, the task list, one entry per task and the solution. *)
Theorem worker_tasks_bounded {W : World} (self : rewoo.ReWOOAgent) task
    (context : option (gmap string (Value W))) g n r n' :
  (0 ≤ rewoo.num_workers self)%Z →
  rewoo.execute self task context g n = (inr r, n') →
  ∃ tasks,
    intermediate_steps r !! 1
      = Some {[ "type" := PStr "worker_tasks"; "content" := PList tasks ]} ∧
    length tasks ≤ Z.to_nat (rewoo.num_workers self) ∧
    Forall (λ t, t ≠ EmptyString) tasks ∧
    length (intermediate_steps r) = 3 + length tasks ∧
    n + 2 + length tasks ≤ n' ≤ n + 3 + length tasks.
Proof.
  intros Hw. unfold rewoo.execute.
  unfold rewoo._generate_llm_response at 1. unfold bind at 1, bind at 1.
  unfold generate at 1, ret at 1. destruct (g n) as [e|plan]; [done|]. cbn.
  unfold bind at 1.
  destruct (rewoo._assign_worker_tasks self task plan g (S n))
    as [[e|tasks] n1] eqn:Htasks; [done|].
  apply (assign_worker_tasks_bounded _ _ _ _ _ _ _ Hw) in Htasks
    as (Hlen & Hne & Hn1).
  unfold bind at 1.
  destruct (rewoo.run_workers self tasks 1 [] _ g n1)
    as [[e|[results steps]] n2] eqn:Hrun; [done|].
  pose proof Hrun as Hsteps.
  apply run_workers_calls in Hrun as (-> & _ & Hlen').
  unfold rewoo._generate_llm_response, bind, generate, ret.
  destruct (g _) as [e|solution]; [done|]. intros [= <- <-]. cbn.
  exists tasks. rewrite length_app, Hlen'. cbn.
  split; [|repeat split; try done; lia].
  assert (∀ tasks wid results steps0 g n results' steps' n',
            rewoo.run_workers self tasks wid results steps0 g n
              = (inr (results', steps'), n') →
            ∃ more, steps' = steps0 ++ more) as Hprefix.
  { clear. induction tasks as [|t tasks IH];
      intros wid results steps0 g n results' steps' n';
      cbn [rewoo.run_workers].
    - intros [= <- <- <-]. exists []. by rewrite app_nil_r.
    - unfold rewoo._generate_llm_response, bind at 1, bind at 1,
        generate at 1, ret at 1.
      destruct (g n) as [e|r]; [done|]. cbn.
      intros [more ->]%IH. rewrite <- app_assoc. eauto. }
  apply Hprefix in Hsteps as [more ->]. done.
Qed.

Lemma worker_tasks_bounded_witness :
  ∃ r n' tasks,
    rewoo.execute (W:=text_world)
      {| rewoo.id := "agent-2"; rewoo.verbose := false;
         rewoo.reasoning_depth := 3; rewoo.reasoning_style := "cot";
         rewoo.num_workers := 2 |} "2+2" None
      (λ _, inr "1. add 2. check 3. print") 0 = (inr r, n') ∧
    intermediate_steps r !! 1
      = Some {[ "type" := PStr "worker_tasks"; "content" := PList tasks ]} ∧
    length tasks ≤ 2.
Proof.
  set (self := {| rewoo.id := "agent-2"; rewoo.verbose := false;
                  rewoo.reasoning_depth := 3; rewoo.reasoning_style := "cot";
                  rewoo.num_workers := 2 |}).
  destruct (rewoo.execute (W:=text_world) self "2+2" None
              (λ _, inr "1. add 2. check 3. print") 0)
    as [[e|r] n'] eqn:Hrun; [by vm_compute in Hrun|].
  assert (0 ≤ rewoo.num_workers self)%Z as Hw by (cbn; lia).
  destruct (worker_tasks_bounded (W:=text_world) self _ _ _ _ _ _ Hw Hrun)
    as (tasks & H1 & H2 & _).
  by exists r, n', tasks.
Defined.

End raise_rewoo_more.

(** ** The memories *)

Section memory_more.
Import memory.
Context {Any : Type}.
Implicit Types (m : SimpleMemory Any) (self : ConversationBufferMemory Any).

(** X17.  The life of an entry of a [SimpleMemory].  A dictionary stored
    without a [created_at] gets one, the time of the [add]; [update] keeps
    it and sets [updated_at]; [update] of a key that is not stored changes
    nothing, it never creates the key; [delete] removes the entry, and on a
    key that is not stored changes nothing; other keys are never touched. *)
Theorem simple_memory_entry_life now now' m key other d d' :
  d !! "created_at" = None → d' !! "created_at" = None → other ≠ key →
  get (add now m key (Dict d)) key
    = Some (Dict (<["created_at" := Str now]> d)) ∧
  get (update now' (add now m key (Dict d)) key (Dict d')) key
    = Some (Dict (<["updated_at" := Str now']>
                    (<["created_at" := Str now]> d'))) ∧
  (get m key = None → ∀ v, update now' m key v = m) ∧
  get (delete (add now m key (Dict d)) key) key = None ∧
  (get m key = None → delete m key = m) ∧
  get (add now m key (Dict d)) other = get m other ∧
  get (update now' m key (Dict d')) other = get m other ∧
  get (delete m key) other = get m other.
Proof.
  intros Hd Hd' Hother. unfold get, add, update, delete. cbn zeta.
  rewrite decide_False by (rewrite Hd; by intros [? ?]).
  rewrite !lookup_insert_eq. rewrite Hd'. repeat split.
  - by intros ->.
  - rewrite decide_True by eauto. apply lookup_delete_eq.
  - intros Hm. rewrite decide_False; [done|]. rewrite Hm. by intros [? ?].
  - by rewrite lookup_insert_ne.
  - destruct (m !! key); [|done]. by rewrite lookup_insert_ne.
  - case_decide; [|done]. by rewrite lookup_delete_ne.
Qed.

Lemma slice_from_neg {A} (k : nat) (l : list A) :
  slice_from (- Z.of_nat (S k)) l = skipn (length l - S k) l.
Proof.
  unfold slice_from.
  rewrite (proj2 (Z.leb_gt _ _)) by lia. do 2 f_equal. lia.
Qed.

Lemma slice_from_last {A} (k : Z) (l : list A) :
  (1 ≤ k)%Z → slice_from (- k) l = skipn (length l - Z.to_nat k) l.
Proof.
  intros Hk. replace k with (Z.of_nat (S (pred (Z.to_nat k)))) at 1 by lia.
  rewrite slice_from_neg. do 2 f_equal. lia.
Qed.

(** X18.  A buffer whose [max_messages] is at least 1 never holds more
    than that many messages: [add_message] appends the new message and, when
    the buffer was full, drops the oldest one.  With [max_messages = 0] the
    buffer is never trimmed, and with a negative [max_messages] an empty
    buffer stays empty. *)
Theorem buffer_keeps_newest now self role content kwargs self' :
  add_message now self role content kwargs = inr self' →
  let new := message now role content kwargs in
  ((1 ≤ max_messages self)%Z →
   (Z.of_nat (length (messages self)) ≤ max_messages self)%Z →
   (Z.of_nat (length (messages self')) ≤ max_messages self')%Z ∧
   last (messages self') = Some new ∧
   ∃ dropped, messages self ++ [new] = dropped ++ messages self' ∧
     length dropped ≤ 1) ∧
  (max_messages self = 0%Z → messages self' = messages self ++ [new]) ∧
  ((max_messages self < 0)%Z → messages self = [] → messages self' = []).
Proof.
  unfold add_message. repeat case_decide; try done. intros [= <-]. cbn.
  set (new := message now role content kwargs).
  rewrite length_app. cbn [length]. split; [|split].
  - intros Hmax Hlen.
    destruct (Z.ltb_spec (max_messages self)
                (Z.of_nat (length (messages self) + 1))) as [Hfull|Hroom].
    + assert (max_messages self = Z.of_nat (S (pred (length (messages self)))))
        as Hk by lia.
      assert (slice_from (- max_messages self) (messages self ++ [new])
              = skipn 1 (messages self ++ [new])) as ->.
      { rewrite Hk, slice_from_neg, length_app. cbn [length]. f_equal. lia. }
      destruct (messages self) as [|m0 ms] eqn:Hms; [simpl in *; lia|].
      simpl. rewrite !drop_0. split; [rewrite length_app; simpl in *; lia|].
      split; [by rewrite last_snoc|]. by exists [m0].
    + split.
      { rewrite length_app. cbn [length]. lia. }
      split; [by rewrite last_snoc|]. exists []. split; [done|simpl; lia].
  - intros ->. by destruct (_ <? _)%Z.
  - intros Hneg ->. rewrite (proj2 (Z.ltb_lt _ _)) by (simpl; lia).
    unfold slice_from. rewrite (proj2 (Z.leb_le _ _)) by lia.
    cbn [app]. destruct (Z.to_nat (- max_messages self)) eqn:Hz; [lia|].
    simpl. apply drop_nil.
Qed.

(** X19.  After a message was added to a buffer with [max_messages] at
    least 1, the history of the last message is that message alone; asking
    for at least as many messages as there are gives them all, and so does
    asking for zero messages. *)
Theorem history_after_add now self role content kwargs self' n :
  add_message now self role content kwargs = inr self' →
  (1 ≤ max_messages self)%Z →
  get_conversation_history self' (Some 1%Z)
    = [message now role content kwargs] ∧
  ((Z.of_nat (length (messages self')) ≤ n)%Z →
   get_conversation_history self' (Some n) = messages self') ∧
  get_conversation_history self' (Some 0%Z) = messages self' ∧
  get_conversation_history self' None = messages self'.
Proof.
  intros Hadd Hmax.
  assert (∃ older, messages self'
                   = older ++ [message now role content kwargs])
    as [older Hlast].
  { revert Hadd. unfold add_message. repeat case_decide; try done.
    intros [= <-]. cbn. destruct (_ <? _)%Z eqn:Hfull; [|eauto].
    rewrite slice_from_last by done. rewrite length_app. cbn [length].
    rewrite skipn_app.
    replace (length (messages self) + 1 - Z.to_nat (max_messages self)
             - length (messages self)) with 0 by lia.
    rewrite drop_0. eauto. }
  unfold get_conversation_history. repeat split; try done.
  - rewrite Hlast. rewrite slice_from_last by done.
    rewrite length_app. cbn [length]. rewrite skipn_app.
    replace (length older + 1 - Z.to_nat 1) with (length older) by lia.
    by rewrite drop_all, Nat.sub_diag.
  - intros Hn. unfold slice_from.
    destruct (Z.leb_spec 0 (- n)) as [Hle|Hgt].
    + assert (length (messages self') = 0) as Hz by lia.
      destruct (messages self'); [by rewrite skipn_nil|done].
    + replace (length (messages self') - Z.to_nat (- - n)) with 0 by lia.
      done.
Qed.

End memory_more.

Section memory_witnesses.
Import memory.

Lemma simple_memory_entry_life_witness :
  get (update "t2" (add "t1" (empty (Any:=nat)) "k" (Dict {[ "a" := Plain 1 ]}))
         "k" (Dict {[ "a" := Plain 2 ]})) "k"
  = Some (Dict (<["updated_at" := Str "t2"]>
                  (<["created_at" := Str "t1"]> {[ "a" := Plain 2 ]}))).
Proof.
  apply (simple_memory_entry_life "t1" "t2" empty "k" "j"
           {[ "a" := Plain 1 ]} {[ "a" := Plain 2 ]}); done.
Defined.

Lemma buffer_keeps_newest_witness :
  ∃ self' : ConversationBufferMemory nat,
    add_message "t3"
      {| max_messages := 2; storage := ∅;
         messages := [message "t1" "user" "a" ∅; message "t2" "agent" "b" ∅] |}
      "user" "c" ∅ = inr self' ∧
    messages self' = [message "t2" "agent" "b" ∅; message "t3" "user" "c" ∅] ∧
    last (messages self') = Some (message "t3" "user" "c" ∅).
Proof.
  eexists. split; [reflexivity|]. split; [reflexivity|].
  eapply (buffer_keeps_newest "t3" _ "user" "c" ∅); [reflexivity|..];
    cbn; lia.
Defined.

Lemma history_after_add_witness :
  ∃ self' : ConversationBufferMemory nat,
    add_message "t1" (new_buffer None) "user" "a" ∅ = inr self' ∧
    get_conversation_history self' (Some 1%Z) = [message "t1" "user" "a" ∅] ∧
    get_conversation_history self' (Some 0%Z) = messages self'.
Proof.
  exists {| max_messages := 100; storage := ∅;
            messages := [message "t1" "user" "a" ∅] |}.
  split; [reflexivity|].
  edestruct (history_after_add (Any:=nat) "t1" (new_buffer None) "user" "a" ∅
               {| max_messages := 100; storage := ∅;
                  messages := [message "t1" "user" "a" ∅] |} 5%Z)
    as (H1 & _ & H0 & _);
    [reflexivity | cbn; lia | by split].
Defined.

End memory_witnesses.

(** ** The gateway factory *)

Section core_llm_more.
Import core_llm.

Lemma split_once_first s sep : sep ≠ EmptyString →
  ∀ before after, py.split_once s sep = (before, Some after) →
    s = before +:+ sep +:+ after ∧ py.contains before sep = false.
Proof.
  intros Hsep. induction s as [|c s IH]; intros before after;
    cbn [py.split_once]; destruct (py.startswith _ sep) eqn:Hs.
  - intros [= <- <-]. by destruct sep.
  - done.
  - intros [= <- <-]. split; [|by destruct sep].
    apply startswith_spec in Hs as [post ->].
    change (EmptyString +:+ ?x) with x. f_equal.
    clear. induction sep; simpl; [by destruct post|done].
  - destruct (py.split_once s sep) as [a b] eqn:Hsplit. intros [= <- ->].
    destruct (IH _ _ eq_refl) as [-> Hno]. split; [done|].
    cbn [py.contains]. rewrite Hno, orb_false_r.
    destruct (py.startswith (String c a) sep) eqn:Ha; [|done].
    apply startswith_spec in Ha as [post Ha].
    assert (py.startswith (String c (a +:+ sep +:+ after)) sep = true)
      as Hs'; [|by rewrite Hs' in Hs].
    apply startswith_spec. exists (post +:+ sep +:+ after).
    change (String c (a +:+ sep +:+ after))
      with (String c a +:+ sep +:+ after).
    by rewrite Ha, sapp_assoc.
Qed.

(** X20.  [create_llm] splits its argument at the first colon.  Without
    a colon it raises the [ValueError] about the format; a client is only
    returned for a text [provider:model] whose provider, in any letter
    case, is [openai] or [anthropic]; the model is all of the text after
    the first colon, further colons included; the package of the provider
    was importable; and the key is the one given, the configuration being
    asked only when none was given. *)
Theorem create_llm_outcomes env provider_model key :
  (py.contains provider_model ":" = false →
   create_llm env provider_model key
   = inl (ValueError ("Invalid provider_model format: " +:+ provider_model
                      +:+ ", expected 'provider:model'"))) ∧
  (∀ c, create_llm env provider_model key = inr c →
     ∃ provider,
       provider_model = provider +:+ ":" +:+ model c ∧
       py.contains provider ":" = false ∧
       py.lower provider = key_name (kind c) ∧
       importable env (kind c) = true ∧
       match key with
       | Some k => api_key c = k
       | None => get_api_key env (key_name (kind c)) = Some (api_key c)
       end).
Proof.
  unfold create_llm. split.
  - intros Hno. by rewrite (split_once_None _ _ Hno).
  - intros c. destruct (py.split_once provider_model ":")
      as [provider [mdl|]] eqn:Hsplit; [|done].
    apply split_once_first in Hsplit as [-> Hno]; [|done].
    intros Hc. exists provider.
    assert (∀ p, py.lower provider = key_name p →
              new_client env p mdl key = inr c →
              mdl = model c ∧ py.lower provider = key_name (kind c) ∧
              importable env (kind c) = true ∧
              match key with
              | Some k => api_key c = k
              | None => get_api_key env (key_name (kind c)) = Some (api_key c)
              end) as Hnew.
    { intros p Hp. unfold new_client.
      destruct (importable env p) eqn:Himp; [|done]. cbn [negb].
      destruct key as [k|].
      - by intros [= <-].
      - destruct (get_api_key env (key_name p)) as [k|] eqn:Hk; [|done].
        by intros [= <-]. }
    repeat case_decide; try done.
    + destruct (Hnew OpenAI) as (-> & ? & ? & ?); done.
    + destruct (Hnew Anthropic) as (-> & ? & ? & ?); done.
Qed.

Lemma create_llm_outcomes_witness :
  ∃ provider,
    "OpenAI:ft:gpt-4" = provider +:+ ":" +:+ "ft:gpt-4" ∧
    py.contains provider ":" = false ∧
    py.lower provider = "openai".
Proof.
  destruct (proj2 (create_llm_outcomes
                     {| importable := λ _, true; get_api_key := λ _, None |}
                     "OpenAI:ft:gpt-4" (Some "sk"))
              {| kind := OpenAI; model := "ft:gpt-4"; api_key := "sk" |})
    as (provider & Hpm & Hno & Hlow & _); [vm_compute; reflexivity|].
  by exists provider.
Defined.

End core_llm_more.
